(** * Workflow engine: DSL lexer/parser/generator, validators, model, JSON

    A shallow embedding of the TypeScript sources of the workflow engine
    (packages/workflow-engine) and the properties checked against it.

    Conventions of the embedding.
    - A JavaScript string is a [string]; each character stands for one
      code unit below 256.
    - A JavaScript number is [number]: [NaN] or an exact rational.  The
      code only reads, stores, compares and prints numbers, so rounding to
      a double is not modelled.
    - A JavaScript object used as a record becomes a Rocq record whose
      optional properties are [option]s ([None] is [undefined]); an object
      used as a dictionary is the association list of its own
      properties, kept in insertion order with pairwise distinct names
      (module [Js]).  Such an object is written as a literal, so it
      inherits the properties of [Object.prototype]: reading and
      assigning through a computed name take them into account
      ([inherited], [obj_assign]).
    - A function that can throw returns a [Result]; recursion that is not
      structural takes fuel, and running out of it is the separate outcome
      [OutOfFuel]. *)

From Stdlib Require Import ZArith QArith String Ascii List Permutation Sorted.
From Stdlib Require Import DecimalString.
From stdpp Require Import gmap strings list relations.
Import ListNotations.

Local Open Scope Z_scope.
Set Warnings "-register-all,-clear-no-such-hyp".

(* ------------------------------------------------------------------ *)
(** ** JavaScript values and built-ins used by the sources *)
(* ------------------------------------------------------------------ *)

Module Js.

(** Characters that cannot be written inside a literal. *)
Definition DQ : string := String "034"%char EmptyString.
Definition NL : string := String "010"%char EmptyString.
Definition BSL : ascii := "092"%char.

Inductive number : Type :=
| NaN
| Num (q : Q).

(** [String(z)] on an integer, in decimal. *)
Definition string_of_Z (z : Z) : string :=
  NilZero.string_of_int (Z.to_int z).

(** [any]: the JSON-like values the DSL can denote. *)
Inductive value : Type :=
| VNull
| VBool (b : bool)
| VNum (n : number)
| VStr (s : string)
| VArr (l : list value)
| VObj (o : list (string * value)).

(** An object used as a dictionary. *)
Definition object (V : Type) : Type := list (string * V).

(** [o[k]] where [o] has an own property [k], and [undefined] for a
    name that is neither an own property nor inherited. *)
Fixpoint obj_get {V} (k : string) (o : object V) : option V :=
  match o with
  | [] => None
  | (k', v) :: o' => if String.eqb k' k then Some v else obj_get k o'
  end.

(** Writing the own property [k]: an existing property keeps its place,
    a new one is added last. *)
Fixpoint obj_set {V} (k : string) (v : V) (o : object V) : object V :=
  match o with
  | [] => [(k, v)]
  | (k', v') :: o' =>
      if String.eqb k' k then (k', v) :: o' else (k', v') :: obj_set k v o'
  end.

(** The property names of [Object.prototype].  An object written as a
    literal inherits them: reading one of these names from it gives a
    function (the prototype itself for [__proto__]), which is truthy and
    equal to no string. *)
Definition Object_prototype : list string :=
  [ "constructor"; "hasOwnProperty"; "isPrototypeOf";
    "propertyIsEnumerable"; "toLocaleString"; "toString"; "valueOf";
    "__proto__"; "__defineGetter__"; "__defineSetter__";
    "__lookupGetter__"; "__lookupSetter__" ].

Definition inherited (k : string) : bool :=
  existsb (String.eqb k) Object_prototype.

(** [o[k] = v] on an object written as a literal.  The name [__proto__]
    is the setter inherited from [Object.prototype]: it sets the
    prototype when [v] is an object and does nothing otherwise, and in
    both cases [o] gets no own property.  Every other inherited name is
    a writable data property, so the assignment creates the own
    property. *)
Definition obj_assign {V} (k : string) (v : V) (o : object V) : object V :=
  if String.eqb k "__proto__" then o else obj_set k v o.

Definition is_digit (c : ascii) : bool :=
  let n := nat_of_ascii c in (48 <=? n)%nat && (n <=? 57)%nat.

Definition digit_val (c : ascii) : N := N.of_nat (nat_of_ascii c - 48).

Fixpoint digits_val (acc : N) (l : list ascii) : N :=
  match l with
  | [] => acc
  | c :: l' => digits_val (10 * acc + digit_val c)%N l'
  end.

(** An array index: a canonical decimal numeral below 2^32 - 1.  Such
    property names are enumerated first, in ascending numeric order. *)
Definition array_index (k : string) : option N :=
  match list_ascii_of_string k with
  | [] => None
  | c :: rest =>
      if forallb is_digit (c :: rest)
         && (negb (Ascii.eqb c "0"%char) || (Nat.eqb (List.length rest) 0))
         && (List.length (c :: rest) <=? 10)%nat
      then
        let n := digits_val 0 (c :: rest) in
        if (n <? 4294967295)%N then Some n else None
      else None
  end.

Fixpoint insert_by_index {V} (e : N * (string * V))
    (l : list (N * (string * V))) : list (N * (string * V)) :=
  match l with
  | [] => [e]
  | e' :: l' =>
      if (fst e <? fst e')%N then e :: e' :: l'
      else e' :: insert_by_index e l'
  end.

Definition sort_by_index {V} (l : list (N * (string * V)))
  : list (N * (string * V)) :=
  fold_right insert_by_index [] l.

Definition index_entries {V} (o : object V) : list (N * (string * V)) :=
  omap (fun e => match array_index (fst e) with
                 | Some n => Some (n, e)
                 | None => None
                 end) o.

Definition name_entries {V} (o : object V) : list (string * V) :=
  List.filter (fun e => match array_index (fst e) with
                        | Some _ => false
                        | None => true
                        end) o.

(** [Object.entries(o)]: own properties in property order. *)
Definition entries {V} (o : object V) : list (string * V) :=
  List.map snd (sort_by_index (index_entries o)) ++ name_entries o.


(** Truthiness of an optional string property: [if (x)]. *)
Definition truthy_str (o : option string) : bool :=
  match o with
  | Some s => negb (String.eqb s EmptyString)
  | None => false
  end.

Definition is_zero (n : number) : bool :=
  match n with
  | NaN => true
  | Num q => Qeq_bool q 0
  end.

Definition truthy (v : value) : bool :=
  match v with
  | VNull => false
  | VBool b => b
  | VNum n => negb (is_zero n)
  | VStr s => negb (String.eqb s EmptyString)
  | VArr _ => true
  | VObj _ => true
  end.

(** [xs.join(sep)] on strings. *)
Fixpoint join (sep : string) (xs : list string) : string :=
  match xs with
  | [] => EmptyString
  | [x] => x
  | x :: xs' => x +:+ sep +:+ join sep xs'
  end.

(** [' '.repeat(n)] *)
Fixpoint repeat_str (s : string) (n : nat) : string :=
  match n with
  | O => EmptyString
  | S n' => s +:+ repeat_str s n'
  end.

(** [s.charAt(i)]: the empty string out of range. *)
Definition charAt (s : string) (i : nat) : string :=
  match String.get i s with
  | Some c => String c EmptyString
  | None => EmptyString
  end.

(** [s.substring(a, b)]: both ends are clamped to the string and swapped
    when [a > b]. *)
Definition substring (s : string) (a b : Z) : string :=
  let len := Z.of_nat (String.length s) in
  let a' := Z.max 0 (Z.min a len) in
  let b' := Z.max 0 (Z.min b len) in
  let lo := Z.min a' b' in
  let hi := Z.max a' b' in
  String.substring (Z.to_nat lo) (Z.to_nat (hi - lo)) s.

(** [/\s/] on code units below 256. *)
Definition is_space (c : ascii) : bool :=
  let n := nat_of_ascii c in
  ((9 <=? n)%nat && (n <=? 13)%nat) || Nat.eqb n 32 || Nat.eqb n 160.

(** [/[a-zA-Z_]/] *)
Definition is_ident_start (c : ascii) : bool :=
  let n := nat_of_ascii c in
  ((97 <=? n)%nat && (n <=? 122)%nat)
  || ((65 <=? n)%nat && (n <=? 90)%nat)
  || Nat.eqb n 95.

(** [/[a-zA-Z0-9_]/] *)
Definition is_ident_char (c : ascii) : bool :=
  is_ident_start c || is_digit c.

(** [/[0-9.]/] *)
Definition is_number_char (c : ascii) : bool :=
  is_digit c || Ascii.eqb c "."%char.

(** A regular-expression test on a one-character string (or the empty
    string [charAt] gives out of range). *)
Definition test1 (p : ascii -> bool) (ch : string) : bool :=
  match ch with
  | String c EmptyString => p c
  | _ => false
  end.

(** [s.split(/\s+/)] *)
Fixpoint split_ws_from (acc : list ascii) (in_run : bool) (l : list ascii)
  : list string :=
  match l with
  | [] => [string_of_list_ascii (rev acc)]
  | c :: l' =>
      if is_space c then
        if in_run then split_ws_from [] true l'
        else string_of_list_ascii (rev acc) :: split_ws_from [] true l'
      else split_ws_from (c :: acc) false l'
  end.

Definition split_ws (s : string) : list string :=
  split_ws_from [] false (list_ascii_of_string s).

Fixpoint span_digits (l : list ascii) : list ascii * list ascii :=
  match l with
  | c :: l' =>
      if is_digit c then let '(d, r) := span_digits l' in (c :: d, r)
      else ([], l)
  | [] => ([], [])
  end.

(** [/^[0-9]+(\.[0-9]+)?$/] *)
Definition is_decimal (s : string) : bool :=
  let '(ip, r) := span_digits (list_ascii_of_string s) in
  match ip, r with
  | [], _ => false
  | _, [] => true
  | _, c :: r' =>
      Ascii.eqb c "."%char &&
      (let '(fp, r'') := span_digits r' in
       match fp, r'' with
       | _ :: _, [] => true
       | _, _ => false
       end)
  end.

(** [parseFloat(s)] on the texts the lexer and the condition parser hand
    to it, which start with a digit or are rejected before: the longest
    prefix of the form digits, optional dot, digits. *)
Definition parseFloat (s : string) : number :=
  let '(ip, r) := span_digits (list_ascii_of_string s) in
  match ip with
  | [] => NaN
  | _ =>
      let fp := match r with
                | c :: r' => if Ascii.eqb c "."%char
                             then fst (span_digits r') else []
                | [] => []
                end in
      Num (Qred (Z.of_N (digits_val 0 (ip ++ fp))
                 # Pos.of_nat (10 ^ List.length fp)))
  end.

End Js.

(* ------------------------------------------------------------------ *)
(** ** core/types.ts and core/constants.ts *)
(* ------------------------------------------------------------------ *)

Module Types.
Import Js.

Definition NodeId := string.
Definition TrackId := string.
Definition WorkflowId := string.
Definition ResourceId := string.

Inductive NodeType := TASK | DECISION | SYNC_POINT | START | END.

Definition NodeType_eqb (a b : NodeType) : bool :=
  match a, b with
  | TASK, TASK | DECISION, DECISION | SYNC_POINT, SYNC_POINT
  | START, START | END, END => true
  | _, _ => false
  end.

(** The string value of the enumeration member. *)
Definition NodeType_str (t : NodeType) : string :=
  match t with
  | TASK => "task"
  | DECISION => "decision"
  | SYNC_POINT => "sync_point"
  | START => "start"
  | END => "end"
  end.

Inductive DependencyType := SEQUENTIAL | CONDITIONAL | SYNC.

Inductive ResourceType := CPU | MEMORY | GPU | CUSTOM.

Inductive ConditionOperator :=
| EQUALS | NOT_EQUALS | GREATER_THAN | LESS_THAN
| GREATER_THAN_OR_EQUALS | LESS_THAN_OR_EQUALS
| CONTAINS | NOT_CONTAINS | STARTS_WITH | ENDS_WITH | REGEX.


Record Position := { pos_x : number; pos_y : number }.
Record Size := { size_width : number; size_height : number }.

Record ResourceRequirement := {
  resourceType : ResourceType;
  amount : number;
  resourceId : option ResourceId;
  res_metadata : option (object value)
}.

Record Condition := {
  leftOperand : string;
  operator : ConditionOperator;
  rightOperand : value;
  cond_metadata : option (object value)
}.

(** [isDefault] is not part of the interface: the parser sets it on the
    untyped object it builds. *)
Record Dependency := {
  sourceId : NodeId;
  targetId : NodeId;
  dep_type : DependencyType;
  condition : option Condition;
  isDefault : option bool;
  dep_metadata : option (object value)
}.

(** [waitForAll] is optional here because the parser creates the
    configuration before it assigns the flag. *)
Record SyncPointConfig := {
  requiredSources : list NodeId;
  waitForAll : option bool;
  sync_timeout : option number;
  sync_metadata : option (object value)
}.

(** One record for [WorkflowNode] and its five extensions; a property a
    variant does not have is [None].  [trackName] and
    [defaultTargetName] are the two properties the parser adds on the
    untyped object it builds. *)
Record WorkflowNode := {
  node_id : NodeId;
  node_type : NodeType;
  node_name : string;
  node_description : option string;
  trackId : option TrackId;
  position : option Position;
  size : option Size;
  resourceRequirements : option (list ResourceRequirement);
  node_metadata : option (object value);
  taskType : option string;
  parameters : option (object value);
  timeout : option number;
  retries : option number;
  conditions : option (list Condition);
  defaultTargetId : option NodeId;
  config : option SyncPointConfig;
  trackName : option string;
  defaultTargetName : option string
}.

Record Track := {
  track_id : TrackId;
  track_name : string;
  track_description : option string;
  nodeIds : list NodeId;
  track_metadata : option (object value)
}.

Record Workflow := {
  wf_id : WorkflowId;
  wf_name : string;
  wf_description : option string;
  wf_version : option string;
  nodes : list WorkflowNode;
  dependencies : list Dependency;
  tracks : list Track;
  wf_metadata : option (object value)
}.

Record ValidationError := {
  code : string;
  message : string;
  err_nodeId : option NodeId;
  dependencyIds : option (list string);
  err_trackId : option TrackId;
  err_metadata : option (object value)
}.

Record ValidationResult := {
  valid : bool;
  errors : list ValidationError
}.


(** [ValidationErrorCode] *)
Definition CIRCULAR_DEPENDENCY : string := "circular_dependency".
Definition MISSING_START_NODE : string := "missing_start_node".
Definition MISSING_END_NODE : string := "missing_end_node".
Definition ORPHANED_NODE : string := "orphaned_node".

(** A node with only the three required properties. *)
Definition bare_node (i : NodeId) (t : NodeType) (n : string) : WorkflowNode :=
  {| node_id := i; node_type := t; node_name := n;
     node_description := None; trackId := None; position := None;
     size := None; resourceRequirements := None; node_metadata := None;
     taskType := None; parameters := None; timeout := None;
     retries := None; conditions := None; defaultTargetId := None;
     config := None; trackName := None; defaultTargetName := None |}.

Definition bare_dependency (s t : NodeId) (k : DependencyType) : Dependency :=
  {| sourceId := s; targetId := t; dep_type := k; condition := None;
     isDefault := None; dep_metadata := None |}.

End Types.

(* ------------------------------------------------------------------ *)
(** ** core/models/workflow-model.ts *)
(* ------------------------------------------------------------------ *)

Module WorkflowModel.
Import Js Types.

(** The model has the fields of [Workflow]; a method that mutates it
    returns the new state next to its result. *)

Definition removeNode (nodeId : NodeId) (this : Workflow) : Workflow * bool :=
  let initialLength := List.length (nodes this) in
  let nodes' :=
    List.filter (fun node => negb (String.eqb (node_id node) nodeId))
                (nodes this) in
  let dependencies' :=
    List.filter (fun dep => negb (String.eqb (sourceId dep) nodeId)
                            && negb (String.eqb (targetId dep) nodeId))
                (dependencies this) in
  let tracks' :=
    List.map (fun track =>
                {| track_id := track_id track;
                   track_name := track_name track;
                   track_description := track_description track;
                   nodeIds := List.filter
                                (fun i => negb (String.eqb i nodeId))
                                (nodeIds track);
                   track_metadata := track_metadata track |})
             (tracks this) in
  ({| wf_id := wf_id this; wf_name := wf_name this;
      wf_description := wf_description this;
      wf_version := wf_version this;
      nodes := nodes'; dependencies := dependencies'; tracks := tracks';
      wf_metadata := wf_metadata this |},
   negb (Nat.eqb (List.length nodes') initialLength)).

Definition getNode (nodeId : NodeId) (this : Workflow) : option WorkflowNode :=
  List.find (fun node => String.eqb (node_id node) nodeId) (nodes this).

Definition getStartNode (this : Workflow) : option WorkflowNode :=
  List.find (fun node => NodeType_eqb (node_type node) START) (nodes this).

Definition getEndNodes (this : Workflow) : list WorkflowNode :=
  List.filter (fun node => NodeType_eqb (node_type node) END) (nodes this).

Definition hasValidStructure (this : Workflow) : bool :=
  match getStartNode this with
  | None => false
  | Some _ =>
      if Nat.eqb (List.length (getEndNodes this)) 0 then false else true
  end.

Definition with_nodes (ns : list WorkflowNode) (this : Workflow) : Workflow :=
  {| wf_id := wf_id this; wf_name := wf_name this;
     wf_description := wf_description this; wf_version := wf_version this;
     nodes := ns; dependencies := dependencies this; tracks := tracks this;
     wf_metadata := wf_metadata this |}.

Definition with_dependencies (ds : list Dependency) (this : Workflow)
  : Workflow :=
  {| wf_id := wf_id this; wf_name := wf_name this;
     wf_description := wf_description this; wf_version := wf_version this;
     nodes := nodes this; dependencies := ds; tracks := tracks this;
     wf_metadata := wf_metadata this |}.

Definition with_tracks (ts : list Track) (this : Workflow) : Workflow :=
  {| wf_id := wf_id this; wf_name := wf_name this;
     wf_description := wf_description this; wf_version := wf_version this;
     nodes := nodes this; dependencies := dependencies this; tracks := ts;
     wf_metadata := wf_metadata this |}.

Definition addNode (node : WorkflowNode) (this : Workflow)
  : Workflow * WorkflowNode :=
  (with_nodes (nodes this ++ [node]) this, node).

Definition addDependency (dependency : Dependency) (this : Workflow)
  : Workflow * Dependency :=
  (with_dependencies (dependencies this ++ [dependency]) this, dependency).

Definition removeDependency (sourceId' targetId' : NodeId) (this : Workflow)
  : Workflow * bool :=
  let initialLength := List.length (dependencies this) in
  let dependencies' :=
    List.filter (fun dep => negb (String.eqb (sourceId dep) sourceId'
                                  && String.eqb (targetId dep) targetId'))
                (dependencies this) in
  (with_dependencies dependencies' this,
   negb (Nat.eqb (List.length dependencies') initialLength)).

Definition addTrack (track : Track) (this : Workflow) : Workflow * Track :=
  (with_tracks (tracks this ++ [track]) this, track).

Definition removeTrack (trackId' : TrackId) (this : Workflow)
  : Workflow * bool :=
  let initialLength := List.length (tracks this) in
  let tracks' :=
    List.filter (fun track => negb (String.eqb (track_id track) trackId'))
                (tracks this) in
  (with_tracks tracks' this,
   negb (Nat.eqb (List.length tracks') initialLength)).

Definition getTrack (trackId' : TrackId) (this : Workflow) : option Track :=
  List.find (fun track => String.eqb (track_id track) trackId') (tracks this).

Definition getNodesInTrack (trackId' : TrackId) (this : Workflow)
  : list WorkflowNode :=
  match getTrack trackId' this with
  | None => []
  | Some track =>
      List.filter (fun node => existsb (String.eqb (node_id node))
                                       (nodeIds track))
                  (nodes this)
  end.

Definition getDependenciesForNode (nodeId : NodeId) (this : Workflow)
  : list Dependency :=
  List.filter (fun dep => String.eqb (sourceId dep) nodeId
                          || String.eqb (targetId dep) nodeId)
              (dependencies this).

Definition getIncomingDependencies (nodeId : NodeId) (this : Workflow)
  : list Dependency :=
  List.filter (fun dep => String.eqb (targetId dep) nodeId)
              (dependencies this).

Definition getOutgoingDependencies (nodeId : NodeId) (this : Workflow)
  : list Dependency :=
  List.filter (fun dep => String.eqb (sourceId dep) nodeId)
              (dependencies this).

End WorkflowModel.

(* ------------------------------------------------------------------ *)
(** ** validation/validators and validation/validation-service.ts *)
(* ------------------------------------------------------------------ *)

Module Validation.
Import Js Types.

(** [validate] may fail to return: [None] is divergence. *)
Record WorkflowValidator := {
  validate : Workflow -> option (list ValidationError)
}.

(** The three variables the depth-first search closes over. *)
Record DfsState := {
  dfs_errors : list ValidationError;
  visited : gset NodeId;
  recursionStack : gset NodeId
}.

Fixpoint findIndex_from (i : Z) (nodeId : NodeId) (path : list NodeId) : Z :=
  match path with
  | [] => -1
  | x :: path' =>
      if String.eqb x nodeId then i else findIndex_from (i + 1) nodeId path'
  end.

(** [path.findIndex(id => id === nodeId)] *)
Definition findIndex (nodeId : NodeId) (path : list NodeId) : Z :=
  findIndex_from 0 nodeId path.

(** [path.slice(start)]: a negative start counts from the end. *)
Definition slice (path : list NodeId) (start : Z) : list NodeId :=
  let len := Z.of_nat (List.length path) in
  let k := if start <? 0 then Z.max (len + start) 0 else Z.min start len in
  drop (Z.to_nat k) path.

(** [cycle.map((id, index) => `${id}->${cycle[(index + 1) % cycle.length]}`)] *)
Definition cycle_edges (cycle : list NodeId) : list string :=
  imap (fun index id =>
          let nextIndex := ((index + 1) mod List.length cycle)%nat in
          id +:+ "->" +:+ default "undefined" (cycle !! nextIndex))
       cycle.

Definition cycle_error (cycle : list NodeId) : ValidationError :=
  {| code := CIRCULAR_DEPENDENCY;
     message := "Circular dependency detected: " +:+ join " -> " cycle;
     err_nodeId := None;
     dependencyIds := Some (cycle_edges cycle);
     err_trackId := None;
     err_metadata := None |}.

(** The [for (const dep of outgoingDependencies)] loop followed by the
    removal from the recursion stack, over the recursive call [rec]. *)
Definition dfs_loop
    (rec : NodeId -> list NodeId -> DfsState -> option (bool * DfsState))
    (nodeId : NodeId) (path : list NodeId)
  : list Dependency -> DfsState -> option (bool * DfsState) :=
  fix loop (deps : list Dependency) (st : DfsState) :=
    match deps with
    | [] =>
        Some (false,
              {| dfs_errors := dfs_errors st;
                 visited := visited st;
                 recursionStack := recursionStack st ∖ {[ nodeId ]} |})
    | dep :: deps' =>
        match rec (targetId dep) path st with
        | None => None
        | Some (true, st') => Some (true, st')
        | Some (false, st') => loop deps' st'
        end
    end.

Fixpoint dfs (fuel : nat) (workflow : Workflow) (nodeId : NodeId)
    (path : list NodeId) (st : DfsState) : option (bool * DfsState) :=
  match fuel with
  | O => None
  | S fuel' =>
      if bool_decide (nodeId ∈ recursionStack st) then
        let cycleStartIndex := findIndex nodeId path in
        let cycle := slice path cycleStartIndex ++ [nodeId] in
        Some (true,
              {| dfs_errors := dfs_errors st ++ [cycle_error cycle];
                 visited := visited st;
                 recursionStack := recursionStack st |})
      else if bool_decide (nodeId ∈ visited st) then
        Some (false, st)
      else
        let st1 := {| dfs_errors := dfs_errors st;
                      visited := {[ nodeId ]} ∪ visited st;
                      recursionStack := {[ nodeId ]} ∪ recursionStack st |} in
        let path1 := path ++ [nodeId] in
        let outgoingDependencies :=
          List.filter (fun dep => String.eqb (sourceId dep) nodeId)
                      (dependencies workflow) in
        dfs_loop (dfs fuel' workflow) nodeId path1 outgoingDependencies st1
  end.

(** Every nested call but the last marks a node that is the target of a
    dependency and was not yet visited, so the nesting is at most one
    deeper than the number of dependencies, after the call on the
    start. *)
Definition dfs_fuel (workflow : Workflow) : nat :=
  S (S (List.length (dependencies workflow))).

(** The [for (const node of workflow.nodes)] loop; the result of each
    search is dropped. *)
Fixpoint dfs_all (workflow : Workflow) (ns : list WorkflowNode)
    (st : DfsState) : option DfsState :=
  match ns with
  | [] => Some st
  | node :: ns' =>
      if bool_decide (node_id node ∈ visited st) then dfs_all workflow ns' st
      else
        match dfs (dfs_fuel workflow) workflow (node_id node) [] st with
        | None => None
        | Some (_, st') => dfs_all workflow ns' st'
        end
  end.

Definition checkCircularDependencies (workflow : Workflow)
  : option (list ValidationError) :=
  match dfs_all workflow (nodes workflow)
          {| dfs_errors := []; visited := ∅; recursionStack := ∅ |} with
  | None => None
  | Some st => Some (dfs_errors st)
  end.

(** [CircularDependencyValidator]: its [validate] is the same text as
    [ValidationService.checkCircularDependencies]. *)
Definition CircularDependencyValidator : WorkflowValidator :=
  {| validate := checkCircularDependencies |}.

Fixpoint run_validators (validators : list WorkflowValidator)
    (workflow : Workflow) (errors : list ValidationError)
  : option (list ValidationError) :=
  match validators with
  | [] => Some errors
  | validator :: validators' =>
      match validate validator workflow with
      | None => None
      | Some validationErrors =>
          run_validators validators' workflow (errors ++ validationErrors)
      end
  end.

(** [ValidationService.validateWorkflow], over the registered
    validators. *)
Definition validateWorkflow (validators : list WorkflowValidator)
    (workflow : Workflow) : option ValidationResult :=
  match run_validators validators workflow [] with
  | None => None
  | Some errors =>
      Some {| valid := Nat.eqb (List.length errors) 0; errors := errors |}
  end.

Definition includes (ids : list NodeId) (i : NodeId) : bool :=
  existsb (String.eqb i) ids.

Definition orphan_error (node : WorkflowNode) : ValidationError :=
  {| code := ORPHANED_NODE;
     message := "Node " +:+ DQ +:+ node_name node +:+ DQ +:+ " (" +:+
                node_id node +:+ ") is orphaned with no connections";
     err_nodeId := Some (node_id node);
     dependencyIds := None;
     err_trackId := None;
     err_metadata := None |}.

Definition checkOrphanedNodes (workflow : Workflow) : list ValidationError :=
  let startNodeIds :=
    List.map node_id
      (List.filter
         (fun node => String.eqb (NodeType_str (node_type node)) "start")
                   (nodes workflow)) in
  let endNodeIds :=
    List.map node_id
      (List.filter
         (fun node => String.eqb (NodeType_str (node_type node)) "end")
                   (nodes workflow)) in
  let nonTerminalNodes :=
    List.filter (fun node => negb (includes startNodeIds (node_id node))
                             && negb (includes endNodeIds (node_id node)))
                (nodes workflow) in
  flat_map
    (fun node =>
       let hasIncoming :=
         existsb (fun dep => String.eqb (targetId dep) (node_id node))
                 (dependencies workflow) in
       let hasOutgoing :=
         existsb (fun dep => String.eqb (sourceId dep) (node_id node))
                 (dependencies workflow) in
       if negb hasIncoming && negb hasOutgoing then [orphan_error node]
       else [])
    nonTerminalNodes.

End Validation.

(* ------------------------------------------------------------------ *)
(** ** dsl/grammar.ts *)
(* ------------------------------------------------------------------ *)

Module Grammar.
Import Js.

(** The members of the enumeration, and [INHERITED]: the value a token's
    [type] holds when the lexer read it from a property that [KEYWORDS]
    inherits from [Object.prototype].  That value is a function, so it
    is equal to no member of the enumeration. *)
Inductive TokenType :=
| WORKFLOW | TRACK | TASK | DECISION | SYNC | START | END | DEPENDENCIES
| RESOURCES | PARAMETERS | CONDITION | THEN | WHEN | DEFAULT
| DESCRIPTION | VERSION | TYPE | WAIT_FOR_ALL | TIMEOUT
| STRING | NUMBER | BOOLEAN
| LEFT_BRACE | RIGHT_BRACE | LEFT_PAREN | RIGHT_PAREN
| LEFT_BRACKET | RIGHT_BRACKET | ARROW | COLON | COMMA
| IDENTIFIER | COMMENT | WHITESPACE | EOF
| INHERITED (member : string).

#[global] Instance TokenType_eq_dec : EqDecision TokenType.
Proof. solve_decision. Defined.

Record Token := {
  type : TokenType;
  value : string;
  line : Z;
  column : Z
}.

Definition KEYWORDS : object TokenType :=
  [ ("workflow", WORKFLOW); ("track", TRACK); ("task", TASK);
    ("decision", DECISION); ("sync", SYNC); ("start", START);
    ("end", END); ("dependencies", DEPENDENCIES);
    ("resources", RESOURCES); ("parameters", PARAMETERS);
    ("condition", CONDITION); ("then", THEN); ("when", WHEN);
    ("default", DEFAULT); ("description", DESCRIPTION);
    ("version", VERSION); ("type", TYPE);
    ("wait_for_all", WAIT_FOR_ALL); ("timeout", TIMEOUT);
    ("true", BOOLEAN); ("false", BOOLEAN) ].

End Grammar.

(* ------------------------------------------------------------------ *)
(** ** dsl/dsl-parser.ts: the lexer *)
(* ------------------------------------------------------------------ *)

Module Lexer.
Import Js Grammar.

Inductive Result (A : Type) : Type :=
| Ok (a : A)
| Throw (msg : string)
| OutOfFuel.
Arguments Ok {A} a.
Arguments Throw {A} msg.
Arguments OutOfFuel {A}.

(** [this.tokens], [this.line], [this.column]. *)
Record LexState := {
  lx_tokens : list Token;
  lx_line : Z;
  lx_column : Z
}.

Definition push (ty : TokenType) (v : string) (col : Z) (st : LexState)
  : list Token :=
  lx_tokens st ++ [ {| type := ty; value := v; line := lx_line st;
                       column := col |} ].

Definition len (s : string) : Z := Z.of_nat (String.length s).

(** The inner [while] loops.  Each takes as its first argument the
    number of characters left from [current], which bounds its
    iterations: when it reaches zero the loop condition
    [current < source.length] is false. *)

Fixpoint line_comment_end (left : nat) (source : string) (current : nat)
  : nat :=
  match left with
  | O => current
  | S left' =>
      if (current <? String.length source)%nat
         && negb (String.eqb (charAt source current) NL)
      then line_comment_end left' source (S current)
      else current
  end.

Fixpoint block_comment_end (left : nat) (source : string) (current : nat)
    (ln col : Z) : nat * Z * Z :=
  match left with
  | O => (current, ln, col)
  | S left' =>
      if (current <? String.length source)%nat
         && negb (String.eqb (charAt source current) "*"
                  && String.eqb (charAt source (current + 1)) "/")
      then
        if String.eqb (charAt source current) NL
        then block_comment_end left' source (S current) (ln + 1) 1
        else block_comment_end left' source (S current) ln (col + 1)
      else (current, ln, col)
  end.

Fixpoint string_end (left : nat) (source : string) (current : nat)
    (ln col : Z) : nat * Z * Z :=
  match left with
  | O => (current, ln, col)
  | S left' =>
      if (current <? String.length source)%nat
         && negb (String.eqb (charAt source current) DQ)
      then
        if String.eqb (charAt source current) (String BSL EmptyString)
           && (current + 1 <? String.length source)%nat
        then string_end (left' - 1) source (current + 2) ln (col + 2)
        else if String.eqb (charAt source current) NL
        then string_end left' source (S current) (ln + 1) 1
        else string_end left' source (S current) ln (col + 1)
      else (current, ln, col)
  end.

Fixpoint scan_while (p : ascii -> bool) (left : nat) (source : string)
    (current : nat) : nat :=
  match left with
  | O => current
  | S left' =>
      if (current <? String.length source)%nat
         && test1 p (charAt source current)
      then scan_while p left' source (S current)
      else current
  end.

Definition symbol (char : string) : option TokenType :=
  if String.eqb char "{" then Some LEFT_BRACE
  else if String.eqb char "}" then Some RIGHT_BRACE
  else if String.eqb char "(" then Some LEFT_PAREN
  else if String.eqb char ")" then Some RIGHT_PAREN
  else if String.eqb char "[" then Some LEFT_BRACKET
  else if String.eqb char "]" then Some RIGHT_BRACKET
  else if String.eqb char ":" then Some COLON
  else if String.eqb char "," then Some COMMA
  else None.

Definition unexpected (char : string) (st : LexState) : string :=
  "Unexpected character: " +:+ char +:+ " at line " +:+ string_of_Z (lx_line st)
  +:+ ", column " +:+ string_of_Z (lx_column st).

(** The outer [while (current < source.length)] loop and the EOF token
    after it.  Every iteration moves [current] forward, so
    [S (length source)] iterations are enough. *)
Fixpoint tokenize_loop (fuel : nat) (source : string) (current : nat)
    (st : LexState) : Result (list Token) :=
  match fuel with
  | O => OutOfFuel
  | S fuel' =>
      let left := (String.length source - current)%nat in
      if negb (current <? String.length source)%nat then
        Ok (push EOF EmptyString (lx_column st) st)
      else
        let char := charAt source current in
        if test1 is_space char then
          if String.eqb char NL then
            tokenize_loop fuel' source (S current)
              {| lx_tokens := lx_tokens st; lx_line := lx_line st + 1;
                 lx_column := 1 |}
          else
            tokenize_loop fuel' source (S current)
              {| lx_tokens := lx_tokens st; lx_line := lx_line st;
                 lx_column := lx_column st + 1 |}
        else if String.eqb char "/"
                && String.eqb (charAt source (current + 1)) "/" then
          let start := current in
          let current := line_comment_end left source (current + 2) in
          let comment :=
            substring source (Z.of_nat start) (Z.of_nat current) in
          tokenize_loop fuel' source current
            {| lx_tokens := push COMMENT comment (lx_column st) st;
               lx_line := lx_line st;
               lx_column := lx_column st + len comment |}
        else if String.eqb char "/"
                && String.eqb (charAt source (current + 1)) "*" then
          let start := current in
          let '(current, ln, col) :=
            block_comment_end left source (current + 2)
                              (lx_line st) (lx_column st) in
          let current :=
            if (current <? String.length source)%nat
            then (current + 2)%nat else current in
          let comment :=
            substring source (Z.of_nat start) (Z.of_nat current) in
          let st' := {| lx_tokens := lx_tokens st; lx_line := ln;
                        lx_column := col |} in
          tokenize_loop fuel' source current
            {| lx_tokens := push COMMENT comment col st';
               lx_line := ln;
               lx_column := col + len comment |}
        else
          match symbol char with
          | Some ty =>
              tokenize_loop fuel' source (S current)
                {| lx_tokens := push ty char (lx_column st) st;
                   lx_line := lx_line st;
                   lx_column := lx_column st + 1 |}
          | None =>
              if String.eqb char "-"
                 && String.eqb (charAt source (current + 1)) ">" then
                tokenize_loop fuel' source (current + 2)
                  {| lx_tokens := push ARROW "->" (lx_column st) st;
                     lx_line := lx_line st;
                     lx_column := lx_column st + 2 |}
              else if String.eqb char DQ then
                let start := current in
                let '(current, ln, col) :=
                  string_end left source (S current)
                             (lx_line st) (lx_column st) in
                let current :=
                  if (current <? String.length source)%nat
                  then S current else current in
                let value :=
                  substring source (Z.of_nat start + 1)
                            (Z.of_nat current - 1) in
                let st' := {| lx_tokens := lx_tokens st; lx_line := ln;
                              lx_column := col |} in
                tokenize_loop fuel' source current
                  {| lx_tokens := push STRING value (col - len value - 2) st';
                     lx_line := ln;
                     lx_column := col + 1 |}
              else if test1 is_digit char then
                let start := current in
                let current :=
                  scan_while is_number_char left source current in
                let value :=
                  substring source (Z.of_nat start) (Z.of_nat current) in
                tokenize_loop fuel' source current
                  {| lx_tokens := push NUMBER value (lx_column st) st;
                     lx_line := lx_line st;
                     lx_column := lx_column st + len value |}
              else if test1 is_ident_start char then
                let start := current in
                let current :=
                  scan_while is_ident_char left source current in
                let value :=
                  substring source (Z.of_nat start) (Z.of_nat current) in
                let type :=
                  match obj_get value KEYWORDS with
                  | Some keyword => keyword
                  | None =>
                      if inherited value then INHERITED value
                      else IDENTIFIER
                  end in
                tokenize_loop fuel' source current
                  {| lx_tokens := push type value (lx_column st) st;
                     lx_line := lx_line st;
                     lx_column := lx_column st + len value |}
              else Throw (unexpected char st)
          end
  end.

Definition tokenize (source : string) : Result (list Token) :=
  tokenize_loop (S (String.length source)) source 0
    {| lx_tokens := []; lx_line := 1; lx_column := 1 |}.

End Lexer.

(* ------------------------------------------------------------------ *)
(** ** dsl/dsl-parser.ts: the parser *)
(* ------------------------------------------------------------------ *)

Module DslParser.
Import Js Types Lexer.
Import Grammar(Token, TokenType, type, value, line, column).

(** [Date.now()] and [Math.floor(Math.random() * 10000)], by the number
    of earlier calls. *)
Record Env := {
  Date_now : nat -> Z;
  Math_random : nat -> Z
}.

(** [this.tokens], [this.current], and how often the clock and the
    random generator were read. *)
Record PState := {
  tokens : list Token;
  current : nat;
  now_calls : nat;
  random_calls : nat
}.

Definition P (A : Type) : Type := PState -> Result (A * PState).

Definition ret {A} (a : A) : P A := fun st => Ok (a, st).

Definition bind {A B} (m : P A) (k : A -> P B) : P B :=
  fun st =>
    match m st with
    | Ok (a, st') => k a st'
    | Throw msg => Throw msg
    | OutOfFuel => OutOfFuel
    end.

Definition throw {A} (msg : string) : P A := fun _ => Throw msg.

Definition out_of_fuel {A} : P A := fun _ => OutOfFuel.

Notation "x <- m ;; k" := (bind m (fun x => k))
  (at level 100, m at next level, right associativity).
Notation "m ;;; k" := (bind m (fun _ => k))
  (at level 100, right associativity).

(** Reading a property of [undefined]. *)
Definition TypeError : string :=
  "TypeError: Cannot read properties of undefined".

Definition deref (t : option Token) : P Token :=
  match t with
  | Some t => ret t
  | None => throw TypeError
  end.

Definition peek : P (option Token) :=
  fun st => Ok (tokens st !! current st, st).

Definition previous : P (option Token) :=
  fun st =>
    Ok (match current st with
        | O => None
        | S i => tokens st !! i
        end, st).

Definition isAtEnd : P bool :=
  t <- peek ;; t <- deref t ;;
  ret (bool_decide (type t = Grammar.EOF)).

Definition advance : P (option Token) :=
  e <- isAtEnd ;;
  (if e then ret tt
   else fun st => Ok (tt, {| tokens := tokens st; current := S (current st);
                             now_calls := now_calls st;
                             random_calls := random_calls st |})) ;;;
  previous.

Definition check (ty : TokenType) : P bool :=
  e <- isAtEnd ;;
  if e then ret false
  else t <- peek ;; t <- deref t ;; ret (bool_decide (type t = ty)).

Definition match_ (ty : TokenType) : P bool :=
  c <- check ty ;;
  if c then advance ;;; ret true else ret false.

Definition error (token : option Token) (message : string) : P string :=
  t <- deref token ;;
  ret (message +:+ " at line " +:+ string_of_Z (line t) +:+ ", column "
       +:+ string_of_Z (column t)).

Definition fail_at_peek {A} (message : string) : P A :=
  t <- peek ;; e <- error t message ;; throw e.

Definition consume (ty : TokenType) (message : string) : P (option Token) :=
  c <- check ty ;;
  if c then advance else fail_at_peek message.

Definition parseString : P string :=
  token <- consume Grammar.STRING "Expected string" ;;
  t <- deref token ;; ret (value t).

Definition parseNumber : P number :=
  token <- consume Grammar.NUMBER "Expected number" ;;
  t <- deref token ;; ret (parseFloat (value t)).

Definition parseBoolean : P bool :=
  token <- consume Grammar.BOOLEAN "Expected boolean" ;;
  t <- deref token ;; ret (String.eqb (value t) "true").

Definition parseIdentifier : P string :=
  token <- consume Grammar.IDENTIFIER "Expected identifier" ;;
  t <- deref token ;; ret (value t).

(** The [switch] shared by [parseCondition] and [parseOperator]. *)
Definition operator_of (operatorStr : string) : option ConditionOperator :=
  if String.eqb operatorStr "==" || String.eqb operatorStr "="
     || String.eqb operatorStr "equals" then Some EQUALS
  else if String.eqb operatorStr "!="
          || String.eqb operatorStr "not_equals" then Some NOT_EQUALS
  else if String.eqb operatorStr ">"
          || String.eqb operatorStr "greater_than" then Some GREATER_THAN
  else if String.eqb operatorStr "<"
          || String.eqb operatorStr "less_than" then Some LESS_THAN
  else if String.eqb operatorStr ">="
          || String.eqb operatorStr "greater_than_or_equals"
       then Some GREATER_THAN_OR_EQUALS
  else if String.eqb operatorStr "<="
          || String.eqb operatorStr "less_than_or_equals"
       then Some LESS_THAN_OR_EQUALS
  else if String.eqb operatorStr "contains" then Some CONTAINS
  else if String.eqb operatorStr "not_contains" then Some NOT_CONTAINS
  else if String.eqb operatorStr "starts_with" then Some STARTS_WITH
  else if String.eqb operatorStr "ends_with" then Some ENDS_WITH
  else if String.eqb operatorStr "regex" then Some REGEX
  else None.

Definition parseOperator : P ConditionOperator :=
  token <- advance ;;
  t <- deref token ;;
  match operator_of (value t) with
  | Some op => ret op
  | None => e <- error token "Expected operator" ;; throw e
  end.

(** The typing of the right operand in [parseCondition]. *)
Definition sniff (rightOperandStr : string) : Js.value :=
  if String.eqb rightOperandStr "true" then VBool true
  else if String.eqb rightOperandStr "false" then VBool false
  else if is_decimal rightOperandStr
  then VNum (parseFloat rightOperandStr)
  else VStr rightOperandStr.

Definition parseCondition : P Condition :=
  conditionStr <- parseString ;;
  consume Grammar.THEN "Expected then keyword after condition" ;;;
  targetName <- parseString ;;
  let parts := split_ws conditionStr in
  match parts with
  | [leftOperand; operatorStr; rightOperandStr] =>
      match operator_of operatorStr with
      | Some operator =>
          ret {| leftOperand := leftOperand;
                 operator := operator;
                 rightOperand := sniff rightOperandStr;
                 cond_metadata := Some [("targetName", VStr targetName)] |}
      | None => throw ("Unknown operator: " +:+ operatorStr)
      end
  | _ => throw ("Invalid condition format: " +:+ conditionStr)
  end.

Definition skip_comment_or {A} (message : string) (k : P A) : P A :=
  c <- check Grammar.COMMENT ;;
  if c then advance ;;; k else fail_at_peek message.

Definition in_block : P bool :=
  c <- check Grammar.RIGHT_BRACE ;;
  e <- isAtEnd ;;
  ret (negb c && negb e).

Definition resource_of (resourceTypeStr : string) (amount : number)
  : ResourceRequirement :=
  let resourceType :=
    if String.eqb resourceTypeStr "cpu" then CPU
    else if String.eqb resourceTypeStr "memory" then MEMORY
    else if String.eqb resourceTypeStr "gpu" then GPU
    else CUSTOM in
  {| resourceType := resourceType;
     amount := amount;
     resourceId := match resourceType with
                   | CUSTOM => Some resourceTypeStr
                   | _ => None
                   end;
     res_metadata := None |}.

Fixpoint parseResources_loop (fuel : nat)
    (resources : list ResourceRequirement) : P (list ResourceRequirement) :=
  match fuel with
  | O => out_of_fuel
  | S fuel' =>
      go <- in_block ;;
      if go then
        c <- check Grammar.IDENTIFIER ;;
        if c then
          resourceTypeStr <- parseIdentifier ;;
          consume Grammar.COLON "Expected : after resource type" ;;;
          amount <- parseNumber ;;
          parseResources_loop fuel'
            (resources ++ [resource_of resourceTypeStr amount])
        else
          skip_comment_or "Expected resource definition"
            (parseResources_loop fuel' resources)
      else ret resources
  end.

Definition parseResources (fuel : nat) : P (list ResourceRequirement) :=
  consume Grammar.LEFT_BRACE "Expected { after resources keyword" ;;;
  resources <- parseResources_loop fuel [] ;;
  consume Grammar.RIGHT_BRACE "Expected } after resources section" ;;;
  ret resources.

(** [parseObject] and [parseArray] over the parser of a value. *)
Fixpoint parseObject_loop (parseValue : P Js.value) (fuel : nat)
    (obj : object Js.value) : P (object Js.value) :=
  match fuel with
  | O => out_of_fuel
  | S fuel' =>
      go <- in_block ;;
      if go then
        c <- check Grammar.IDENTIFIER ;;
        if c then
          key <- parseIdentifier ;;
          consume Grammar.COLON "Expected : after parameter name" ;;;
          value <- parseValue ;;
          parseObject_loop parseValue fuel' (obj_assign key value obj)
        else
          skip_comment_or "Expected parameter definition"
            (parseObject_loop parseValue fuel' obj)
      else ret obj
  end.

Definition parseObject_with (parseValue : P Js.value) (fuel : nat)
  : P (object Js.value) :=
  consume Grammar.LEFT_BRACE "Expected { after parameters keyword" ;;;
  obj <- parseObject_loop parseValue fuel [] ;;
  consume Grammar.RIGHT_BRACE "Expected } after parameters section" ;;;
  ret obj.

Fixpoint parseArray_loop (parseValue : P Js.value) (fuel : nat)
    (array : list Js.value) : P (list Js.value) :=
  match fuel with
  | O => out_of_fuel
  | S fuel' =>
      c <- check Grammar.RIGHT_BRACKET ;;
      e <- isAtEnd ;;
      if negb c && negb e then
        v <- parseValue ;;
        comma <- check Grammar.COMMA ;;
        if comma then
          advance ;;; parseArray_loop parseValue fuel' (array ++ [v])
        else ret (array ++ [v])
      else ret array
  end.

Definition parseArray_with (parseValue : P Js.value) (fuel : nat)
  : P (list Js.value) :=
  consume Grammar.LEFT_BRACKET "Expected [ for array" ;;;
  array <- parseArray_loop parseValue fuel [] ;;
  consume Grammar.RIGHT_BRACKET "Expected ] after array" ;;;
  ret array.

Fixpoint parseValue (fuel : nat) : P Js.value :=
  match fuel with
  | O => out_of_fuel
  | S fuel' =>
      c <- check Grammar.STRING ;;
      if c then s <- parseString ;; ret (VStr s) else
      c <- check Grammar.NUMBER ;;
      if c then n <- parseNumber ;; ret (VNum n) else
      c <- check Grammar.BOOLEAN ;;
      if c then b <- parseBoolean ;; ret (VBool b) else
      c <- check Grammar.LEFT_BRACKET ;;
      if c then
        a <- parseArray_with (parseValue fuel') fuel' ;; ret (VArr a)
      else
      c <- check Grammar.LEFT_BRACE ;;
      if c then
        o <- parseObject_with (parseValue fuel') fuel' ;; ret (VObj o)
      else fail_at_peek "Expected value"
  end.

Definition parseObject (fuel : nat) : P (object Js.value) :=
  parseObject_with (parseValue fuel) fuel.

Fixpoint parseDependencies_loop (fuel : nat)
    (dependencies : list Dependency) : P (list Dependency) :=
  match fuel with
  | O => out_of_fuel
  | S fuel' =>
      go <- in_block ;;
      if go then
        c <- check Grammar.STRING ;;
        if c then
          sourceName <- parseString ;;
          consume Grammar.ARROW "Expected -> in dependency definition" ;;;
          targetName <- parseString ;;
          w <- match_ Grammar.WHEN ;;
          if w then
            leftOperand <- parseIdentifier ;;
            operator <- parseOperator ;;
            rightOperand <- parseValue fuel' ;;
            parseDependencies_loop fuel'
              (dependencies ++
               [ {| sourceId := sourceName; targetId := targetName;
                    dep_type := CONDITIONAL;
                    condition :=
                      Some {| leftOperand := leftOperand;
                              operator := operator;
                              rightOperand := rightOperand;
                              cond_metadata := None |};
                    isDefault := None; dep_metadata := None |} ])
          else
            d <- match_ Grammar.DEFAULT ;;
            if d then
              parseDependencies_loop fuel'
                (dependencies ++
                 [ {| sourceId := sourceName; targetId := targetName;
                      dep_type := CONDITIONAL; condition := None;
                      isDefault := Some true; dep_metadata := None |} ])
            else
              parseDependencies_loop fuel'
                (dependencies ++
                 [ {| sourceId := sourceName; targetId := targetName;
                      dep_type := SEQUENTIAL; condition := None;
                      isDefault := None; dep_metadata := None |} ])
        else
          skip_comment_or "Expected dependency definition"
            (parseDependencies_loop fuel' dependencies)
      else ret dependencies
  end.

Definition parseDependencies (fuel : nat) : P (list Dependency) :=
  consume Grammar.LEFT_BRACE "Expected { after dependencies keyword" ;;;
  dependencies <- parseDependencies_loop fuel [] ;;
  consume Grammar.RIGHT_BRACE "Expected } after dependencies section" ;;;
  ret dependencies.

Section WithEnv.
Variable env : Env.

Definition read_now : P Z :=
  fun st => Ok (Date_now env (now_calls st),
                {| tokens := tokens st; current := current st;
                   now_calls := S (now_calls st);
                   random_calls := random_calls st |}).

Definition read_random : P Z :=
  fun st => Ok (Math_random env (random_calls st),
                {| tokens := tokens st; current := current st;
                   now_calls := now_calls st;
                   random_calls := S (random_calls st) |}).

(** [`${prefix}-${Date.now()}-${Math.floor(Math.random() * 10000)}`] *)
Definition fresh_id (prefix : string) : P string :=
  now <- read_now ;;
  rnd <- read_random ;;
  ret (prefix +:+ "-" +:+ string_of_Z now +:+ "-" +:+ string_of_Z rnd).

Fixpoint parseTrack_loop (fuel : nat) (track : Track) : P Track :=
  match fuel with
  | O => out_of_fuel
  | S fuel' =>
      go <- in_block ;;
      if go then
        m <- match_ Grammar.DESCRIPTION ;;
        if m then
          d <- parseString ;;
          parseTrack_loop fuel'
            {| track_id := track_id track; track_name := track_name track;
               track_description := Some d; nodeIds := nodeIds track;
               track_metadata := track_metadata track |}
        else
          skip_comment_or "Expected track property"
            (parseTrack_loop fuel' track)
      else ret track
  end.

Definition parseTrack (fuel : nat) : P Track :=
  name <- parseString ;;
  consume Grammar.LEFT_BRACE "Expected { after track name" ;;;
  id <- fresh_id "track" ;;
  track <- parseTrack_loop fuel
             {| track_id := id; track_name := name;
                track_description := None; nodeIds := [];
                track_metadata := None |} ;;
  consume Grammar.RIGHT_BRACE "Expected } after track definition" ;;;
  ret track.

Definition set_description (x : option string) (node : WorkflowNode)
  : WorkflowNode :=
  {| node_id := node_id node; node_type := node_type node;
     node_name := node_name node; node_description := x;
     trackId := trackId node; position := position node;
     size := size node;
     resourceRequirements := resourceRequirements node;
     node_metadata := node_metadata node; taskType := taskType node;
     parameters := parameters node; timeout := timeout node;
     retries := retries node; conditions := conditions node;
     defaultTargetId := defaultTargetId node; config := config node;
     trackName := trackName node;
     defaultTargetName := defaultTargetName node |}.

Definition set_trackName (x : option string) (node : WorkflowNode)
  : WorkflowNode :=
  {| node_id := node_id node; node_type := node_type node;
     node_name := node_name node;
     node_description := node_description node; trackId := trackId node;
     position := position node; size := size node;
     resourceRequirements := resourceRequirements node;
     node_metadata := node_metadata node; taskType := taskType node;
     parameters := parameters node; timeout := timeout node;
     retries := retries node; conditions := conditions node;
     defaultTargetId := defaultTargetId node; config := config node;
     trackName := x; defaultTargetName := defaultTargetName node |}.

Definition set_taskType (x : option string) (node : WorkflowNode)
  : WorkflowNode :=
  {| node_id := node_id node; node_type := node_type node;
     node_name := node_name node;
     node_description := node_description node; trackId := trackId node;
     position := position node; size := size node;
     resourceRequirements := resourceRequirements node;
     node_metadata := node_metadata node; taskType := x;
     parameters := parameters node; timeout := timeout node;
     retries := retries node; conditions := conditions node;
     defaultTargetId := defaultTargetId node; config := config node;
     trackName := trackName node;
     defaultTargetName := defaultTargetName node |}.

Definition set_parameters (x : option (object Js.value)) (node : WorkflowNode)
  : WorkflowNode :=
  {| node_id := node_id node; node_type := node_type node;
     node_name := node_name node;
     node_description := node_description node; trackId := trackId node;
     position := position node; size := size node;
     resourceRequirements := resourceRequirements node;
     node_metadata := node_metadata node; taskType := taskType node;
     parameters := x; timeout := timeout node; retries := retries node;
     conditions := conditions node;
     defaultTargetId := defaultTargetId node; config := config node;
     trackName := trackName node;
     defaultTargetName := defaultTargetName node |}.

Definition set_resourceRequirements
    (x : option (list ResourceRequirement)) (node : WorkflowNode)
  : WorkflowNode :=
  {| node_id := node_id node; node_type := node_type node;
     node_name := node_name node;
     node_description := node_description node; trackId := trackId node;
     position := position node; size := size node;
     resourceRequirements := x; node_metadata := node_metadata node;
     taskType := taskType node; parameters := parameters node;
     timeout := timeout node; retries := retries node;
     conditions := conditions node;
     defaultTargetId := defaultTargetId node; config := config node;
     trackName := trackName node;
     defaultTargetName := defaultTargetName node |}.

Definition set_conditions (x : option (list Condition)) (node : WorkflowNode)
  : WorkflowNode :=
  {| node_id := node_id node; node_type := node_type node;
     node_name := node_name node;
     node_description := node_description node; trackId := trackId node;
     position := position node; size := size node;
     resourceRequirements := resourceRequirements node;
     node_metadata := node_metadata node; taskType := taskType node;
     parameters := parameters node; timeout := timeout node;
     retries := retries node; conditions := x;
     defaultTargetId := defaultTargetId node; config := config node;
     trackName := trackName node;
     defaultTargetName := defaultTargetName node |}.

Definition set_defaultTargetName (x : option string) (node : WorkflowNode)
  : WorkflowNode :=
  {| node_id := node_id node; node_type := node_type node;
     node_name := node_name node;
     node_description := node_description node; trackId := trackId node;
     position := position node; size := size node;
     resourceRequirements := resourceRequirements node;
     node_metadata := node_metadata node; taskType := taskType node;
     parameters := parameters node; timeout := timeout node;
     retries := retries node; conditions := conditions node;
     defaultTargetId := defaultTargetId node; config := config node;
     trackName := trackName node; defaultTargetName := x |}.

Definition set_config (x : option SyncPointConfig) (node : WorkflowNode)
  : WorkflowNode :=
  {| node_id := node_id node; node_type := node_type node;
     node_name := node_name node;
     node_description := node_description node; trackId := trackId node;
     position := position node; size := size node;
     resourceRequirements := resourceRequirements node;
     node_metadata := node_metadata node; taskType := taskType node;
     parameters := parameters node; timeout := timeout node;
     retries := retries node; conditions := conditions node;
     defaultTargetId := defaultTargetId node; config := x;
     trackName := trackName node;
     defaultTargetName := defaultTargetName node |}.

Definition set_timeout (x : option number) (node : WorkflowNode)
  : WorkflowNode :=
  {| node_id := node_id node; node_type := node_type node;
     node_name := node_name node;
     node_description := node_description node; trackId := trackId node;
     position := position node; size := size node;
     resourceRequirements := resourceRequirements node;
     node_metadata := node_metadata node; taskType := taskType node;
     parameters := parameters node; timeout := x;
     retries := retries node; conditions := conditions node;
     defaultTargetId := defaultTargetId node; config := config node;
     trackName := trackName node;
     defaultTargetName := defaultTargetName node |}.

Definition empty_config : SyncPointConfig :=
  {| requiredSources := []; waitForAll := None; sync_timeout := None;
     sync_metadata := None |}.

Definition config_or_new (node : WorkflowNode) : SyncPointConfig :=
  match config node with
  | Some c => c
  | None => empty_config
  end.

Fixpoint parseNode_loop (fuel : nat) (type : NodeType)
    (node : WorkflowNode) : P WorkflowNode :=
  match fuel with
  | O => out_of_fuel
  | S fuel' =>
      let ty := NodeType_str type in
      go <- in_block ;;
      if negb go then ret node else
      m <- match_ Grammar.DESCRIPTION ;;
      if m then
        d <- parseString ;;
        parseNode_loop fuel' type (set_description (Some d) node)
      else
      m <- match_ Grammar.TRACK ;;
      if m then
        t <- parseString ;;
        parseNode_loop fuel' type (set_trackName (Some t) node)
      else
      m <- match_ Grammar.TYPE ;;
      if m then
        match type with
        | TASK =>
            t <- parseString ;;
            parseNode_loop fuel' type (set_taskType (Some t) node)
        | _ =>
            fail_at_peek ("Type property not valid for " +:+ ty +:+ " nodes")
        end
      else
      m <- match_ Grammar.PARAMETERS ;;
      if m then
        o <- parseObject fuel' ;;
        parseNode_loop fuel' type (set_parameters (Some o) node)
      else
      m <- match_ Grammar.RESOURCES ;;
      if m then
        r <- parseResources fuel' ;;
        parseNode_loop fuel' type (set_resourceRequirements (Some r) node)
      else
      m <- match_ Grammar.CONDITION ;;
      if m then
        match type with
        | DECISION =>
            let conditions := default [] (conditions node) in
            condition <- parseCondition ;;
            parseNode_loop fuel' type
              (set_conditions (Some (conditions ++ [condition])) node)
        | _ =>
            fail_at_peek
              ("Condition property not valid for " +:+ ty +:+ " nodes")
        end
      else
      m <- match_ Grammar.DEFAULT ;;
      if m then
        match type with
        | DECISION =>
            t <- parseString ;;
            parseNode_loop fuel' type (set_defaultTargetName (Some t) node)
        | _ =>
            fail_at_peek
              ("Default property not valid for " +:+ ty +:+ " nodes")
        end
      else
      m <- match_ Grammar.WAIT_FOR_ALL ;;
      if m then
        match type with
        | SYNC_POINT =>
            let c := config_or_new node in
            b <- parseBoolean ;;
            parseNode_loop fuel' type
              (set_config
                 (Some {| requiredSources := requiredSources c;
                          waitForAll := Some b;
                          sync_timeout := sync_timeout c;
                          sync_metadata := sync_metadata c |}) node)
        | _ =>
            fail_at_peek
              ("wait_for_all property not valid for " +:+ ty +:+ " nodes")
        end
      else
      m <- match_ Grammar.TIMEOUT ;;
      if m then
        match type with
        | SYNC_POINT =>
            let c := config_or_new node in
            n <- parseNumber ;;
            parseNode_loop fuel' type
              (set_config
                 (Some {| requiredSources := requiredSources c;
                          waitForAll := waitForAll c;
                          sync_timeout := Some n;
                          sync_metadata := sync_metadata c |}) node)
        | TASK =>
            n <- parseNumber ;;
            parseNode_loop fuel' type (set_timeout (Some n) node)
        | _ =>
            fail_at_peek
              ("timeout property not valid for " +:+ ty +:+ " nodes")
        end
      else
        skip_comment_or ("Expected " +:+ ty +:+ " node property")
          (parseNode_loop fuel' type node)
  end.

Definition parseNode (fuel : nat) (type : NodeType) : P WorkflowNode :=
  name <- parseString ;;
  consume Grammar.LEFT_BRACE
    ("Expected { after " +:+ NodeType_str type +:+ " node name") ;;;
  id <- fresh_id "node" ;;
  node <- parseNode_loop fuel type (bare_node id type name) ;;
  consume Grammar.RIGHT_BRACE
    ("Expected } after " +:+ NodeType_str type +:+ " node definition") ;;;
  ret node.

Definition add_node (node : WorkflowNode) (w : Workflow) : Workflow :=
  {| wf_id := wf_id w; wf_name := wf_name w;
     wf_description := wf_description w; wf_version := wf_version w;
     nodes := nodes w ++ [node]; dependencies := dependencies w;
     tracks := tracks w; wf_metadata := wf_metadata w |}.

Fixpoint parseWorkflow_loop (fuel : nat) (workflow : Workflow)
  : P Workflow :=
  match fuel with
  | O => out_of_fuel
  | S fuel' =>
      go <- in_block ;;
      if negb go then ret workflow else
      m <- match_ Grammar.DESCRIPTION ;;
      if m then
        d <- parseString ;;
        parseWorkflow_loop fuel'
          {| wf_id := wf_id workflow; wf_name := wf_name workflow;
             wf_description := Some d; wf_version := wf_version workflow;
             nodes := nodes workflow;
             dependencies := dependencies workflow;
             tracks := tracks workflow;
             wf_metadata := wf_metadata workflow |}
      else
      m <- match_ Grammar.VERSION ;;
      if m then
        v <- parseString ;;
        parseWorkflow_loop fuel'
          {| wf_id := wf_id workflow; wf_name := wf_name workflow;
             wf_description := wf_description workflow;
             wf_version := Some v;
             nodes := nodes workflow;
             dependencies := dependencies workflow;
             tracks := tracks workflow;
             wf_metadata := wf_metadata workflow |}
      else
      m <- match_ Grammar.TRACK ;;
      if m then
        track <- parseTrack fuel' ;;
        parseWorkflow_loop fuel'
          {| wf_id := wf_id workflow; wf_name := wf_name workflow;
             wf_description := wf_description workflow;
             wf_version := wf_version workflow;
             nodes := nodes workflow;
             dependencies := dependencies workflow;
             tracks := tracks workflow ++ [track];
             wf_metadata := wf_metadata workflow |}
      else
      m <- match_ Grammar.START ;;
      if m then
        node <- parseNode fuel' START ;;
        parseWorkflow_loop fuel' (add_node node workflow)
      else
      m <- match_ Grammar.END ;;
      if m then
        node <- parseNode fuel' END ;;
        parseWorkflow_loop fuel' (add_node node workflow)
      else
      m <- match_ Grammar.TASK ;;
      if m then
        node <- parseNode fuel' TASK ;;
        parseWorkflow_loop fuel' (add_node node workflow)
      else
      m <- match_ Grammar.DECISION ;;
      if m then
        node <- parseNode fuel' DECISION ;;
        parseWorkflow_loop fuel' (add_node node workflow)
      else
      m <- match_ Grammar.SYNC ;;
      if m then
        node <- parseNode fuel' SYNC_POINT ;;
        parseWorkflow_loop fuel' (add_node node workflow)
      else
      m <- match_ Grammar.DEPENDENCIES ;;
      if m then
        dependencies <- parseDependencies fuel' ;;
        parseWorkflow_loop fuel'
          {| wf_id := wf_id workflow; wf_name := wf_name workflow;
             wf_description := wf_description workflow;
             wf_version := wf_version workflow;
             nodes := nodes workflow;
             dependencies := dependencies;
             tracks := tracks workflow;
             wf_metadata := wf_metadata workflow |}
      else
        skip_comment_or "Expected workflow element"
          (parseWorkflow_loop fuel' workflow)
  end.

Definition parseWorkflow (fuel : nat) : P Workflow :=
  consume Grammar.WORKFLOW "Expected workflow keyword" ;;;
  name <- parseString ;;
  consume Grammar.LEFT_BRACE "Expected { after workflow name" ;;;
  now <- read_now ;;
  workflow <- parseWorkflow_loop fuel
                {| wf_id := "workflow-" +:+ string_of_Z now; wf_name := name;
                   wf_description := None; wf_version := None;
                   nodes := []; dependencies := []; tracks := [];
                   wf_metadata := None |} ;;
  consume Grammar.RIGHT_BRACE "Expected } after workflow definition" ;;;
  ret workflow.

(** Every loop iteration and every nested value takes at least one
    token, so twice the number of tokens bounds the nesting. *)
Definition parse_fuel (toks : list Token) : nat :=
  (2 * List.length toks + 8)%nat.

Definition parse (source : string) : Result Workflow :=
  match tokenize source with
  | Ok toks =>
      match parseWorkflow (parse_fuel toks)
              {| tokens := toks; current := 0; now_calls := 0;
                 random_calls := 0 |} with
      | Ok (workflow, _) => Ok workflow
      | Throw msg => Throw msg
      | OutOfFuel => OutOfFuel
      end
  | Throw msg => Throw msg
  | OutOfFuel => OutOfFuel
  end.

End WithEnv.

End DslParser.

(* ------------------------------------------------------------------ *)
(** ** dsl/dsl-generator.ts *)
(* ------------------------------------------------------------------ *)

Module DslGenerator.
Import Js Types.

Section WithNumbers.
(** [String(n)] on a number, a built-in of the language. *)
Variable numberToString : number -> string.

(** [String(v)], also what a template literal does to [v]. *)
Fixpoint toString (v : value) : string :=
  match v with
  | VNull => "null"
  | VBool true => "true"
  | VBool false => "false"
  | VNum n => numberToString n
  | VStr s => s
  | VArr l =>
      join "," (List.map (fun x => match x with
                                   | VNull => EmptyString
                                   | _ => toString x
                                   end) l)
  | VObj _ => "[object Object]"
  end.

(** The entries are printed in property order, which depends on the
    keys only, so the values are printed first. *)
Fixpoint stringifyValue (v : value) : string :=
  match v with
  | VStr s => DQ +:+ s +:+ DQ
  | VArr l => "[" +:+ join ", " (List.map stringifyValue l) +:+ "]"
  | VObj o =>
      let printed : object string :=
        List.map (fun kv => (fst kv, stringifyValue (snd kv))) o in
      "{" +:+ NL +:+
      fold_left (fun result kv =>
                   result +:+ "    " +:+ fst kv +:+ ": " +:+ snd kv +:+ NL)
                (entries printed) EmptyString
      +:+ "  }"
  | VNum n => numberToString n
  | VBool true => "true"
  | VBool false => "false"
  | VNull => "null"
  end.

Definition operator_text (op : ConditionOperator) : string :=
  match op with
  | EQUALS => "=="
  | NOT_EQUALS => "!="
  | GREATER_THAN => ">"
  | LESS_THAN => "<"
  | GREATER_THAN_OR_EQUALS => ">="
  | LESS_THAN_OR_EQUALS => "<="
  | CONTAINS => "contains"
  | NOT_CONTAINS => "not_contains"
  | STARTS_WITH => "starts_with"
  | ENDS_WITH => "ends_with"
  | REGEX => "regex"
  end.

Definition generateConditionExpression (condition : Condition) : string :=
  leftOperand condition +:+ " " +:+ operator_text (operator condition)
  +:+ " " +:+ stringifyValue (rightOperand condition).

Definition generateTrack (track : Track) (indent : nat) : string :=
  let spaces := repeat_str " " indent in
  let dsl := spaces +:+ "track " +:+ DQ +:+ track_name track +:+ DQ
             +:+ " {" +:+ NL in
  let dsl :=
    if truthy_str (track_description track) then
      dsl +:+ spaces +:+ "  description " +:+ DQ
      +:+ default EmptyString (track_description track) +:+ DQ +:+ NL
    else dsl in
  dsl +:+ spaces +:+ "}" +:+ NL.

Definition generateTaskProperties (node : WorkflowNode) (indent : nat)
  : string :=
  let spaces := repeat_str " " indent in
  let dsl := EmptyString in
  let dsl :=
    if truthy_str (taskType node) then
      dsl +:+ spaces +:+ "type " +:+ DQ
      +:+ default EmptyString (taskType node) +:+ DQ +:+ NL
    else dsl in
  let dsl :=
    match parameters node with
    | Some params =>
        fold_left
          (fun dsl kv =>
             dsl +:+ spaces +:+ "  " +:+ fst kv +:+ ": "
             +:+ stringifyValue (snd kv) +:+ NL)
          (entries params)
          (dsl +:+ spaces +:+ "parameters {" +:+ NL)
        +:+ spaces +:+ "}" +:+ NL
    | None => dsl
    end in
  let dsl :=
    match timeout node with
    | Some t => dsl +:+ spaces +:+ "timeout " +:+ numberToString t +:+ NL
    | None => dsl
    end in
  let dsl :=
    match retries node with
    | Some r => dsl +:+ spaces +:+ "retries " +:+ numberToString r +:+ NL
    | None => dsl
    end in
  dsl.

(** [condition.metadata?.targetName || ''] inside the template. *)
Definition condition_target (condition : Condition) : string :=
  match cond_metadata condition with
  | Some m =>
      match obj_get "targetName" m with
      | Some v => if truthy v then toString v else EmptyString
      | None => EmptyString
      end
  | None => EmptyString
  end.

Definition generateDecisionProperties (node : WorkflowNode) (indent : nat)
  : string :=
  let spaces := repeat_str " " indent in
  let dsl :=
    fold_left
      (fun dsl condition =>
         dsl +:+ spaces +:+ "condition " +:+ DQ
         +:+ generateConditionExpression condition +:+ DQ +:+ " then "
         +:+ DQ +:+ condition_target condition +:+ DQ +:+ NL)
      (default [] (conditions node)) EmptyString in
  if truthy_str (defaultTargetId node) then
    dsl +:+ spaces +:+ "default " +:+ DQ
    +:+ default EmptyString (defaultTargetId node) +:+ DQ +:+ NL
  else dsl.

Definition generateSyncPointProperties (node : WorkflowNode)
    (indent : nat) : string :=
  let spaces := repeat_str " " indent in
  match config node with
  | Some c =>
      let dsl :=
        match waitForAll c with
        | Some b =>
            spaces +:+ "wait_for_all "
            +:+ (if b then "true" else "false") +:+ NL
        | None => EmptyString
        end in
      match sync_timeout c with
      | Some t => dsl +:+ spaces +:+ "timeout " +:+ numberToString t +:+ NL
      | None => dsl
      end
  | None => EmptyString
  end.

Definition generateResourceRequirement (resource : ResourceRequirement)
    (indent : nat) : string :=
  let spaces := repeat_str " " indent in
  let resourceName :=
    match resourceType resource with
    | CPU => "cpu"
    | MEMORY => "memory"
    | GPU => "gpu"
    | CUSTOM =>
        if truthy_str (resourceId resource)
        then default EmptyString (resourceId resource) else "custom"
    end in
  spaces +:+ resourceName +:+ ": " +:+ numberToString (amount resource)
  +:+ NL.

Definition generateNode (node : WorkflowNode) (indent : nat) : string :=
  let spaces := repeat_str " " indent in
  let keyword :=
    match node_type node with
    | START => "start"
    | END => "end"
    | TASK => "task"
    | DECISION => "decision"
    | SYNC_POINT => "sync"
    end in
  let dsl := spaces +:+ keyword +:+ " " +:+ DQ +:+ node_name node +:+ DQ
             +:+ " {" +:+ NL in
  let dsl :=
    if truthy_str (node_description node) then
      dsl +:+ spaces +:+ "  description " +:+ DQ
      +:+ default EmptyString (node_description node) +:+ DQ +:+ NL
    else dsl in
  let dsl :=
    if truthy_str (trackId node) then
      dsl +:+ spaces +:+ "  track " +:+ DQ
      +:+ default EmptyString (trackId node) +:+ DQ +:+ NL
    else dsl in
  let dsl :=
    match node_type node with
    | TASK => dsl +:+ generateTaskProperties node (indent + 2)
    | DECISION => dsl +:+ generateDecisionProperties node (indent + 2)
    | SYNC_POINT => dsl +:+ generateSyncPointProperties node (indent + 2)
    | _ => dsl
    end in
  let dsl :=
    match resourceRequirements node with
    | Some (r :: rs) =>
        fold_left
          (fun dsl resource =>
             dsl +:+ generateResourceRequirement resource (indent + 4))
          (r :: rs)
          (dsl +:+ spaces +:+ "  resources {" +:+ NL)
        +:+ spaces +:+ "  }" +:+ NL
    | _ => dsl
    end in
  dsl +:+ spaces +:+ "}" +:+ NL.

(** [nodeMap.get(id) || id] *)
Definition name_or_id (nodeMap : gmap NodeId string) (i : NodeId) : string :=
  match nodeMap !! i with
  | Some n => if String.eqb n EmptyString then i else n
  | None => i
  end.

Definition generateDependencies (dependencies : list Dependency)
    (nodes : list WorkflowNode) (indent : nat) : string :=
  let spaces := repeat_str " " indent in
  let dsl := spaces +:+ "dependencies {" +:+ NL in
  let nodeMap : gmap NodeId string :=
    fold_left (fun m node => <[ node_id node := node_name node ]> m)
              nodes ∅ in
  let dsl :=
    fold_left
      (fun dsl dep =>
         let sourceName := name_or_id nodeMap (sourceId dep) in
         let targetName := name_or_id nodeMap (targetId dep) in
         let dsl := dsl +:+ spaces +:+ "  " +:+ DQ +:+ sourceName +:+ DQ
                    +:+ " -> " +:+ DQ +:+ targetName +:+ DQ in
         let dsl :=
           match dep_type dep, condition dep with
           | CONDITIONAL, Some c =>
               dsl +:+ " when " +:+ DQ
               +:+ generateConditionExpression c +:+ DQ
           | CONDITIONAL, None => dsl +:+ " default"
           | _, _ => dsl
           end in
         dsl +:+ NL)
      dependencies dsl in
  dsl +:+ spaces +:+ "}" +:+ NL.

Definition generate (workflow : Workflow) : string :=
  let dsl := "workflow " +:+ DQ +:+ wf_name workflow +:+ DQ +:+ " {"
             +:+ NL in
  let dsl :=
    if truthy_str (wf_description workflow) then
      dsl +:+ "  description " +:+ DQ
      +:+ default EmptyString (wf_description workflow) +:+ DQ +:+ NL
    else dsl in
  let dsl :=
    if truthy_str (wf_version workflow) then
      dsl +:+ "  version " +:+ DQ
      +:+ default EmptyString (wf_version workflow) +:+ DQ +:+ NL
    else dsl in
  let dsl := dsl +:+ NL in
  let dsl :=
    match tracks workflow with
    | [] => dsl
    | ts =>
        fold_left (fun dsl track => dsl +:+ generateTrack track 2 +:+ NL)
                  ts
                  (dsl +:+ "  // Define tracks for parallel execution"
                   +:+ NL)
    end in
  let dsl :=
    match nodes workflow with
    | [] => dsl
    | ns =>
        fold_left (fun dsl node => dsl +:+ generateNode node 2 +:+ NL)
                  ns (dsl +:+ "  // Define nodes" +:+ NL)
    end in
  let dsl :=
    match dependencies workflow with
    | [] => dsl
    | ds =>
        dsl +:+ "  // Define dependencies" +:+ NL
        +:+ generateDependencies ds (nodes workflow) 2
    end in
  dsl +:+ "}" +:+ NL.

End WithNumbers.

End DslGenerator.

(* ------------------------------------------------------------------ *)
(** ** serialization/json-serializer.ts *)
(* ------------------------------------------------------------------ *)

Module JsonSerializer.
Import Js Types.

(** The JSON text is modelled by what it denotes.  [JSON.stringify]
    writes the own properties of an object in property order, leaves out
    those that are [undefined], and writes the number [NaN] as [null];
    [JSON.parse] builds the object back by defining the members as own
    properties in the order of the text. *)




















End JsonSerializer.

(* ------------------------------------------------------------------ *)
(** ** core/models/track-model.ts *)
(* ------------------------------------------------------------------ *)

Module TrackModel.
Import Js Types.

Definition with_nodeIds (ids : list NodeId) (this : Track) : Track :=
  {| track_id := track_id this; track_name := track_name this;
     track_description := track_description this; nodeIds := ids;
     track_metadata := track_metadata this |}.

(** [this.nodeIds.includes(nodeId)] *)
Definition containsNode (nodeId : NodeId) (this : Track) : bool :=
  existsb (String.eqb nodeId) (nodeIds this).

Definition addNode (nodeId : NodeId) (this : Track) : Track :=
  if negb (containsNode nodeId this)
  then with_nodeIds (nodeIds this ++ [nodeId]) this
  else this.

Definition removeNode (nodeId : NodeId) (this : Track) : Track * bool :=
  let initialLength := List.length (nodeIds this) in
  let nodeIds' :=
    List.filter (fun id => negb (String.eqb id nodeId)) (nodeIds this) in
  (with_nodeIds nodeIds' this,
   negb (Nat.eqb (List.length nodeIds') initialLength)).

Definition clearNodes (this : Track) : Track := with_nodeIds [] this.

End TrackModel.

(* ------------------------------------------------------------------ *)
(** ** core/models/dependency-model.ts *)
(* ------------------------------------------------------------------ *)

Module DependencyModel.
Import Js Types Lexer.

(** [Partial<Dependency>] *)
Record PartialDependency := {
  p_sourceId : option NodeId;
  p_targetId : option NodeId;
  p_type : option DependencyType;
  p_condition : option Condition;
  p_metadata : option (object value)
}.

Definition constructor (dependency : PartialDependency) : Result Dependency :=
  if negb (truthy_str (p_sourceId dependency))
     || negb (truthy_str (p_targetId dependency))
  then Throw "Dependency must have source and target node IDs"
  else
    Ok {| sourceId := default EmptyString (p_sourceId dependency);
          targetId := default EmptyString (p_targetId dependency);
          dep_type := default SEQUENTIAL (p_type dependency);
          condition := p_condition dependency;
          isDefault := None;
          dep_metadata := p_metadata dependency |}.

Definition DependencyType_eqb (a b : DependencyType) : bool :=
  match a, b with
  | SEQUENTIAL, SEQUENTIAL | CONDITIONAL, CONDITIONAL | SYNC, SYNC => true
  | _, _ => false
  end.

Definition with_type_condition (t : DependencyType) (c : option Condition)
    (this : Dependency) : Dependency :=
  {| sourceId := sourceId this; targetId := targetId this; dep_type := t;
     condition := c; isDefault := isDefault this;
     dep_metadata := dep_metadata this |}.

Definition setType (type : DependencyType) (this : Dependency) : Dependency :=
  with_type_condition type (condition this) this.

Definition setCondition (condition' : Condition) (this : Dependency)
  : Dependency :=
  let this1 := with_type_condition (dep_type this) (Some condition') this in
  if negb (DependencyType_eqb (dep_type this1) CONDITIONAL)
  then with_type_condition CONDITIONAL (condition this1) this1
  else this1.

Definition removeCondition (this : Dependency) : Dependency :=
  let this1 := with_type_condition (dep_type this) None this in
  if DependencyType_eqb (dep_type this1) CONDITIONAL
  then with_type_condition SEQUENTIAL (condition this1) this1
  else this1.

Definition isConditional (this : Dependency) : bool :=
  DependencyType_eqb (dep_type this) CONDITIONAL
  && match condition this with
     | Some _ => true
     | None => false
     end.

Definition isSynchronization (this : Dependency) : bool :=
  DependencyType_eqb (dep_type this) SYNC.

End DependencyModel.

(* ------------------------------------------------------------------ *)
(** ** core/models/node-model.ts *)
(* ------------------------------------------------------------------ *)

Module NodeModel.
Import Js Types.

(** [xs.splice(start, 1)] for an integer [start]: the array that is left.
    A negative start counts from the end. *)
Definition splice1 {A} (start : Z) (xs : list A) : list A :=
  let len := Z.of_nat (List.length xs) in
  let from := if start <? 0 then Z.max (len + start) 0 else Z.min start len in
  take (Z.to_nat from) xs ++ drop (S (Z.to_nat from)) xs.

Definition with_resourceRequirements (rs : option (list ResourceRequirement))
    (this : WorkflowNode) : WorkflowNode :=
  {| node_id := node_id this; node_type := node_type this;
     node_name := node_name this;
     node_description := node_description this;
     trackId := trackId this; position := position this;
     size := size this; resourceRequirements := rs;
     node_metadata := node_metadata this; taskType := taskType this;
     parameters := parameters this; timeout := timeout this;
     retries := retries this; conditions := conditions this;
     defaultTargetId := defaultTargetId this; config := config this;
     trackName := trackName this;
     defaultTargetName := defaultTargetName this |}.

Definition addResourceRequirement (requirement : ResourceRequirement)
    (this : WorkflowNode) : WorkflowNode :=
  with_resourceRequirements
    (Some (default [] (resourceRequirements this) ++ [requirement])) this.

(** [index] is an integer. *)
Definition removeResourceRequirement (index : Z) (this : WorkflowNode)
  : WorkflowNode * bool :=
  match resourceRequirements this with
  | None => (this, false)
  | Some rs =>
      if Z.of_nat (List.length rs) <=? index then (this, false)
      else (with_resourceRequirements (Some (splice1 index rs)) this, true)
  end.

End NodeModel.

(* ------------------------------------------------------------------ *)
(** ** Reference integrity (section 3 of the specification) *)
(* ------------------------------------------------------------------ *)

Module Integrity.
Import Js Types.

Definition has_node (w : Workflow) (i : NodeId) : bool :=
  existsb (String.eqb i) (List.map node_id (nodes w)).

(** Every dependency's source and target id names a node. *)
Definition dependencies_resolved (w : Workflow) : bool :=
  forallb (fun d => has_node w (sourceId d) && has_node w (targetId d))
          (dependencies w).

(** Every track's member ids name nodes. *)
Definition tracks_resolved (w : Workflow) : bool :=
  forallb (fun t => forallb (has_node w) (nodeIds t)) (tracks w).

(** Every decision's default target names a node. *)
Definition decisions_resolved (w : Workflow) : bool :=
  forallb (fun n => match defaultTargetId n with
                    | Some x => has_node w x
                    | None => true
                    end) (nodes w).

(** Every sync point's required sources name nodes. *)
Definition syncs_resolved (w : Workflow) : bool :=
  forallb (fun n => match config n with
                    | Some c => forallb (has_node w) (requiredSources c)
                    | None => true
                    end) (nodes w).

(** The invariant in the words of the specification: no reference of the
    four kinds dangles. *)
Definition reference_integrity (w : Workflow) : bool :=
  dependencies_resolved w && tracks_resolved w
  && decisions_resolved w && syncs_resolved w.

End Integrity.

(* ------------------------------------------------------------------ *)
(** ** The dependency graph *)
(* ------------------------------------------------------------------ *)

Module Graph.
Import Js Types.

(** The ids some dependency points to. *)
Definition dependency_targets (w : Workflow) : gset NodeId :=
  list_to_set (List.map targetId (dependencies w)).

(** The dependency relation is acyclic: some numbering of the ids grows
    along every dependency, whatever its type. *)
Definition acyclic_by (rank : NodeId -> nat) (w : Workflow) : Prop :=
  forall d, In d (dependencies w) ->
            (rank (sourceId d) < rank (targetId d))%nat.

(** The source and target of every dependency, in order. *)
Definition endpoints (w : Workflow) : list (NodeId * NodeId) :=
  List.map (fun d => (sourceId d, targetId d)) (dependencies w).

Definition is_start (n : WorkflowNode) : bool :=
  NodeType_eqb (node_type n) START.

Definition is_end (n : WorkflowNode) : bool :=
  NodeType_eqb (node_type n) END.

Definition has_incoming (w : Workflow) (n : WorkflowNode) : bool :=
  existsb (fun d => String.eqb (targetId d) (node_id n)) (dependencies w).

Definition has_outgoing (w : Workflow) (n : WorkflowNode) : bool :=
  existsb (fun d => String.eqb (sourceId d) (node_id n)) (dependencies w).

(** The orphans in the words of the specification: the nodes that are
    neither start- nor end-typed and have no incoming and no outgoing
    dependency. *)
Definition orphans_by_type (w : Workflow) : list WorkflowNode :=
  List.filter (fun n => negb (is_start n) && negb (is_end n)
                        && (negb (has_incoming w n)
                            && negb (has_outgoing w n)))
              (nodes w).

End Graph.

(* ------------------------------------------------------------------ *)
(** ** Concrete workflows and documents used below *)
(* ------------------------------------------------------------------ *)

Module Examples.
Import Js Types.

Definition workflow_of (ns : list WorkflowNode) (ds : list Dependency)
    (ts : list Track) : Workflow :=
  {| wf_id := "workflow-1"; wf_name := "W"; wf_description := None;
     wf_version := None; nodes := ns; dependencies := ds; tracks := ts;
     wf_metadata := None |}.

Definition decision_node (i : NodeId) (n : string)
    (track : option TrackId) (target : option NodeId) : WorkflowNode :=
  {| node_id := i; node_type := DECISION; node_name := n;
     node_description := None; trackId := track; position := None;
     size := None; resourceRequirements := None; node_metadata := None;
     taskType := None; parameters := None; timeout := None;
     retries := None; conditions := Some []; defaultTargetId := target;
     config := None; trackName := None; defaultTargetName := None |}.

Definition track_of (i : TrackId) (n : string) (members : list NodeId)
  : Track :=
  {| track_id := i; track_name := n; track_description := None;
     nodeIds := members; track_metadata := None |}.

(** A decision whose default target is the task [n2], which is also a
    member of the track and an endpoint of the only dependency. *)
Definition w_decision : Workflow :=
  workflow_of
    [ decision_node "n1" "Check" None (Some "n2");
      bare_node "n2" TASK "Analyze" ]
    [ bare_dependency "n1" "n2" SEQUENTIAL ]
    [ track_of "track-1" "Main" ["n1"; "n2"] ].





Definition w_task_only : Workflow :=
  workflow_of [ bare_node "t" TASK "Work" ] [] [].

(** start -> task -> end *)
Definition w_chain : Workflow :=
  workflow_of
    [ bare_node "s" START "Begin"; bare_node "t" TASK "Work";
      bare_node "e" END "Done" ]
    [ bare_dependency "s" "t" SEQUENTIAL;
      bare_dependency "t" "e" SEQUENTIAL ]
    [].

Definition chain_rank (i : NodeId) : nat :=
  if String.eqb i "s" then 0%nat
  else if String.eqb i "t" then 1%nat else 2%nat.

(** A -> B -> C -> A *)
Definition w_cycle : Workflow :=
  workflow_of
    [ bare_node "A" TASK "a"; bare_node "B" TASK "b";
      bare_node "C" TASK "c" ]
    [ bare_dependency "A" "B" SEQUENTIAL;
      bare_dependency "B" "C" SEQUENTIAL;
      bare_dependency "C" "A" SEQUENTIAL ]
    [].

(** A start node and a task that carry the same id. *)
Definition w_shared_id : Workflow :=
  workflow_of
    [ bare_node "x" START "Begin"; bare_node "x" TASK "Work" ] [] [].

(** An isolated start node and an isolated task. *)
Definition w_isolated : Workflow :=
  workflow_of
    [ bare_node "s" START "Begin"; bare_node "t" TASK "Work" ] [] [].

Definition quoted (s : string) : string := DQ +:+ s +:+ DQ.

(** A task whose resources are named by [member]. *)
Definition resource_document (member : string) : string :=
  "workflow " +:+ quoted "W" +:+ " { task " +:+ quoted "T"
  +:+ " { resources { " +:+ member +:+ ": 1 } } }".

(** The parser state once [k] more tokens are consumed. *)
Definition moved (k : nat) (st : DslParser.PState) : DslParser.PState :=
  {| DslParser.tokens := DslParser.tokens st;
     DslParser.current := (k + DslParser.current st)%nat;
     DslParser.now_calls := DslParser.now_calls st;
     DslParser.random_calls := DslParser.random_calls st |}.

(** The line and the column, both counted from one, of the character
    at [index] of [source]. *)
Fixpoint position_from (ln col : Z) (chars : list ascii) (index : nat)
  : Z * Z :=
  match index, chars with
  | S index', c :: chars' =>
      if Ascii.eqb c "010"%char then position_from (ln + 1) 1 chars' index'
      else position_from ln (col + 1) chars' index'
  | _, _ => (ln, col)
  end.

Definition position_of (source : string) (index : nat) : Z * Z :=
  position_from 1 1 (list_ascii_of_string source) index.

(** A [#] after a string literal on the second line. *)
Definition hash_after_string : string :=
  "workflow " +:+ quoted "W" +:+ " {" +:+ NL +:+
  "  description " +:+ quoted "demo" +:+ " # note" +:+ NL +:+
  "}".

(** A [#] with no string or block comment before it on its line. *)
Definition hash_on_own_line : string :=
  "workflow " +:+ quoted "W" +:+ " {" +:+ NL +:+
  "  # note" +:+ NL +:+
  "}".

(** A document whose references name nothing that is defined. *)
Definition dangling_document : string :=
  "workflow " +:+ quoted "W" +:+ " {" +:+ NL +:+
  "  track " +:+ quoted "Main" +:+ " { }" +:+ NL +:+
  "  task " +:+ quoted "A" +:+ " { track " +:+ quoted "Nowhere" +:+ " }"
  +:+ NL +:+
  "  decision " +:+ quoted "D" +:+ " { default " +:+ quoted "Ghost"
  +:+ " }" +:+ NL +:+
  "  dependencies { " +:+ quoted "A" +:+ " -> " +:+ quoted "Ghost" +:+ " }"
  +:+ NL +:+
  "}".

(** A document whose references all name defined nodes and tracks. *)
Definition resolved_document : string :=
  "workflow " +:+ quoted "W" +:+ " {" +:+ NL +:+
  "  track " +:+ quoted "Main" +:+ " { }" +:+ NL +:+
  "  task " +:+ quoted "A" +:+ " { track " +:+ quoted "Main" +:+ " }"
  +:+ NL +:+
  "  decision " +:+ quoted "D" +:+ " { default " +:+ quoted "A"
  +:+ " }" +:+ NL +:+
  "  dependencies { " +:+ quoted "A" +:+ " -> " +:+ quoted "D" +:+ " }"
  +:+ NL +:+
  "}".

(** The conditional dependency of the example in dsl/grammar.ts. *)
Definition documented_when_clause : string :=
  "workflow " +:+ quoted "P" +:+ " {" +:+ NL +:+
  "  dependencies {" +:+ NL +:+
  "    " +:+ quoted "Quality Check" +:+ " -> " +:+ quoted "Analyze Data"
  +:+ " when " +:+ quoted "quality_score > 0.8" +:+ NL +:+
  "  }" +:+ NL +:+
  "}".

(** Two uniquely named nodes joined by a conditional dependency. *)
Definition w_conditional : Workflow :=
  workflow_of
    [ bare_node "n1" START "Begin"; bare_node "n2" END "Done" ]
    [ {| sourceId := "n1"; targetId := "n2"; dep_type := CONDITIONAL;
         condition := Some {| leftOperand := "ready"; operator := EQUALS;
                              rightOperand := VBool true;
                              cond_metadata := None |};
         isDefault := None; dep_metadata := None |} ]
    [].

(** A task with a retry count. *)
Definition retry_task : WorkflowNode :=
  {| node_id := "n1"; node_type := TASK; node_name := "Load";
     node_description := None; trackId := None; position := None;
     size := None; resourceRequirements := None;
     node_metadata := None; taskType := Some "loader";
     parameters := None; timeout := None; retries := Some (Num 3);
     conditions := None; defaultTargetId := None; config := None;
     trackName := None; defaultTargetName := None |}.

Definition w_retries : Workflow := workflow_of [ retry_task ] [] [].

(** A decision in the track [track-1], named [Ingest], whose default
    target is the node [n2], named [Analyze]. *)
Definition tracked_decision : WorkflowNode :=
  decision_node "n1" "Check" (Some "track-1") (Some "n2").

Definition w_tracked : Workflow :=
  workflow_of
    [ tracked_decision; bare_node "n2" TASK "Analyze" ]
    [ bare_dependency "n1" "n2" SEQUENTIAL ]
    [ track_of "track-1" "Ingest" ["n1"] ].

(** A clock that stands still and a generator that always draws 0. *)
Definition constant_env : DslParser.Env :=
  {| DslParser.Date_now := fun _ => 1700000000000;
     DslParser.Math_random := fun _ => 0 |}.

(** [String(n)] for whole numbers. *)
Definition show_integer (n : number) : string :=
  match n with
  | NaN => "NaN"
  | Num q => string_of_Z (Qnum q / Z.pos (Qden q))
  end.





(** The condition [ready == true], the tokens of its printed text
    followed by [then "Done"], and the state in front of them. *)
Definition ready_condition : Condition :=
  {| leftOperand := "ready"; operator := EQUALS; rightOperand := VBool true;
     cond_metadata := None |}.

Definition ready_tokens : list Grammar.Token :=
  [ {| Grammar.type := Grammar.STRING;
       Grammar.value :=
         DslGenerator.generateConditionExpression show_integer
           ready_condition;
       Grammar.line := 1; Grammar.column := 11 |};
    {| Grammar.type := Grammar.THEN; Grammar.value := "then";
       Grammar.line := 1; Grammar.column := 27 |};
    {| Grammar.type := Grammar.STRING; Grammar.value := "Done";
       Grammar.line := 1; Grammar.column := 32 |};
    {| Grammar.type := Grammar.EOF; Grammar.value := EmptyString;
       Grammar.line := 1; Grammar.column := 38 |} ].

Definition before_ready_condition : DslParser.PState :=
  {| DslParser.tokens := ready_tokens; DslParser.current := 0;
     DslParser.now_calls := 0; DslParser.random_calls := 0 |}.

End Examples.

(* ------------------------------------------------------------------ *)
(** ** Vocabulary of the further properties *)
(* ------------------------------------------------------------------ *)

Module GraphMore.
Import Js Types.

(** There is a dependency from [x] to [y]. *)
Definition edge (w : Workflow) (x y : NodeId) : Prop :=
  exists d, In d (dependencies w) /\ sourceId d = x /\ targetId d = y.

(** Some dependency cycle can be reached from a node of the workflow. *)
Definition cycle_reachable (w : Workflow) : Prop :=
  exists n x, In n (nodes w) /\ rtc (edge w) (node_id n) x
              /\ tc (edge w) x x.

(** The nodes the search has left: visited and off the recursion stack. *)
Definition finished (st : Validation.DfsState) : gset NodeId :=
  Validation.visited st ∖ Validation.recursionStack st.

(** Every finished node has a number below [n], and along every
    dependency out of a finished node the target is finished and has a
    smaller number. *)
Definition ordered (w : Workflow) (st : Validation.DfsState) (r : NodeId -> nat) (n : nat) : Prop :=
  (forall z, z ∈ finished st -> (r z < n)%nat)
  /\ (forall z y, z ∈ finished st -> edge w z y ->
                  y ∈ finished st /\ (r y < r z)%nat).

Definition outcome_ordered (w : Workflow) (st : Validation.DfsState)
    (r : NodeId -> nat) (st' : Validation.DfsState) : Prop :=
  exists r' n',
    ordered w st' r' n'
    /\ Validation.recursionStack st' = Validation.recursionStack st
    /\ Validation.visited st ⊆ Validation.visited st'
    /\ (forall z, z ∈ finished st -> r' z = r z).

End GraphMore.

Module GenSpec.
Import Js Types.

(** How a dependency endpoint is shown: by the name of the last node that
    carries the id, and by the id itself when no node carries it or that
    name is empty. *)
Definition display_name (ns : list WorkflowNode) (i : NodeId) : string :=
  match List.find (fun n => String.eqb (node_id n) i) (rev ns) with
  | Some n => if String.eqb (node_name n) EmptyString then i else node_name n
  | None => i
  end.

Definition dependency_suffix (numberToString : number -> string)
    (dep : Dependency) : string :=
  match dep_type dep, condition dep with
  | CONDITIONAL, Some c =>
      " when " +:+ DQ
      +:+ DslGenerator.generateConditionExpression numberToString c +:+ DQ
  | CONDITIONAL, None => " default"
  | _, _ => EmptyString
  end.

Definition dependency_line (numberToString : number -> string)
    (ns : list WorkflowNode) (indent : nat) (dep : Dependency) : string :=
  repeat_str " " indent +:+ "  " +:+ DQ +:+ display_name ns (sourceId dep)
  +:+ DQ +:+ " -> " +:+ DQ +:+ display_name ns (targetId dep) +:+ DQ
  +:+ dependency_suffix numberToString dep +:+ NL.
End GenSpec.

Module CondSpec.
Import Js Types.

(** No character of the string is white space. *)
Definition no_space (s : string) : bool :=
  forallb (fun c => negb (is_space c)) (list_ascii_of_string s).
End CondSpec.

Module LexSpec.
Import Js Types.
Import Grammar Lexer.
Definition line_le (a b : Token) : Prop := line a <= line b.

(** What holds of the tokens collected so far. *)
Definition lex_ok (st : LexState) : Prop :=
  Forall (fun t => type t <> EOF /\ 1 <= line t <= lx_line st
                   /\ (type t = IDENTIFIER -> inherited (value t) = false))
         (lx_tokens st)
  /\ StronglySorted line_le (lx_tokens st)
  /\ 1 <= lx_line st.

(** What holds of the outcome of the lexer. *)
Definition lexed (r : Result (list Token)) : Prop :=
  match r with
  | Ok toks =>
      exists pre eof,
        toks = pre ++ [eof]
        /\ type eof = EOF /\ value eof = EmptyString
        /\ Forall (fun t => type t <> EOF) pre
        /\ StronglySorted line_le toks
        /\ Forall (fun t => 1 <= line t) toks
        /\ Forall (fun t => type t = IDENTIFIER ->
                            inherited (value t) = false) toks
  | Throw msg =>
      exists ch ln col,
        msg = "Unexpected character: " +:+ ch +:+ " at line "
              +:+ string_of_Z ln +:+ ", column " +:+ string_of_Z col
  | OutOfFuel => True
  end.

End LexSpec.

Module ParserSpec.
Import Js Types.
Import Lexer DslParser.
Import Grammar(Token, TokenType, type, value, line, column).

(** The parser's position is inside a token list that ends with its
    only EOF token. *)
Definition positioned (pre : list Token) (eof : Token) (st : PState) : Prop :=
  tokens st = pre ++ [eof] /\ (current st <= List.length pre)%nat.

Definition remaining (pre : list Token) (st : PState) : nat :=
  (List.length pre - current st)%nat.

(** [m] run from [st] returns or throws one of the parser's own errors;
    when it returns, it has not moved backwards and [Q] holds. *)
Definition safe {A} (pre : list Token) (eof : Token) (m : P A) (st : PState)
    (Q : A -> PState -> Prop) : Prop :=
  match m st with
  | Ok (a, st') =>
      positioned pre eof st' /\ (current st <= current st')%nat /\ Q a st'
  | Throw msg => msg <> TypeError
  | OutOfFuel => False
  end.

(** The first five characters of a message are there and are not those
    of [TypeError]. *)
Definition headed (message : string) : bool :=
  match message with
  | String a (String b (String c (String d (String e _)))) =>
      negb (String.eqb
              (String a (String b (String c (String d (String e EmptyString)))))
              "TypeE")
  | _ => false
  end.

Definition anything {A} : A -> PState -> Prop := fun _ _ => True.

Definition moved_on (st : PState) {A} : A -> PState -> Prop :=
  fun _ st' => current st' = S (current st).

End ParserSpec.

(* ================================================================== *)
(** * Properties *)
(* ================================================================== *)

Import Js Types.

(* ------------------------------------------------------------------ *)
(** ** WorkflowModel.removeNode *)
(* ------------------------------------------------------------------ *)

Section RemoveNode.
Import WorkflowModel Integrity.

Lemma has_node_In (w : Workflow) (i : NodeId) :
  has_node w i = true <-> In i (List.map node_id (nodes w)).
Proof.
  unfold has_node. rewrite existsb_exists. split.
  - intros (x & Hx & He). apply String.eqb_eq in He. now subst.
  - intros H. exists i. split; [exact H | apply String.eqb_refl].
Qed.

Lemma eqb_neq_true (a b : string) : negb (String.eqb a b) = true <-> a <> b.
Proof. rewrite negb_true_iff. apply String.eqb_neq. Qed.

Lemma removeNode_keeps_other_ids (w : Workflow) (nodeId i : NodeId) :
  i <> nodeId -> has_node w i = true ->
  has_node (fst (removeNode nodeId w)) i = true.
Proof.
  rewrite !has_node_In. intros Hne Hin. cbn.
  apply in_map_iff in Hin as (n & Hn & Hin).
  apply in_map_iff. exists n. split; [exact Hn|].
  apply filter_In. split; [exact Hin|].
  apply eqb_neq_true. now rewrite Hn.
Qed.

Lemma removeNode_dependencies_resolved (w : Workflow) (nodeId : NodeId) :
  dependencies_resolved w = true ->
  dependencies_resolved (fst (removeNode nodeId w)) = true.
Proof.
  unfold dependencies_resolved. rewrite !forallb_forall.
  intros H d Hd. cbn in Hd. apply filter_In in Hd as [Hd Hk].
  apply andb_true_iff in Hk as [Hs Ht].
  apply eqb_neq_true in Hs. apply eqb_neq_true in Ht.
  specialize (H d Hd). apply andb_true_iff in H as [H1 H2].
  apply andb_true_iff.
  split; apply removeNode_keeps_other_ids; assumption.
Qed.

Lemma removeNode_tracks_resolved (w : Workflow) (nodeId : NodeId) :
  tracks_resolved w = true ->
  tracks_resolved (fst (removeNode nodeId w)) = true.
Proof.
  unfold tracks_resolved. rewrite !forallb_forall.
  intros H t Ht. cbn in Ht. apply in_map_iff in Ht as (t0 & <- & Ht0).
  cbn. apply forallb_forall. intros i Hi.
  apply filter_In in Hi as [Hi Hne]. apply eqb_neq_true in Hne.
  apply removeNode_keeps_other_ids; [exact Hne|].
  specialize (H t0 Ht0). rewrite forallb_forall in H. now apply H.
Qed.

Lemma filter_length_changed {A} (f : A -> bool) (l : list A) :
  negb (Nat.eqb (List.length (List.filter f l)) (List.length l)) = true
  <-> exists x, In x l /\ f x = false.
Proof.
  rewrite negb_true_iff, Nat.eqb_neq.
  induction l as [|a l IH]; cbn.
  - split; [congruence | intros (x & [] & _)].
  - destruct (f a) eqn:Hfa; cbn.
    + split.
      * intros H. destruct IH as [IH _].
        destruct IH as (x & Hx & Hfx); [congruence|]. eauto.
      * intros (x & [-> | Hx] & Hfx); [congruence|].
        destruct IH as [_ IH]. intros Heq. apply IH; [eauto | congruence].
    + split; [eauto|]. intros _.
      pose proof (filter_length_le f l). lia.
Qed.

End RemoveNode.

Section RemoveNodeClaim.
Import WorkflowModel Integrity Examples.

(** C9, as stated, fails: the specification's reference-integrity
    invariant covers a decision's default target, and [removeNode] leaves
    it in place.  Removing the task [n2] from [w_decision], which
    satisfies the invariant, gives a workflow that does not. *)
Lemma removeNode_breaks_reference_integrity :
  reference_integrity w_decision = true
  /\ snd (removeNode "n2" w_decision) = true
  /\ reference_integrity (fst (removeNode "n2" w_decision)) = false.
Proof. repeat split; vm_compute; reflexivity. Qed.

(** C9, amended: [removeNode nodeId] keeps exactly the nodes whose id is
    not [nodeId] and exactly the dependencies that do not touch it, in
    their order and as often as they occurred; it takes [nodeId] out of
    every track's member list, keeping the other members in order, and
    changes nothing else of a track or of the workflow; it returns
    [true] iff a node with that id was present; and it preserves the
    dependency-endpoint and the track-membership parts of reference
    integrity. *)
Theorem removeNode_spec (w : Workflow) (nodeId : NodeId) :
  let w' := fst (removeNode nodeId w) in
  nodes w'
  = List.filter (fun n => negb (String.eqb (node_id n) nodeId)) (nodes w)
  /\ dependencies w'
     = List.filter (fun d => negb (String.eqb (sourceId d) nodeId)
                             && negb (String.eqb (targetId d) nodeId))
                   (dependencies w)
  /\ tracks w'
     = List.map (fun t =>
                   TrackModel.with_nodeIds
                     (List.filter (fun i => negb (String.eqb i nodeId))
                                  (nodeIds t)) t)
                (tracks w)
  /\ (forall n, In n (nodes w') <-> In n (nodes w) /\ node_id n <> nodeId)
  /\ (forall d, In d (dependencies w') <->
                In d (dependencies w)
                /\ sourceId d <> nodeId /\ targetId d <> nodeId)
  /\ Forall2 (fun t t' =>
                track_id t' = track_id t
                /\ track_name t' = track_name t
                /\ track_description t' = track_description t
                /\ track_metadata t' = track_metadata t
                /\ forall i, In i (nodeIds t') <->
                             In i (nodeIds t) /\ i <> nodeId)
             (tracks w) (tracks w')
  /\ (wf_id w', wf_name w', wf_description w', wf_version w',
      wf_metadata w')
     = (wf_id w, wf_name w, wf_description w, wf_version w, wf_metadata w)
  /\ (snd (removeNode nodeId w) = true <->
      exists n, In n (nodes w) /\ node_id n = nodeId)
  /\ (dependencies_resolved w = true -> tracks_resolved w = true ->
      dependencies_resolved w' = true /\ tracks_resolved w' = true).
Proof.
  cbn zeta.
  refine (conj eq_refl (conj eq_refl (conj eq_refl
            (conj _ (conj _ (conj _ (conj _ (conj _ _)))))))).
  - intros n. cbn. rewrite filter_In, eqb_neq_true. reflexivity.
  - intros d. cbn. rewrite filter_In, andb_true_iff, !eqb_neq_true.
    reflexivity.
  - cbn. induction (tracks w) as [|t ts IH]; cbn; constructor; [|exact IH].
    cbn. do 4 (split; [reflexivity|]).
    intros i. rewrite filter_In, eqb_neq_true. reflexivity.
  - reflexivity.
  - cbn. rewrite filter_length_changed. split.
    + intros (n & Hn & Hf). exists n. split; [exact Hn|].
      apply negb_false_iff in Hf. now apply String.eqb_eq.
    + intros (n & Hn & He). exists n. split; [exact Hn|].
      apply negb_false_iff. now apply String.eqb_eq.
  - intros Hd Ht. split.
    + now apply removeNode_dependencies_resolved.
    + now apply removeNode_tracks_resolved.
Qed.

Lemma removeNode_spec_witness :
  dependencies_resolved w_decision = true
  /\ tracks_resolved w_decision = true
  /\ dependencies_resolved (fst (removeNode "n2" w_decision)) = true
  /\ tracks_resolved (fst (removeNode "n2" w_decision)) = true.
Proof.
  assert (Hd : dependencies_resolved w_decision = true) by reflexivity.
  assert (Ht : tracks_resolved w_decision = true) by reflexivity.
  split; [exact Hd|]. split; [exact Ht|].
  exact (proj2 (proj2 (proj2 (proj2 (proj2 (proj2 (proj2 (proj2
           (removeNode_spec w_decision "n2")))))))) Hd Ht).
Defined.

End RemoveNodeClaim.

(* ------------------------------------------------------------------ *)
(** ** JsonSerializer: serialize then deserialize *)
(* ------------------------------------------------------------------ *)

Section JsonRoundTrip.
Import JsonSerializer Examples.
















End JsonRoundTrip.

(* ------------------------------------------------------------------ *)
(** ** Cycle detection *)
(* ------------------------------------------------------------------ *)

Section Cycles.
Import Validation Graph.

Variable w : Workflow.

(** *** On an acyclic graph the search reports nothing *)

Lemma dfs_loop_acyclic
    (rec : NodeId -> list NodeId -> DfsState -> option (bool * DfsState))
    (nodeId : NodeId) (path : list NodeId) (S0 : gset NodeId) :
  nodeId ∉ S0 ->
  forall deps0,
    (forall dep st b st',
        In dep deps0 ->
        recursionStack st = {[ nodeId ]} ∪ S0 ->
        rec (targetId dep) path st = Some (b, st') ->
        b = false /\ dfs_errors st' = dfs_errors st
        /\ recursionStack st' = recursionStack st) ->
    forall st b st',
      recursionStack st = {[ nodeId ]} ∪ S0 ->
      dfs_loop rec nodeId path deps0 st = Some (b, st') ->
      b = false /\ dfs_errors st' = dfs_errors st
      /\ recursionStack st' = S0.
Proof.
  intros Hfresh deps0.
  induction deps0 as [|dep deps0 IH]; intros Hrec st b st' Hst Hrun.
  - cbn in Hrun. injection Hrun as Hb Hs. subst b st'. cbn.
    split; [reflexivity|]. split; [reflexivity|].
    rewrite Hst. set_solver.
  - cbn in Hrun.
    destruct (rec (targetId dep) path st) as [[[] st1]|] eqn:Hcall;
      try discriminate.
    + destruct (Hrec dep st true st1 (or_introl eq_refl) Hst Hcall)
        as [Hb _]. discriminate.
    + destruct (Hrec dep st false st1 (or_introl eq_refl) Hst Hcall)
        as (_ & He & Hs).
      destruct (IH (fun d s b0 s' Hd => Hrec d s b0 s' (or_intror Hd))
                   st1 b st' (eq_trans Hs Hst) Hrun) as (Hb & He' & Hs').
      split; [exact Hb|]. split; [congruence | exact Hs'].
Qed.

Lemma dfs_acyclic (rank : NodeId -> nat) :
  acyclic_by rank w ->
  forall fuel nodeId path st b st',
    (forall x, x ∈ recursionStack st -> (rank x < rank nodeId)%nat) ->
    dfs fuel w nodeId path st = Some (b, st') ->
    b = false /\ dfs_errors st' = dfs_errors st
    /\ recursionStack st' = recursionStack st.
Proof.
  intros Hacyc fuel.
  induction fuel as [|fuel IH]; intros nodeId path st b st' Hrank Hrun;
    [discriminate|].
  cbn [dfs] in Hrun.
  case_bool_decide as Hstack.
  { apply Hrank in Hstack. lia. }
  case_bool_decide as Hvis.
  { injection Hrun as <- <-. auto. }
  eapply (dfs_loop_acyclic _ nodeId _ (recursionStack st) Hstack) in Hrun;
    [exact Hrun | | reflexivity].
  intros dep st0 b0 st0' Hdep Hst0 Hcall.
  apply filter_In in Hdep as [Hdep Hsrc]. apply String.eqb_eq in Hsrc.
  apply (IH _ _ _ _ _) in Hcall; [exact Hcall|].
  intros x Hx. rewrite Hst0 in Hx.
  specialize (Hacyc dep Hdep). rewrite Hsrc in Hacyc.
  apply elem_of_union in Hx as [Hx | Hx].
  - apply elem_of_singleton in Hx. now subst.
  - apply Hrank in Hx. lia.
Qed.

(** *** The search returns *)

Lemma size_unvisited_mono (T v v' : gset NodeId) :
  v ⊆ v' -> (base.size (T ∖ v') <= base.size (T ∖ v))%nat.
Proof. intros H. apply subseteq_size. set_solver. Qed.

Lemma size_unvisited_visit (T v : gset NodeId) (x : NodeId) :
  x ∈ T -> x ∉ v -> (base.size (T ∖ ({[ x ]} ∪ v)) < base.size (T ∖ v))%nat.
Proof.
  intros HT Hv. apply subset_size. apply strict_spec_alt. split.
  - set_solver.
  - intros Heq. assert (x ∈ T ∖ v) as Hin by set_solver.
    rewrite <- Heq in Hin. set_solver.
Qed.

Lemma dfs_loop_returns
    (rec : NodeId -> list NodeId -> DfsState -> option (bool * DfsState))
    (nodeId : NodeId) (path : list NodeId) (bound : nat) :
  (forall t st,
      t ∈ dependency_targets w ->
      (base.size (dependency_targets w ∖ visited st) < bound)%nat ->
      exists b st', rec t path st = Some (b, st')
                    /\ visited st ⊆ visited st') ->
  forall deps0 st,
    (forall dep, In dep deps0 -> In dep (dependencies w)) ->
    (base.size (dependency_targets w ∖ visited st) < bound)%nat ->
    exists b st', dfs_loop rec nodeId path deps0 st = Some (b, st')
                  /\ visited st ⊆ visited st'.
Proof.
  intros Hrec deps0.
  induction deps0 as [|dep deps0 IH]; intros st Hin Hsize; cbn.
  - eexists _, _. split; [reflexivity|]. cbn. set_solver.
  - assert (Ht : targetId dep ∈ dependency_targets w).
    { unfold dependency_targets. apply elem_of_list_to_set.
      apply list_elem_of_In, in_map, Hin. now left. }
    destruct (Hrec _ st Ht Hsize) as (b & st1 & Hcall & Hsub).
    rewrite Hcall. destruct b.
    + eauto.
    + destruct (IH st1) as (b' & st' & Hloop & Hsub').
      * intros d Hd. apply Hin. now right.
      * pose proof (size_unvisited_mono (dependency_targets w) _ _ Hsub).
        lia.
      * exists b', st'. split; [exact Hloop | set_solver].
Qed.

Lemma dfs_returns (fuel : nat) :
  forall nodeId path st,
    (nodeId ∈ dependency_targets w
     /\ base.size (dependency_targets w ∖ visited st) < fuel)%nat
    \/ (base.size (dependency_targets w ∖ visited st) + 1 < fuel)%nat ->
    exists b st', dfs fuel w nodeId path st = Some (b, st')
                  /\ visited st ⊆ visited st'.
Proof.
  induction fuel as [|fuel IH]; intros nodeId path st Hpre; [lia|].
  cbn [dfs].
  case_bool_decide as Hstack; [eexists _, _; split; [reflexivity|done]|].
  case_bool_decide as Hvis; [eexists _, _; split; [reflexivity|done]|].
  set (st1 := {| dfs_errors := dfs_errors st;
                 visited := {[ nodeId ]} ∪ visited st;
                 recursionStack := {[ nodeId ]} ∪ recursionStack st |}).
  assert (Hsize1 : (base.size (dependency_targets w ∖ visited st1) < fuel)%nat).
  { cbn. destruct Hpre as [[HT Hlt] | Hlt].
    - pose proof (size_unvisited_visit _ _ _ HT Hvis). lia.
    - pose proof (size_unvisited_mono (dependency_targets w)
                    (visited st) ({[ nodeId ]} ∪ visited st)
                    ltac:(set_solver)). lia. }
  destruct (dfs_loop_returns (dfs fuel w) nodeId (path ++ [nodeId]) fuel)
    with (deps0 := List.filter
                     (fun dep => String.eqb (sourceId dep) nodeId)
                     (dependencies w))
         (st := st1)
    as (b & st' & Hloop & Hsub).
  - intros t st0 Ht Hlt. apply IH. now left.
  - intros dep Hdep. now apply filter_In in Hdep as [Hdep _].
  - exact Hsize1.
  - exists b, st'. split; [exact Hloop|]. cbn in Hsub. set_solver.
Qed.

Lemma size_targets_le :
  (base.size (dependency_targets w) <= List.length (dependencies w))%nat.
Proof.
  unfold dependency_targets.
  rewrite <- (length_map targetId (dependencies w)).
  induction (List.map targetId (dependencies w)) as [|x l IH]; cbn.
  - now rewrite size_empty.
  - pose proof (size_union_alt {[ x ]} (list_to_set l : gset NodeId)) as Hu.
    rewrite size_singleton in Hu.
    pose proof (subseteq_size (list_to_set l ∖ {[ x ]})
                  (list_to_set l : gset NodeId) ltac:(set_solver)).
    lia.
Qed.

Lemma dfs_all_returns (ns : list WorkflowNode) (st : DfsState) :
  exists st', dfs_all w ns st = Some st'.
Proof.
  revert st. induction ns as [|node ns IH]; intros st; cbn [dfs_all].
  - eauto.
  - case_bool_decide; [apply IH|].
    destruct (dfs_returns (dfs_fuel w) (node_id node) [] st)
      as (b & st' & Hrun & _).
    + right. unfold dfs_fuel.
      pose proof size_targets_le.
      pose proof (subseteq_size (dependency_targets w ∖ visited st)
                    (dependency_targets w) ltac:(set_solver)).
      lia.
    + rewrite Hrun. apply IH.
Qed.

(** Cycle detection returns a list of errors on every workflow. *)
Lemma checkCircularDependencies_returns :
  exists errs, checkCircularDependencies w = Some errs.
Proof.
  unfold checkCircularDependencies.
  destruct (dfs_all_returns (nodes w)
              {| dfs_errors := []; visited := ∅; recursionStack := ∅ |})
    as (st' & ->).
  eauto.
Qed.

Lemma dfs_all_acyclic (rank : NodeId -> nat) :
  acyclic_by rank w ->
  forall ns st st',
    recursionStack st = ∅ ->
    dfs_all w ns st = Some st' ->
    dfs_errors st' = dfs_errors st.
Proof.
  intros Hacyc ns.
  induction ns as [|node ns IH]; intros st st' Hempty Hrun;
    cbn [dfs_all] in Hrun.
  - now injection Hrun as <-.
  - case_bool_decide; [now apply IH|].
    destruct (dfs (dfs_fuel w) w (node_id node) [] st) as [[b st1]|] eqn:Hd;
      [|discriminate].
    apply (dfs_acyclic rank Hacyc) in Hd as (_ & He & Hs).
    + rewrite <- He. apply IH; [congruence | exact Hrun].
    + intros x Hx. rewrite Hempty in Hx. set_solver.
Qed.

Lemma checkCircularDependencies_acyclic (rank : NodeId -> nat) :
  acyclic_by rank w -> checkCircularDependencies w = Some [].
Proof.
  intros Hacyc. unfold checkCircularDependencies.
  destruct (dfs_all_returns (nodes w)
              {| dfs_errors := []; visited := ∅; recursionStack := ∅ |})
    as (st' & Hrun).
  rewrite Hrun. f_equal.
  now apply (dfs_all_acyclic rank Hacyc) in Hrun.
Qed.

End Cycles.

(* ------------------------------------------------------------------ *)
(** ** The report of a cycle *)
(* ------------------------------------------------------------------ *)

Section CycleReport.
Import Validation Graph WorkflowModel Examples.

(** C4: on the three-node cycle the validator reports one
    [circular_dependency] error whose message walks [A -> B -> C -> A];
    its edge list has four entries, the three edges of the cycle and a
    fourth, [A->A], that is no dependency of the workflow. *)
Theorem cycle_report :
  validate CircularDependencyValidator w_cycle
  = Some [ {| code := "circular_dependency";
              message := "Circular dependency detected: A -> B -> C -> A";
              err_nodeId := None;
              dependencyIds := Some ["A->B"; "B->C"; "C->A"; "A->A"];
              err_trackId := None;
              err_metadata := None |} ].
Proof. vm_compute. reflexivity. Qed.

End CycleReport.

(* ------------------------------------------------------------------ *)
(** ** Orphan detection *)
(* ------------------------------------------------------------------ *)

Section Orphans.
Import Validation Graph Examples.

Lemma flat_map_if {A B} (c : A -> bool) (f : A -> B) (l : list A) :
  flat_map (fun x => if c x then [f x] else []) l
  = List.map f (List.filter c l).
Proof.
  induction l as [|x l IH]; cbn; [reflexivity|].
  destruct (c x); cbn; now rewrite IH.
Qed.

Lemma filter_filter {A} (p c : A -> bool) (l : list A) :
  List.filter c (List.filter p l) = List.filter (fun x => p x && c x) l.
Proof.
  induction l as [|x l IH]; cbn; [reflexivity|].
  destruct (p x); cbn; [destruct (c x)|]; now rewrite IH.
Qed.

Lemma type_is_start (n : WorkflowNode) :
  String.eqb (NodeType_str (node_type n)) "start" = is_start n.
Proof. unfold is_start. now destruct (node_type n). Qed.

Lemma type_is_end (n : WorkflowNode) :
  String.eqb (NodeType_str (node_type n)) "end" = is_end n.
Proof. unfold is_end. now destruct (node_type n). Qed.

Lemma includes_filter (p : WorkflowNode -> bool) (ns : list WorkflowNode)
    (i : NodeId) :
  includes (List.map node_id (List.filter p ns)) i = true
  <-> exists m, In m ns /\ p m = true /\ node_id m = i.
Proof.
  unfold includes. rewrite existsb_exists. split.
  - intros (x & Hx & He). apply String.eqb_eq in He. subst x.
    apply in_map_iff in Hx as (m & Hm & Hin).
    apply filter_In in Hin as [Hin Hp]. eauto.
  - intros (m & Hin & Hp & Hm). exists i.
    split; [|apply String.eqb_refl].
    apply in_map_iff. exists m. split; [exact Hm|].
    now apply filter_In.
Qed.

(** C6, as stated, fails: the check exempts a node by the id it shares
    with a start or end node, not by its own type.  The task below has
    no dependency and is neither start- nor end-typed, yet it is not
    flagged. *)
Lemma orphan_with_shared_id_not_flagged :
  orphans_by_type w_shared_id = [ bare_node "x" TASK "Work" ]
  /\ checkOrphanedNodes w_shared_id = []
  /\ checkOrphanedNodes w_shared_id
     <> List.map orphan_error (orphans_by_type w_shared_id).
Proof.
  split; [reflexivity|]. split; [reflexivity|]. discriminate.
Qed.

(** C6, amended: when no node that is neither start- nor end-typed
    shares its id with a start or end node (so whenever node ids are
    pairwise distinct), the check flags [orphaned_node] exactly for the
    nodes that are neither start- nor end-typed and have no incoming and
    no outgoing dependency, in node order; and a start node is never
    flagged. *)
Theorem checkOrphanedNodes_spec (w : Workflow) :
  (forall n m, In n (nodes w) -> In m (nodes w) ->
               node_id n = node_id m ->
               is_start m || is_end m = true ->
               is_start n || is_end n = true) ->
  checkOrphanedNodes w = List.map orphan_error (orphans_by_type w)
  /\ forall n e, In n (nodes w) -> is_start n = true ->
                 In e (checkOrphanedNodes w) ->
                 err_nodeId e <> Some (node_id n).
Proof.
  intros Hids.
  assert (Hstart : forall n, In n (nodes w) -> is_start n = true ->
            includes
              (List.map node_id
                 (List.filter
                    (fun node =>
                       String.eqb (NodeType_str (node_type node)) "start")
                    (nodes w))) (node_id n) = true).
  { intros n Hn Hs. apply includes_filter. exists n.
    now rewrite type_is_start. }
  assert (Hend : forall n, In n (nodes w) -> is_end n = true ->
            includes
              (List.map node_id
                 (List.filter
                    (fun node =>
                       String.eqb (NodeType_str (node_type node)) "end")
                    (nodes w))) (node_id n) = true).
  { intros n Hn He. apply includes_filter. exists n.
    now rewrite type_is_end. }
  split.
  - unfold checkOrphanedNodes, orphans_by_type.
    rewrite flat_map_if, filter_filter. f_equal.
    apply filter_ext_in. intros n Hn. f_equal.
    destruct (is_start n) eqn:Hs.
    { now rewrite (Hstart n Hn Hs). }
    destruct (is_end n) eqn:He.
    { rewrite (Hend n Hn He). now rewrite andb_false_r. }
    assert (Hno : forall p,
               (forall m, p m = true -> is_start m || is_end m = true) ->
               includes (List.map node_id (List.filter p (nodes w)))
                        (node_id n) = false).
    { intros p Hp. apply not_true_is_false. intros Hinc.
      apply includes_filter in Hinc as (m & Hm & Hpm & Hid).
      specialize (Hids n m Hn Hm (eq_sym Hid) (Hp m Hpm)).
      rewrite Hs, He in Hids. discriminate. }
    rewrite !Hno; [reflexivity | |].
    + intros m Hm. rewrite type_is_end in Hm. rewrite Hm.
      apply orb_true_r.
    + intros m Hm. rewrite type_is_start in Hm. now rewrite Hm.
  - intros n e Hn Hs He Hid.
    unfold checkOrphanedNodes in He. rewrite flat_map_if in He.
    apply in_map_iff in He as (m & <- & Hm).
    apply filter_In in Hm as [Hm _].
    apply filter_In in Hm as [_ Hm].
    cbn in Hid. injection Hid as Hid. rewrite Hid in Hm.
    now rewrite (Hstart n Hn Hs) in Hm.
Qed.

Lemma checkOrphanedNodes_spec_witness :
  checkOrphanedNodes w_isolated
  = [ orphan_error (bare_node "t" TASK "Work") ].
Proof.
  refine (eq_trans (proj1 (checkOrphanedNodes_spec w_isolated _)) _).
  - intros n m [<- | [<- | []]] [<- | [<- | []]] Hid Hm;
      try reflexivity; try discriminate.
  - reflexivity.
Defined.

End Orphans.

(* ------------------------------------------------------------------ *)
(** ** The parser: conditions of decision nodes *)
(* ------------------------------------------------------------------ *)

Section Conditions.
Import Grammar Lexer DslParser Examples.

Lemma consume_ok (st : PState) (ty : TokenType) (msg : string) (t : Token) :
  DslParser.tokens st !! DslParser.current st = Some t ->
  Grammar.type t = ty -> ty <> Grammar.EOF ->
  consume ty msg st = Ok (Some t, moved 1 st).
Proof.
  intros Hlook Hty Hne.
  unfold consume, check, isAtEnd, advance, previous, peek, bind, deref, ret.
  rewrite Hlook. cbn. rewrite Hty.
  rewrite (bool_decide_eq_false_2 _ Hne). cbn.
  rewrite Hlook. cbn. rewrite Hty.
  rewrite (bool_decide_eq_true_2 _ eq_refl).
  rewrite Hlook. cbn. rewrite Hty.
  rewrite (bool_decide_eq_false_2 _ Hne). cbn.
  now rewrite Hlook.
Qed.

Lemma parseString_ok (st : PState) (t : Token) :
  DslParser.tokens st !! DslParser.current st = Some t ->
  Grammar.type t = Grammar.STRING ->
  parseString st = Ok (Grammar.value t, moved 1 st).
Proof.
  intros Hlook Hty. unfold parseString, bind.
  rewrite (consume_ok st _ _ t Hlook Hty) by discriminate.
  reflexivity.
Qed.



End Conditions.

(* ------------------------------------------------------------------ *)
(** ** The lexer: the position reported for an unexpected character *)
(* ------------------------------------------------------------------ *)

Section LexerErrors.
Import Grammar Lexer Examples.

(** Each inner loop ends at or after the index it starts from. *)
Lemma line_comment_end_ge (left : nat) (source : string) (c : nat) :
  (c <= line_comment_end left source c)%nat.
Proof.
  revert c. induction left as [|left IH]; intros c; cbn; [lia|].
  destruct (_ && _); [|lia]. specialize (IH (S c)). lia.
Qed.

Lemma block_comment_end_ge (left : nat) (source : string) (c : nat)
    (ln col : Z) :
  (c <= fst (fst (block_comment_end left source c ln col)))%nat.
Proof.
  revert c ln col. induction left as [|left IH]; intros c ln col; cbn; [lia|].
  destruct (_ && _); [|cbn; lia].
  destruct (String.eqb _ _).
  - specialize (IH (S c) (ln + 1)%Z 1%Z). lia.
  - specialize (IH (S c) ln (col + 1)%Z). lia.
Qed.

Lemma string_end_ge (left : nat) (source : string) (c : nat)
    (ln col : Z) :
  (c <= fst (fst (string_end left source c ln col)))%nat.
Proof.
  revert c ln col. induction left as [left IH] using lt_wf_ind.
  intros c ln col. destruct left as [|left]; cbn; [lia|].
  destruct (_ && _); [|cbn; lia].
  destruct (_ && _).
  - specialize (IH (left - 0 - 1)%nat ltac:(lia) (c + 2)%nat ln (col + 2)%Z).
    replace (left - 1)%nat with (left - 0 - 1)%nat by lia. lia.
  - destruct (String.eqb _ _).
    + specialize (IH left ltac:(lia) (S c) (ln + 1)%Z 1%Z). lia.
    + specialize (IH left ltac:(lia) (S c) ln (col + 1)%Z). lia.
Qed.

Lemma scan_while_ge (p : ascii -> bool) (left : nat) (source : string)
    (c : nat) :
  (c <= scan_while p left source c)%nat.
Proof.
  revert c. induction left as [|left IH]; intros c; cbn; [lia|].
  destruct (_ && _); [|lia]. specialize (IH (S c)). lia.
Qed.

Lemma scan_while_first (p : ascii -> bool) (source : string) (c : nat) :
  (c < String.length source)%nat ->
  test1 p (charAt source c) = true ->
  (c < scan_while p (String.length source - c) source c)%nat.
Proof.
  intros Hlt Hp.
  destruct (String.length source - c)%nat as [|left] eqn:Hleft; [lia|].
  cbn [scan_while]. apply Nat.ltb_lt in Hlt. rewrite Hlt, Hp. cbn [andb].
  pose proof (scan_while_ge p left source (S c)). lia.
Qed.

Lemma test1_weaken (p q : ascii -> bool) (ch : string) :
  (forall c, p c = true -> q c = true) ->
  test1 p ch = true -> test1 q ch = true.
Proof. intros H. destruct ch as [|c [|]]; cbn; auto. Qed.

Lemma tokenize_loop_returns (fuel : nat) :
  forall source current st,
    (String.length source - current < fuel)%nat ->
    tokenize_loop fuel source current st <> OutOfFuel.
Proof.
  induction fuel as [|fuel IH]; intros source current st Hfuel; [lia|].
  cbn [tokenize_loop].
  destruct (current <? String.length source)%nat eqn:Hlt; cbn [negb];
    [|discriminate].
  apply Nat.ltb_lt in Hlt.
  destruct (test1 is_space _).
  { destruct (String.eqb _ NL); apply IH; lia. }
  destruct (_ && _).
  { apply IH.
    pose proof (line_comment_end_ge (String.length source - current) source
                  (current + 2)). lia. }
  destruct (_ && _).
  { pose proof (block_comment_end_ge (String.length source - current) source
                  (current + 2) (lx_line st) (lx_column st)) as Hge.
    destruct (block_comment_end _ _ _ _ _) as [[c ln] col]. cbn in Hge.
    apply IH. destruct (c <? String.length source)%nat; lia. }
  destruct (symbol _).
  { apply IH. lia. }
  destruct (_ && _).
  { apply IH. lia. }
  destruct (String.eqb _ DQ).
  { pose proof (string_end_ge (String.length source - current) source
                  (S current) (lx_line st) (lx_column st)) as Hge.
    destruct (string_end _ _ _ _ _) as [[c ln] col]. cbn in Hge.
    apply IH. destruct (c <? String.length source)%nat; lia. }
  destruct (test1 is_digit _) eqn:Hd.
  { apply IH.
    pose proof (scan_while_first is_number_char source current Hlt
                  (test1_weaken is_digit is_number_char _
                     ltac:(intros c Hc; unfold is_number_char; now rewrite Hc)
                     Hd)). lia. }
  destruct (test1 is_ident_start _) eqn:Hi.
  { apply IH.
    pose proof (scan_while_first is_ident_char source current Hlt
                  (test1_weaken is_ident_start is_ident_char _
                     ltac:(intros c Hc; unfold is_ident_char; now rewrite Hc)
                     Hi)). lia. }
  discriminate.
Qed.

(** The lexer returns on every text: it gives the tokens or throws. *)
Theorem tokenize_returns (source : string) :
  (exists toks, tokenize source = Ok toks)
  \/ (exists msg, tokenize source = Throw msg).
Proof.
  pose proof (tokenize_loop_returns (S (String.length source)) source 0
                {| lx_tokens := []; lx_line := 1; lx_column := 1 |}
                ltac:(lia)) as H.
  unfold tokenize. destruct (tokenize_loop _ _ _ _); eauto. contradiction.
Qed.

(** C7: [tokenize] stops at the [#] and returns no tokens.  With nothing
    but white space before it on its line, the error cites the line and
    the column of the [#].  After the string literal [demo] on the same
    line it cites column 21, while the [#] is the 22nd character of line
    2: the opening quote of a string is not counted. *)
Theorem unexpected_character_position :
  (charAt hash_on_own_line 17 = "#"
   /\ position_of hash_on_own_line 17 = (2, 3)
   /\ tokenize hash_on_own_line
      = Throw "Unexpected character: # at line 2, column 3")
  /\ (charAt hash_after_string 36 = "#"
      /\ position_of hash_after_string 36 = (2, 22)
      /\ tokenize hash_after_string
         = Throw "Unexpected character: # at line 2, column 21").
Proof. repeat split; vm_compute; reflexivity. Qed.

End LexerErrors.

(* ------------------------------------------------------------------ *)
(** ** The parser: name references *)
(* ------------------------------------------------------------------ *)

Section NameReferences.
Import Lexer DslParser Graph Examples.

(** C1: [parse] returns a workflow for a document whose track reference,
    default target and dependency target name nothing that is defined;
    and for a document whose references are all defined, the workflow it
    returns still holds the names: the dependency runs from [A] to [D],
    no node has a [trackId] or a [defaultTargetId], the names sit in
    [trackName] and [defaultTargetName], and the track has no members.
    The generated ids are other strings. *)
Theorem parse_keeps_names (env : Env) :
  (exists w,
      parse env dangling_document = Ok w
      /\ endpoints w = [("A", "Ghost")]
      /\ List.map node_name (nodes w) = ["A"; "D"]
      /\ List.map trackName (nodes w) = [Some "Nowhere"; None]
      /\ List.map defaultTargetName (nodes w) = [None; Some "Ghost"])
  /\ (exists w,
         parse env resolved_document = Ok w
         /\ endpoints w = [("A", "D")]
         /\ List.map node_name (nodes w) = ["A"; "D"]
         /\ List.map node_id (nodes w)
            = [ "node-" +:+ string_of_Z (Date_now env 2) +:+ "-"
                +:+ string_of_Z (Math_random env 1);
                "node-" +:+ string_of_Z (Date_now env 3) +:+ "-"
                +:+ string_of_Z (Math_random env 2) ]
         /\ List.map trackId (nodes w) = [None; None]
         /\ List.map trackName (nodes w) = [Some "Main"; None]
         /\ List.map defaultTargetId (nodes w) = [None; None]
         /\ List.map defaultTargetName (nodes w) = [None; Some "A"]
         /\ List.map track_name (tracks w) = ["Main"]
         /\ List.map nodeIds (tracks w) = [[]]).
Proof.
  split.
  - assert (H : match parse env dangling_document with
                | Ok w =>
                    endpoints w = [("A", "Ghost")]
                    /\ List.map node_name (nodes w) = ["A"; "D"]
                    /\ List.map trackName (nodes w) = [Some "Nowhere"; None]
                    /\ List.map defaultTargetName (nodes w)
                       = [None; Some "Ghost"]
                | _ => False
                end)
      by (vm_compute; repeat split).
    destruct (parse env dangling_document) as [w| |]; [|contradiction..].
    exists w. split; [reflexivity | exact H].
  - assert (H : match parse env resolved_document with
                | Ok w =>
                    endpoints w = [("A", "D")]
                    /\ List.map node_name (nodes w) = ["A"; "D"]
                    /\ List.map node_id (nodes w)
                       = [ "node-" +:+ string_of_Z (Date_now env 2) +:+ "-"
                           +:+ string_of_Z (Math_random env 1);
                           "node-" +:+ string_of_Z (Date_now env 3) +:+ "-"
                           +:+ string_of_Z (Math_random env 2) ]
                    /\ List.map trackId (nodes w) = [None; None]
                    /\ List.map trackName (nodes w) = [Some "Main"; None]
                    /\ List.map defaultTargetId (nodes w) = [None; None]
                    /\ List.map defaultTargetName (nodes w)
                       = [None; Some "A"]
                    /\ List.map track_name (tracks w) = ["Main"]
                    /\ List.map nodeIds (tracks w) = [[]]
                | _ => False
                end)
      by (vm_compute; repeat split).
    destruct (parse env resolved_document) as [w| |]; [|contradiction..].
    exists w. split; [reflexivity | exact H].
Qed.

End NameReferences.

(* ------------------------------------------------------------------ *)
(** ** The generator *)
(* ------------------------------------------------------------------ *)

Section Generator.
Import Lexer DslParser DslGenerator Examples.

Variable env : Env.
Variable numberToString : number -> string.

(** The conditional dependency written in the example of dsl/grammar.ts
    is rejected by the parser: after [when] it wants an identifier. *)
Lemma documented_when_clause_rejected :
  parse env documented_when_clause
  = Throw "Expected identifier at line 3, column 40".
Proof. vm_compute. reflexivity. Qed.

(** C2: the nodes of [w_conditional] have different names and it has no
    track, yet parsing what the generator prints for it throws: the
    generator writes the condition of a conditional dependency as
    [when] and a string, as the grammar's example does, and the parser
    wants an identifier after [when].  Parsing what the generator prints
    for the single task of [w_retries] throws as well: the generator
    prints the retry count, which is no property of the grammar. *)
Theorem round_trip_rejected :
  numberToString (Num 3) = "3" ->
  (List.NoDup (List.map node_name (nodes w_conditional))
   /\ generateDependencies numberToString (dependencies w_conditional)
        (nodes w_conditional) 2
      = "  dependencies {" +:+ NL +:+
        "    " +:+ quoted "Begin" +:+ " -> " +:+ quoted "Done" +:+ " when "
        +:+ quoted "ready == true" +:+ NL +:+
        "  }" +:+ NL
   /\ parse env (generate numberToString w_conditional)
      = Throw "Expected identifier at line 12, column 24")
  /\ (generateTaskProperties numberToString retry_task 4
      = "    type " +:+ quoted "loader" +:+ NL +:+
        "    retries 3" +:+ NL
      /\ parse env (generate numberToString w_retries)
         = Throw "Expected task node property at line 6, column 5").
Proof.
  intros Hthree. split; [split; [|split]|split].
  - repeat constructor; cbn; intuition discriminate.
  - vm_compute. reflexivity.
  - vm_compute. reflexivity.
  - cbv [generateTaskProperties retry_task retries timeout parameters
         taskType truthy_str].
    rewrite Hthree. vm_compute. reflexivity.
  - cbv [generate generateNode generateTaskProperties w_retries retry_task
         workflow_of nodes retries timeout parameters taskType
         truthy_str tracks dependencies fold_left node_type
         resourceRequirements wf_description wf_version].
    rewrite Hthree. vm_compute. reflexivity.
Qed.

(** C5: for the decision [Check], which lies in the track named [Ingest]
    and defaults to the node named [Analyze], the generator prints the
    track's id and the target's id, not their names. *)
Theorem generateNode_prints_ids :
  In tracked_decision (nodes w_tracked)
  /\ List.map (fun t => (track_id t, track_name t)) (tracks w_tracked)
     = [("track-1", "Ingest")]
  /\ List.map (fun n => (node_id n, node_name n)) (nodes w_tracked)
     = [("n1", "Check"); ("n2", "Analyze")]
  /\ generateNode numberToString tracked_decision 2
     = "  decision " +:+ quoted "Check" +:+ " {" +:+ NL +:+
       "    track " +:+ quoted "track-1" +:+ NL +:+
       "    default " +:+ quoted "n2" +:+ NL +:+
       "  }" +:+ NL
  /\ generate numberToString w_tracked
     = "workflow " +:+ quoted "W" +:+ " {" +:+ NL +:+ NL +:+
       "  // Define tracks for parallel execution" +:+ NL +:+
       "  track " +:+ quoted "Ingest" +:+ " {" +:+ NL +:+
       "  }" +:+ NL +:+ NL +:+
       "  // Define nodes" +:+ NL +:+
       "  decision " +:+ quoted "Check" +:+ " {" +:+ NL +:+
       "    track " +:+ quoted "track-1" +:+ NL +:+
       "    default " +:+ quoted "n2" +:+ NL +:+
       "  }" +:+ NL +:+ NL +:+
       "  task " +:+ quoted "Analyze" +:+ " {" +:+ NL +:+
       "  }" +:+ NL +:+ NL +:+
       "  // Define dependencies" +:+ NL +:+
       "  dependencies {" +:+ NL +:+
       "    " +:+ quoted "Check" +:+ " -> " +:+ quoted "Analyze" +:+ NL +:+
       "  }" +:+ NL +:+
       "}" +:+ NL.
Proof.
  split; [now left|]. repeat split; vm_compute; reflexivity.
Qed.

End Generator.

Section GeneratorWitness.
Import Lexer DslParser DslGenerator Examples.

Lemma round_trip_rejected_witness :
  parse constant_env (generate show_integer w_conditional)
  = Throw "Expected identifier at line 12, column 24"
  /\ parse constant_env (generate show_integer w_retries)
     = Throw "Expected task node property at line 6, column 5".
Proof.
  pose proof (round_trip_rejected constant_env show_integer eq_refl) as H.
  split.
  - exact (proj2 (proj2 (proj1 H))).
  - exact (proj2 (proj2 H)).
Defined.

End GeneratorWitness.

(* ------------------------------------------------------------------ *)
(** ** WorkflowModel, TrackModel, DependencyModel, NodeModel: the other operations *)
(* ------------------------------------------------------------------ *)

Section ModelOperations.
Import Lexer Examples.

Lemma filter_all_true {A} (f : A -> bool) (l : list A) :
  (forall x, In x l -> f x = true) -> List.filter f l = l.
Proof.
  induction l as [|a l IH]; cbn; intros H; [reflexivity|].
  rewrite (H a (or_introl eq_refl)). f_equal. apply IH. auto.
Qed.

Lemma filter_idem {A} (f : A -> bool) (l : list A) :
  List.filter f (List.filter f l) = List.filter f l.
Proof.
  apply filter_all_true. intros x Hx. now apply filter_In in Hx.
Qed.

Lemma find_app {A} (f : A -> bool) (l1 l2 : list A) :
  List.find f (l1 ++ l2)
  = match List.find f l1 with
    | Some x => Some x
    | None => List.find f l2
    end.
Proof.
  induction l1 as [|a l1 IH]; cbn; [reflexivity|].
  destruct (f a); [reflexivity | exact IH].
Qed.

(** X1.  [removeDependency] drops exactly the dependencies that join the
    given source to the given target, whatever their type and however
    many there are, and keeps the others in their order and as often as
    they occurred; it leaves nodes and tracks alone, and it answers
    [true] exactly when some dependency joined that pair. *)
Theorem removeDependency_spec (w : Workflow) (s t : NodeId) :
  let w' := fst (WorkflowModel.removeDependency s t w) in
  dependencies w'
  = List.filter (fun d => negb (String.eqb (sourceId d) s
                                && String.eqb (targetId d) t))
                (dependencies w)
  /\ (forall d, In d (dependencies w') <->
             In d (dependencies w) /\ ~ (sourceId d = s /\ targetId d = t))
  /\ nodes w' = nodes w
  /\ tracks w' = tracks w
  /\ (snd (WorkflowModel.removeDependency s t w) = true <->
      exists d, In d (dependencies w) /\ sourceId d = s /\ targetId d = t).
Proof.
  cbn zeta. refine (conj eq_refl (conj _ (conj eq_refl (conj eq_refl _)))).
  - intros d. cbn. rewrite filter_In, negb_true_iff, andb_false_iff.
    rewrite !String.eqb_neq.
    destruct (string_dec (sourceId d) s), (string_dec (targetId d) t); tauto.
  - cbn. rewrite filter_length_changed. split.
    + intros (d & Hd & Hf). exists d. split; [exact Hd|].
      apply negb_false_iff, andb_true_iff in Hf as [H1 H2].
      now rewrite String.eqb_eq in H1, H2.
    + intros (d & Hd & H1 & H2). exists d. split; [exact Hd|].
      apply negb_false_iff, andb_true_iff. now rewrite !String.eqb_eq.
Qed.

(** X2.  Removing the same node a second time changes nothing and
    answers [false]. *)
Theorem removeNode_idempotent (w : Workflow) (nodeId : NodeId) :
  WorkflowModel.removeNode nodeId (fst (WorkflowModel.removeNode nodeId w))
  = (fst (WorkflowModel.removeNode nodeId w), false).
Proof.
  unfold WorkflowModel.removeNode. cbn.
  rewrite !filter_idem, Nat.eqb_refl. cbn. f_equal. f_equal.
  rewrite List.map_map. apply List.map_ext. intros t. cbn.
  now rewrite filter_idem.
Qed.

(** X3.  [addNode] appends without looking at ids: after it, [getNode]
    still answers with the node that carried the id before, and with the
    new node only when no earlier node carries its id. *)
Theorem addNode_getNode (w : Workflow) (n : WorkflowNode) (i : NodeId) :
  WorkflowModel.getNode i (fst (WorkflowModel.addNode n w))
  = match WorkflowModel.getNode i w with
    | Some m => Some m
    | None => if String.eqb (node_id n) i then Some n else None
    end.
Proof.
  unfold WorkflowModel.getNode, WorkflowModel.addNode. cbn.
  rewrite find_app. reflexivity.
Qed.

(** X4.  Adding a node whose id is not in use by a node, a dependency
    end or a track, and removing it again, gives back the workflow and
    answers [true]. *)
Theorem addNode_removeNode (w : Workflow) (n : WorkflowNode) :
  ~ In (node_id n) (List.map node_id (nodes w)) ->
  (forall d, In d (dependencies w) ->
             sourceId d <> node_id n /\ targetId d <> node_id n) ->
  (forall t, In t (tracks w) -> ~ In (node_id n) (nodeIds t)) ->
  WorkflowModel.removeNode (node_id n) (fst (WorkflowModel.addNode n w))
  = (w, true).
Proof.
  intros Hfresh Hdeps Htracks.
  unfold WorkflowModel.removeNode, WorkflowModel.addNode. cbn.
  rewrite List.filter_app. cbn. rewrite String.eqb_refl. cbn.
  rewrite app_nil_r.
  rewrite (filter_all_true _ (nodes w)).
  2:{ intros x Hx. apply eqb_neq_true. intros He. apply Hfresh.
      rewrite <- He. now apply in_map. }
  rewrite (filter_all_true _ (dependencies w)).
  2:{ intros d Hd. destruct (Hdeps d Hd) as [H1 H2].
      apply andb_true_iff. now rewrite !eqb_neq_true. }
  replace (List.map _ (tracks w)) with (tracks w).
  2:{ symmetry. erewrite List.map_ext_in; [apply List.map_id|].
      intros t Ht. cbn. rewrite filter_all_true.
      - now destruct t.
      - intros i Hi. apply eqb_neq_true. intros ->.
        now apply (Htracks t Ht). }
  rewrite length_app. cbn [List.length].
  rewrite (proj2 (Nat.eqb_neq _ _)) by lia.
  now destruct w.
Qed.

Lemma addNode_removeNode_witness :
  WorkflowModel.removeNode "x"
    (fst (WorkflowModel.addNode (bare_node "x" TASK "Extra") w_decision))
  = (w_decision, true).
Proof.
  apply (addNode_removeNode w_decision (bare_node "x" TASK "Extra")).
  - cbn. intuition discriminate.
  - intros d [<- | []]. split; discriminate.
  - intros t [<- | []]. cbn. intuition discriminate.
Defined.


(** X5.  After [removeTrack] no track carries the id, the other ids
    are looked up as before, nodes and dependencies are untouched (so
    nodes keep a [trackId] that names the removed track), and the answer
    is [true] exactly when the id was in use. *)
Theorem removeTrack_spec (w : Workflow) (t : TrackId) :
  let w' := fst (WorkflowModel.removeTrack t w) in
  WorkflowModel.getTrack t w' = None
  /\ (forall i, i <> t ->
                WorkflowModel.getTrack i w' = WorkflowModel.getTrack i w)
  /\ nodes w' = nodes w
  /\ dependencies w' = dependencies w
  /\ (snd (WorkflowModel.removeTrack t w) = true <->
      WorkflowModel.getTrack t w <> None).
Proof.
  cbn zeta. refine (conj _ (conj _ (conj eq_refl (conj eq_refl _)))).
  - unfold WorkflowModel.getTrack. cbn.
    destruct (List.find _ _) as [x|] eqn:Hf; [|reflexivity].
    apply find_some in Hf as [Hin He]. apply filter_In in Hin as [_ Hne].
    rewrite He in Hne. discriminate.
  - intros i Hi. unfold WorkflowModel.getTrack. cbn.
    induction (tracks w) as [|x l IH]; cbn; [reflexivity|].
    destruct (String.eqb (track_id x) t) eqn:Hx; cbn.
    + apply String.eqb_eq in Hx.
      replace (String.eqb (track_id x) i) with false; [exact IH|].
      symmetry. apply String.eqb_neq. congruence.
    + destruct (String.eqb (track_id x) i); [reflexivity | exact IH].
  - cbn. rewrite filter_length_changed. unfold WorkflowModel.getTrack. split.
    + intros (x & Hx & Hf). apply negb_false_iff in Hf.
      intros Hnone. apply find_none with (x := x) in Hnone; [|exact Hx].
      congruence.
    + intros Hsome. destruct (List.find _ _) as [x|] eqn:Hf; [|congruence].
      apply find_some in Hf as [Hin He]. exists x. split; [exact Hin|].
      now apply negb_false_iff.
Qed.

(** X6.  [getDependenciesForNode] returns the dependencies that come in
    or go out; a dependency from the node to itself is returned once, so
    the count is the sum of the incoming and outgoing counts less the
    number of self-dependencies. *)
Theorem getDependenciesForNode_spec (w : Workflow) (i : NodeId) :
  (forall d, In d (WorkflowModel.getDependenciesForNode i w) <->
             In d (WorkflowModel.getIncomingDependencies i w)
             \/ In d (WorkflowModel.getOutgoingDependencies i w))
  /\ (List.length (WorkflowModel.getDependenciesForNode i w)
      + List.length (List.filter
                       (fun d => String.eqb (sourceId d) i
                                 && String.eqb (targetId d) i)
                       (dependencies w))
      = List.length (WorkflowModel.getIncomingDependencies i w)
        + List.length (WorkflowModel.getOutgoingDependencies i w))%nat.
Proof.
  unfold WorkflowModel.getDependenciesForNode,
    WorkflowModel.getIncomingDependencies,
    WorkflowModel.getOutgoingDependencies.
  split.
  - intros d. rewrite !filter_In, orb_true_iff. tauto.
  - induction (dependencies w) as [|d l IH]; cbn; [reflexivity|].
    destruct (String.eqb (sourceId d) i), (String.eqb (targetId d) i);
      cbn; lia.
Qed.

(** X7.  After [removeNode] the workflow has a valid structure exactly
    when a start node and an end node with another id were there
    before. *)
Theorem hasValidStructure_after_removeNode (w : Workflow) (i : NodeId) :
  WorkflowModel.hasValidStructure (fst (WorkflowModel.removeNode i w)) = true
  <-> (exists s, In s (nodes w) /\ node_type s = START /\ node_id s <> i)
      /\ (exists e, In e (nodes w) /\ node_type e = END /\ node_id e <> i).
Proof.
  unfold WorkflowModel.hasValidStructure, WorkflowModel.getStartNode,
    WorkflowModel.getEndNodes. cbn.
  split.
  - destruct (List.find _ _) as [s|] eqn:Hs; [|discriminate].
    apply find_some in Hs as [Hs Hst]. apply filter_In in Hs as [Hs Hne].
    destruct (List.filter _ (List.filter _ _)) as [|e l] eqn:He;
      [discriminate|]. intros _.
    assert (Hin : In e (e :: l)) by now left.
    rewrite <- He in Hin. apply filter_In in Hin as [Hin Het].
    apply filter_In in Hin as [Hin Hne'].
    split.
    + exists s. repeat split; [exact Hs | | now apply eqb_neq_true].
      now destruct (node_type s).
    + exists e. repeat split; [exact Hin | | now apply eqb_neq_true].
      now destruct (node_type e).
  - intros [(s & Hs & Hst & Hsi) (e & He & Het & Hei)].
    destruct (List.find _ _) eqn:Hf.
    + assert (Hin : In e (List.filter
                            (fun node => NodeType_eqb (node_type node) END)
                            (List.filter
                               (fun node => negb (String.eqb (node_id node) i))
                               (nodes w)))).
      { apply filter_In. split; [|now rewrite Het].
        apply filter_In. split; [exact He | now apply eqb_neq_true]. }
      destruct (List.filter _ (List.filter _ _)); [destruct Hin | reflexivity].
    + apply find_none with (x := s) in Hf.
      * now rewrite Hst in Hf.
      * apply filter_In. split; [exact Hs | now apply eqb_neq_true].
Qed.

End ModelOperations.

Section TrackOperations.
Import TrackModel Examples.

Lemma containsNode_In (i : NodeId) (t : Track) :
  containsNode i t = true <-> In i (nodeIds t).
Proof.
  unfold containsNode. rewrite existsb_exists. split.
  - intros (x & Hx & He). apply String.eqb_eq in He. now subst.
  - intros H. exists i. split; [exact H | apply String.eqb_refl].
Qed.

(** X8.  A track whose member ids are pairwise distinct keeps them so
    under [addNode] and [removeNode]; adding twice is adding once; a
    removed id is no longer contained; and adding an id that was not
    contained and removing it again gives back the track. *)
Theorem track_members_distinct (t : Track) (i : NodeId) :
  List.NoDup (nodeIds t) ->
  List.NoDup (nodeIds (addNode i t))
  /\ List.NoDup (nodeIds (fst (removeNode i t)))
  /\ containsNode i (addNode i t) = true
  /\ addNode i (addNode i t) = addNode i t
  /\ containsNode i (fst (removeNode i t)) = false
  /\ (containsNode i t = false -> removeNode i (addNode i t) = (t, true)).
Proof.
  intros Hnd.
  assert (Hadd : containsNode i (addNode i t) = true).
  { unfold addNode. destruct (containsNode i t) eqn:Hc; cbn [negb];
      [exact Hc|].
    apply containsNode_In. cbn. apply in_or_app. right. now left. }
  refine (conj _ (conj _ (conj Hadd (conj _ (conj _ _))))).
  - unfold addNode. destruct (containsNode i t) eqn:Hc; cbn; [exact Hnd|].
    apply NoDup_Add with (a := i) (l := nodeIds t).
    + rewrite <- (app_nil_r (nodeIds t)) at 1.
      apply Add_app.
    + split; [exact Hnd|]. intros Hin. apply containsNode_In in Hin.
      congruence.
  - cbn. now apply List.NoDup_filter.
  - unfold addNode at 1. now rewrite Hadd.
  - apply not_true_is_false. intros Hc. apply containsNode_In in Hc.
    cbn in Hc. apply filter_In in Hc as [_ Hc].
    now rewrite String.eqb_refl in Hc.
  - intros Hc. unfold addNode. rewrite Hc. cbn.
    unfold removeNode. cbn. rewrite List.filter_app. cbn.
    rewrite String.eqb_refl. cbn. rewrite app_nil_r.
    rewrite filter_all_true.
    + rewrite length_app. cbn [List.length].
      rewrite (proj2 (Nat.eqb_neq _ _)) by (unfold NodeId; lia).
      now destruct t.
    + intros x Hx. apply eqb_neq_true. intros ->.
      apply containsNode_In in Hx. congruence.
Qed.

Lemma track_members_distinct_witness :
  removeNode "n9" (addNode "n9" (track_of "track-1" "Main" ["n1"; "n2"]))
  = (track_of "track-1" "Main" ["n1"; "n2"], true).
Proof.
  refine (proj2 (proj2 (proj2 (proj2 (proj2
            (track_members_distinct
               (track_of "track-1" "Main" ["n1"; "n2"]) "n9" _))))) eq_refl).
  repeat constructor; cbn; intuition discriminate.
Defined.

End TrackOperations.

Section DependencyOperations.
Import Lexer DependencyModel Examples.

(** X9.  The [DependencyModel] constructor throws exactly when the
    source or the target id is missing or empty, always with the same
    message; otherwise it copies both ids, the condition and the
    metadata, and the type defaults to sequential. *)
Theorem dependency_constructor_spec (p : PartialDependency) :
  match constructor p with
  | Ok d =>
      p_sourceId p = Some (sourceId d) /\ sourceId d <> EmptyString
      /\ p_targetId p = Some (targetId d) /\ targetId d <> EmptyString
      /\ dep_type d = default SEQUENTIAL (p_type p)
      /\ condition d = p_condition p
      /\ dep_metadata d = p_metadata p
  | Throw msg =>
      msg = "Dependency must have source and target node IDs"
      /\ (p_sourceId p = None \/ p_sourceId p = Some EmptyString
          \/ p_targetId p = None \/ p_targetId p = Some EmptyString)
  | OutOfFuel => False
  end.
Proof.
  unfold constructor.
  destruct (p_sourceId p) as [s|]; cbn; [|split; [reflexivity | tauto]].
  destruct (String.eqb s EmptyString) eqn:Hs; cbn.
  { apply String.eqb_eq in Hs. subst. split; [reflexivity | tauto]. }
  destruct (p_targetId p) as [t|]; cbn; [|split; [reflexivity | tauto]].
  destruct (String.eqb t EmptyString) eqn:Ht; cbn.
  { apply String.eqb_eq in Ht. subst. split; [reflexivity | tauto]. }
  apply String.eqb_neq in Hs, Ht. repeat split; try assumption; reflexivity.
Qed.

(** X10.  [setCondition] makes a dependency conditional and stores the
    condition; [removeCondition] clears the condition and leaves a type
    other than conditional, turning conditional into sequential and
    keeping every other type. *)
Theorem condition_toggle (d : Dependency) (c : Condition) :
  isConditional (setCondition c d) = true
  /\ setCondition c d = with_type_condition CONDITIONAL (Some c) d
  /\ removeCondition (setCondition c d) = with_type_condition SEQUENTIAL None d
  /\ isConditional (removeCondition d) = false
  /\ dep_type (removeCondition d) <> CONDITIONAL
  /\ condition (removeCondition d) = None
  /\ (dep_type d = CONDITIONAL ->
      removeCondition d = with_type_condition SEQUENTIAL None d)
  /\ (dep_type d <> CONDITIONAL ->
      removeCondition d = with_type_condition (dep_type d) None d).
Proof.
  unfold isConditional, setCondition, removeCondition, with_type_condition.
  destruct d as [s t ty co de me]. cbn.
  destruct ty; cbn; repeat split; try reflexivity; try discriminate;
    intros H; congruence.
Qed.

End DependencyOperations.

Section NodeOperations.
Import NodeModel Examples.

Lemma splice1_delete {A} (i : nat) (xs : list A) :
  (i < List.length xs)%nat -> splice1 (Z.of_nat i) xs = delete i xs.
Proof.
  intros Hi. unfold splice1.
  replace (Z.of_nat i <? 0) with false by (symmetry; apply Z.ltb_ge; lia).
  rewrite Z.min_l by lia. rewrite Nat2Z.id.
  revert i Hi. induction xs as [|x xs IH]; intros i Hi; [cbn in Hi; lia|].
  destruct i as [|i]; cbn; [now rewrite drop_0|].
  f_equal. apply IH. cbn in Hi. lia.
Qed.

(** X11.  [removeResourceRequirement] answers [false] and changes
    nothing only for an index at or beyond the length.  Every smaller
    index, negative ones included, answers [true] and removes one
    element: the one at the index, the one counted from the end for a
    negative index, and the first one for an index below minus the
    length. *)
Theorem removeResourceRequirement_bounds (n : WorkflowNode)
    (rs : list ResourceRequirement) (index : Z) :
  resourceRequirements n = Some rs ->
  let len := Z.of_nat (List.length rs) in
  let n' := fst (removeResourceRequirement index n) in
  (snd (removeResourceRequirement index n) = true <-> index < len)
  /\ (len <= index -> n' = n)
  /\ (0 <= index < len ->
      resourceRequirements n' = Some (delete (Z.to_nat index) rs))
  /\ (- len <= index < 0 ->
      resourceRequirements n' = Some (delete (Z.to_nat (len + index)) rs))
  /\ (index < - len -> resourceRequirements n' = Some (List.tl rs)).
Proof.
  intros Hrs. cbn zeta. unfold removeResourceRequirement. rewrite Hrs.
  destruct (Z.of_nat (List.length rs) <=? index) eqn:Hle.
  - apply Z.leb_le in Hle. cbn.
    repeat split; try (intros; lia); try discriminate; reflexivity.
  - apply Z.leb_gt in Hle. cbn.
    split; [tauto|]. split; [lia|]. split; [|split].
    + intros [H0 _]. f_equal.
      rewrite <- (Z2Nat.id index) at 1 by lia.
      apply splice1_delete. lia.
    + intros [Hlo Hhi]. f_equal. unfold splice1.
      replace (index <? 0) with true by (symmetry; apply Z.ltb_lt; lia).
      rewrite Z.max_l by lia.
      pose proof (splice1_delete (Z.to_nat (Z.of_nat (List.length rs) + index))
                    rs ltac:(lia)) as Hs.
      rewrite <- Hs. unfold splice1.
      replace (_ <? 0) with false by (symmetry; apply Z.ltb_ge; lia).
      rewrite Z.min_l by lia. now rewrite Nat2Z.id.
    + intros Hlo. f_equal. unfold splice1.
      replace (index <? 0) with true by (symmetry; apply Z.ltb_lt; lia).
      rewrite Z.max_r by lia. cbn. now destruct rs.
Qed.

Lemma removeResourceRequirement_bounds_witness :
  resourceRequirements
    (fst (removeResourceRequirement (-1)
            (with_resourceRequirements
               (Some [DslParser.resource_of "cpu" (Num 2);
                      DslParser.resource_of "memory" (Num 4096)])
               (bare_node "n1" TASK "Load"))))
  = Some [DslParser.resource_of "cpu" (Num 2)].
Proof.
  exact (proj1 (proj2 (proj2 (proj2
           (removeResourceRequirement_bounds
              (with_resourceRequirements
                 (Some [DslParser.resource_of "cpu" (Num 2);
                        DslParser.resource_of "memory" (Num 4096)])
                 (bare_node "n1" TASK "Load"))
              _ (-1) eq_refl)))) ltac:(cbn; lia)).
Defined.

End NodeOperations.

(* ------------------------------------------------------------------ *)
(** ** ValidationService: orphan check and validator loop *)
(* ------------------------------------------------------------------ *)

Section ValidationExtras.
Import Validation Graph Examples.

(** X12.  Whatever the ids of the nodes are, every error that
    [checkOrphanedNodes] reports is the orphan error of a node of the
    workflow that is neither start- nor end-typed and is the source or
    target of no dependency. *)
Theorem checkOrphanedNodes_sound (w : Workflow) (e : ValidationError) :
  In e (checkOrphanedNodes w) ->
  exists n,
    In n (nodes w) /\ e = orphan_error n
    /\ is_start n = false /\ is_end n = false
    /\ (forall d, In d (dependencies w) ->
                  sourceId d <> node_id n /\ targetId d <> node_id n).
Proof.
  unfold checkOrphanedNodes. rewrite flat_map_if.
  intros He. apply in_map_iff in He as (n & <- & Hn).
  apply filter_In in Hn as [Hn Hdeps].
  apply filter_In in Hn as [Hn Hterm].
  exists n. split; [exact Hn|]. split; [reflexivity|].
  apply andb_true_iff in Hterm as [Hs He].
  apply andb_true_iff in Hdeps as [Hin Hout].
  rewrite negb_true_iff in Hs, He, Hin, Hout.
  split; [|split].
  - destruct (is_start n) eqn:Hst; [|reflexivity].
    rewrite <- Hs. symmetry. apply includes_filter. exists n.
    now rewrite type_is_start.
  - destruct (is_end n) eqn:Hen; [|reflexivity].
    rewrite <- He. symmetry. apply includes_filter. exists n.
    now rewrite type_is_end.
  - intros d Hd. split; intros Heq.
    + assert (existsb (fun dep => String.eqb (sourceId dep) (node_id n))
                      (dependencies w) = true); [|congruence].
      apply existsb_exists. exists d. split; [exact Hd|].
      now apply String.eqb_eq.
    + assert (existsb (fun dep => String.eqb (targetId dep) (node_id n))
                      (dependencies w) = true); [|congruence].
      apply existsb_exists. exists d. split; [exact Hd|].
      now apply String.eqb_eq.
Qed.

Lemma checkOrphanedNodes_sound_witness :
  exists n, In n (nodes w_isolated)
            /\ orphan_error (bare_node "t" TASK "Work") = orphan_error n.
Proof.
  destruct (checkOrphanedNodes_sound w_isolated
              (orphan_error (bare_node "t" TASK "Work"))
              (or_introl eq_refl)) as (n & Hn & He & _).
  exists n. split; assumption.
Defined.

Lemma run_validators_app (vs : list WorkflowValidator) (w : Workflow)
    (ess : list (list ValidationError)) (acc : list ValidationError) :
  Forall2 (fun v es => validate v w = Some es) vs ess ->
  run_validators vs w acc = Some (acc ++ concat ess).
Proof.
  intros H. revert acc. induction H as [|v es vs ess Hv _ IH]; intros acc.
  - cbn. now rewrite app_nil_r.
  - cbn. rewrite Hv, IH. now rewrite <- app_assoc.
Qed.

(** X13.  [validateWorkflow] returns the errors of the registered
    validators, concatenated in registration order, and the result is
    valid exactly when every validator returned no error. *)
Theorem validateWorkflow_collects (vs : list WorkflowValidator) (w : Workflow)
    (ess : list (list ValidationError)) :
  Forall2 (fun v es => validate v w = Some es) vs ess ->
  validateWorkflow vs w
  = Some {| valid := forallb (fun es => Nat.eqb (List.length es) 0) ess;
            errors := concat ess |}.
Proof.
  intros H. unfold validateWorkflow.
  rewrite (run_validators_app vs w ess [] H). cbn. do 2 f_equal.
  clear H. induction ess as [|es ess IH]; [reflexivity|].
  cbn. rewrite length_app. destruct es; cbn; [exact IH | reflexivity].
Qed.

Lemma validateWorkflow_collects_witness :
  validateWorkflow [CircularDependencyValidator; CircularDependencyValidator]
    w_chain
  = Some {| valid := true; errors := [] |}.
Proof.
  apply (validateWorkflow_collects
           [CircularDependencyValidator; CircularDependencyValidator]
           w_chain [[]; []]).
  constructor; [vm_compute; reflexivity|].
  constructor; [vm_compute; reflexivity|].
  constructor.
Defined.

End ValidationExtras.

(* ------------------------------------------------------------------ *)
(** ** The cycle check decides reachability of a cycle *)
(* ------------------------------------------------------------------ *)

Section CycleCharacterisation.
Import Validation Graph GraphMore Examples.

Variable w : Workflow.

(** *** What a search adds to the errors and does to the stack *)

Lemma dfs_loop_effect
    (rec : NodeId -> list NodeId -> DfsState -> option (bool * DfsState))
    (nodeId : NodeId) (path : list NodeId) (S0 : gset NodeId) :
  nodeId ∉ S0 ->
  forall deps0,
    (forall dep st b st',
        In dep deps0 ->
        rec (targetId dep) path st = Some (b, st') ->
        if b then exists cycle,
                 dfs_errors st' = dfs_errors st ++ [cycle_error cycle]
        else dfs_errors st' = dfs_errors st
             /\ recursionStack st' = recursionStack st) ->
    forall st b st',
      recursionStack st = {[ nodeId ]} ∪ S0 ->
      dfs_loop rec nodeId path deps0 st = Some (b, st') ->
      if b then exists cycle,
               dfs_errors st' = dfs_errors st ++ [cycle_error cycle]
      else dfs_errors st' = dfs_errors st /\ recursionStack st' = S0.
Proof.
  intros Hfresh deps0.
  induction deps0 as [|dep deps0 IH]; intros Hrec st b st' Hst Hrun.
  - cbn in Hrun. injection Hrun as Hb Hs. subst b st'. cbn.
    split; [reflexivity|]. rewrite Hst. set_solver.
  - cbn in Hrun.
    destruct (rec (targetId dep) path st) as [[[] st1]|] eqn:Hcall;
      try discriminate.
    + injection Hrun as Hb Hs. subst b st'.
      exact (Hrec dep st true st1 (or_introl eq_refl) Hcall).
    + destruct (Hrec dep st false st1 (or_introl eq_refl) Hcall) as [He Hs].
      specialize (IH (fun d s b0 s' Hd => Hrec d s b0 s' (or_intror Hd))
                     st1 b st' (eq_trans Hs Hst) Hrun).
      destruct b.
      * destruct IH as (cycle & Hc). exists cycle. congruence.
      * destruct IH as [He' Hs']. split; congruence.
Qed.

Lemma dfs_effect (fuel : nat) :
  forall nodeId path st b st',
    dfs fuel w nodeId path st = Some (b, st') ->
    if b then exists cycle,
             dfs_errors st' = dfs_errors st ++ [cycle_error cycle]
    else dfs_errors st' = dfs_errors st
         /\ recursionStack st' = recursionStack st.
Proof.
  induction fuel as [|fuel IH]; intros nodeId path st b st' Hrun;
    [discriminate|].
  cbn [dfs] in Hrun.
  case_bool_decide as Hstack.
  { injection Hrun as Hb Hs. subst b st'. cbn. eauto. }
  case_bool_decide as Hvis.
  { injection Hrun as Hb Hs. subst b st'. auto. }
  eapply (dfs_loop_effect _ nodeId _ (recursionStack st) Hstack) in Hrun;
    [exact Hrun | | reflexivity].
  intros dep st0 b0 st0' _ Hcall. exact (IH _ _ _ _ _ Hcall).
Qed.


(** *** A search that finds nothing leaves an order behind *)

Lemma edge_outgoing (x y : NodeId) :
  edge w x y <->
  exists dep,
    In dep (List.filter (fun dep => String.eqb (sourceId dep) x)
                        (dependencies w))
    /\ targetId dep = y.
Proof.
  split.
  - intros (d & Hd & Hs & Ht). exists d. split; [|exact Ht].
    apply filter_In. split; [exact Hd | now apply String.eqb_eq].
  - intros (d & Hd & Ht). apply filter_In in Hd as [Hd Hs].
    apply String.eqb_eq in Hs. now exists d.
Qed.

Lemma dfs_loop_ordered
    (rec : NodeId -> list NodeId -> DfsState -> option (bool * DfsState))
    (nodeId : NodeId) (path : list NodeId) :
  forall deps0,
    (forall dep st st' r n,
        In dep deps0 ->
        ordered w st r n ->
        rec (targetId dep) path st = Some (false, st') ->
        outcome_ordered w st r st' /\ targetId dep ∈ finished st') ->
    forall st st' r n,
      ordered w st r n ->
      dfs_loop rec nodeId path deps0 st = Some (false, st') ->
      exists mid r' n',
        st' = {| dfs_errors := dfs_errors mid;
                 visited := visited mid;
                 recursionStack := recursionStack mid ∖ {[ nodeId ]} |}
        /\ ordered w mid r' n'
        /\ recursionStack mid = recursionStack st
        /\ visited st ⊆ visited mid
        /\ (forall z, z ∈ finished st -> r' z = r z)
        /\ (forall dep, In dep deps0 -> targetId dep ∈ finished mid).
Proof.
  induction deps0 as [|dep deps0 IH]; intros Hrec st st' r n Hord Hrun.
  - cbn in Hrun. injection Hrun as Hs. subst st'.
    exists st, r, n.
    split; [reflexivity|]. split; [exact Hord|]. split; [reflexivity|].
    split; [done|]. split; [done|]. intros dep [].
  - cbn in Hrun.
    destruct (rec (targetId dep) path st) as [[[] st1]|] eqn:Hcall;
      try discriminate.
    destruct (Hrec dep st st1 r n (or_introl eq_refl) Hord Hcall)
      as [(r1 & n1 & Hord1 & Hs1 & Hv1 & Hagree1) Hfin1].
    destruct (IH (fun d s s' r0 n0 Hd => Hrec d s s' r0 n0 (or_intror Hd))
                 st1 st' r1 n1 Hord1 Hrun)
      as (mid & r' & n' & Hst' & Hord' & Hs' & Hv' & Hagree' & Hfin').
    assert (Hmono : finished st1 ⊆ finished mid).
    { unfold finished. rewrite Hs'. set_solver. }
    assert (Hmono0 : finished st ⊆ finished st1).
    { unfold finished. rewrite Hs1. set_solver. }
    exists mid, r', n'. split; [exact Hst'|]. split; [exact Hord'|].
    split; [congruence|]. split; [set_solver|]. split.
    + intros z Hz. rewrite Hagree' by set_solver. now apply Hagree1.
    + intros d [<- | Hd]; [set_solver | now apply Hfin'].
Qed.

Lemma dfs_ordered (fuel : nat) :
  forall nodeId path st st' r n,
    ordered w st r n ->
    dfs fuel w nodeId path st = Some (false, st') ->
    outcome_ordered w st r st' /\ nodeId ∈ finished st'.
Proof.
  induction fuel as [|fuel IH]; intros nodeId path st st' r n Hord Hrun;
    [discriminate|].
  cbn [dfs] in Hrun.
  case_bool_decide as Hstack; [discriminate|].
  case_bool_decide as Hvis.
  { injection Hrun as Hs. subst st'. split.
    - exists r, n.
      split; [exact Hord|]. split; [reflexivity|]. split; done.
    - unfold finished. set_solver. }
  set (st1 := {| dfs_errors := dfs_errors st;
                 visited := {[ nodeId ]} ∪ visited st;
                 recursionStack := {[ nodeId ]} ∪ recursionStack st |}) in *.
  assert (Hfin1 : finished st1 = finished st).
  { unfold finished, st1. cbn. set_solver. }
  assert (Hord1 : ordered w st1 r n).
  { unfold ordered. rewrite Hfin1. exact Hord. }
  destruct (dfs_loop_ordered (dfs fuel w) nodeId (path ++ [nodeId]) _
              (fun dep s s' r0 n0 _ Ho Hc => IH _ _ s s' r0 n0 Ho Hc)
              st1 st' r n Hord1 Hrun)
    as (mid & r' & n' & Hst' & Hord' & Hs' & Hv' & Hagree' & Hfin').
  assert (Hx_mid : nodeId ∉ finished mid).
  { unfold finished. rewrite Hs'. cbn. set_solver. }
  assert (Hfin_st' : finished st' = {[ nodeId ]} ∪ finished mid).
  { subst st'. unfold finished. cbn. rewrite Hs'. cbn.
    apply set_eq. intros z. cbn in Hv'.
    destruct (decide (z = nodeId)) as [-> | Hne]; set_solver. }
  split.
  - exists (fun z => if decide (z = nodeId) then n' else r' z), (S n').
    split; [split|].
    + intros z Hz. rewrite Hfin_st' in Hz. case_decide; [lia|].
      destruct Hord' as [Hlt _]. specialize (Hlt z ltac:(set_solver)). lia.
    + intros z y Hz Hedge. rewrite Hfin_st' in Hz. rewrite Hfin_st'.
      destruct (decide (z = nodeId)) as [-> | Hne].
      * apply edge_outgoing in Hedge as (dep & Hdep & <-).
        specialize (Hfin' dep Hdep).
        split; [set_solver|].
        destruct (decide (targetId dep = nodeId)) as [He | _];
          [rewrite He in Hfin'; contradiction|].
        destruct Hord' as [Hlt _]. now apply Hlt.
      * destruct Hord' as [_ Hclosed].
        destruct (Hclosed z y ltac:(set_solver) Hedge) as [Hy Hlt].
        split; [set_solver|].
        destruct (decide (y = nodeId)) as [-> | _]; [contradiction|].
        exact Hlt.
    + subst st'. cbn. rewrite Hs'. cbn.
      split; [set_solver|]. split; [cbn in Hv'; set_solver|].
      intros z Hz. rewrite <- Hfin1 in Hz.
      case_decide as Hzx.
      * subst z. exfalso. apply Hx_mid.
        unfold finished in *. rewrite Hs'. set_solver.
      * now apply Hagree'.
  - rewrite Hfin_st'. set_solver.
Qed.


Lemma finished_closed (st : DfsState) (r : NodeId -> nat) (n : nat)
    (z y : NodeId) :
  ordered w st r n -> z ∈ finished st -> tc (edge w) z y ->
  y ∈ finished st /\ (r y < r z)%nat.
Proof.
  intros [_ Hclosed] Hz Htc. induction Htc as [z y Hzy | z m y Hzm _ IH].
  - now apply Hclosed.
  - destruct (Hclosed z m Hz Hzm) as [Hm Hlt].
    destruct (IH Hm) as [Hy Hlt']. split; [exact Hy | lia].
Qed.

(** *** A search that reports an error has met a cycle *)

Lemma dfs_loop_genuine
    (rec : NodeId -> list NodeId -> DfsState -> option (bool * DfsState))
    (root nodeId : NodeId) (path : list NodeId) :
  forall deps0,
    (forall dep st b st',
        In dep deps0 ->
        recursionStack st = list_to_set path ->
        rec (targetId dep) path st = Some (b, st') ->
        if b then exists y, rtc (edge w) root y /\ tc (edge w) y y
        else recursionStack st' = recursionStack st) ->
    forall st st',
      recursionStack st = list_to_set path ->
      dfs_loop rec nodeId path deps0 st = Some (true, st') ->
      exists y, rtc (edge w) root y /\ tc (edge w) y y.
Proof.
  induction deps0 as [|dep deps0 IH]; intros Hrec st st' Hst Hrun.
  - discriminate.
  - cbn in Hrun.
    destruct (rec (targetId dep) path st) as [[[] st1]|] eqn:Hcall;
      try discriminate.
    + exact (Hrec dep st true st1 (or_introl eq_refl) Hst Hcall).
    + pose proof (Hrec dep st false st1 (or_introl eq_refl) Hst Hcall) as Hs.
      apply (IH (fun d s b0 s' Hd => Hrec d s b0 s' (or_intror Hd))
                st1 st' (eq_trans Hs Hst) Hrun).
Qed.

Lemma dfs_genuine (root : NodeId) (fuel : nat) :
  forall nodeId path st st',
    recursionStack st = list_to_set path ->
    (forall z, z ∈ path -> tc (edge w) z nodeId) ->
    rtc (edge w) root nodeId ->
    dfs fuel w nodeId path st = Some (true, st') ->
    exists y, rtc (edge w) root y /\ tc (edge w) y y.
Proof.
  induction fuel as [|fuel IH]; intros nodeId path st st' Hst Hpath Hroot Hrun;
    [discriminate|].
  cbn [dfs] in Hrun.
  case_bool_decide as Hstack.
  { exists nodeId. split; [exact Hroot|]. apply Hpath.
    rewrite Hst in Hstack. now apply elem_of_list_to_set in Hstack. }
  case_bool_decide as Hvis; [discriminate|].
  eapply (dfs_loop_genuine (dfs fuel w) root nodeId (path ++ [nodeId]));
    [ | | exact Hrun].
  - intros dep st0 b st0' Hdep Hst0 Hcall.
    destruct b.
    + apply (IH _ _ _ _ Hst0) in Hcall; [exact Hcall | |].
      * assert (Hedge : edge w nodeId (targetId dep)).
        { apply edge_outgoing. now exists dep. }
        intros z Hz. apply elem_of_app in Hz as [Hz | Hz].
        -- eapply tc_r; [apply Hpath, Hz | exact Hedge].
        -- apply list_elem_of_singleton in Hz. subst z. now apply tc_once.
      * eapply rtc_r; [exact Hroot|]. apply edge_outgoing. now exists dep.
    + now apply dfs_effect in Hcall as [_ Hs].
  - cbn. rewrite Hst, list_to_set_app_L. cbn. set_solver.
Qed.

(** *** All searches together *)

Lemma dfs_all_errors_grow (ns : list WorkflowNode) :
  forall st st',
    dfs_all w ns st = Some st' ->
    exists extra, dfs_errors st' = dfs_errors st ++ extra.
Proof.
  induction ns as [|node ns IH]; intros st st' Hrun; cbn [dfs_all] in Hrun.
  - injection Hrun as <-. exists []. now rewrite app_nil_r.
  - case_bool_decide; [now apply IH|].
    destruct (dfs (dfs_fuel w) w (node_id node) [] st) as [[b st1]|] eqn:Hd;
      [|discriminate].
    apply dfs_effect in Hd. destruct (IH _ _ Hrun) as (extra & He).
    destruct b.
    + destruct Hd as (cycle & Hc). exists (cycle_error cycle :: extra).
      rewrite He, Hc. now rewrite <- app_assoc.
    + destruct Hd as [Hc _]. exists extra. congruence.
Qed.

Lemma dfs_all_ordered (ns : list WorkflowNode) :
  forall st st' r n,
    ordered w st r n ->
    dfs_all w ns st = Some st' ->
    dfs_errors st' = dfs_errors st ->
    exists r' n',
      ordered w st' r' n'
      /\ recursionStack st' = recursionStack st
      /\ visited st ⊆ visited st'
      /\ (forall node, In node ns -> node_id node ∈ visited st').
Proof.
  induction ns as [|node ns IH]; intros st st' r n Hord Hrun Herr;
    cbn [dfs_all] in Hrun.
  - injection Hrun as <-. exists r, n.
    split; [exact Hord|]. split; [reflexivity|]. split; [done|].
    intros node [].
  - case_bool_decide as Hvis.
    { destruct (IH _ _ _ _ Hord Hrun Herr) as (r' & n' & Ho & Hs & Hv & Hall).
      exists r', n'. split; [exact Ho|]. split; [exact Hs|].
      split; [exact Hv|]. intros m [<- | Hm]; [set_solver | now apply Hall]. }
    destruct (dfs (dfs_fuel w) w (node_id node) [] st) as [[b st1]|] eqn:Hd;
      [|discriminate].
    pose proof (dfs_effect _ _ _ _ _ _ Hd) as Heff.
    destruct (dfs_all_errors_grow _ _ _ Hrun) as (extra & Hextra).
    destruct b.
    { exfalso. destruct Heff as (cycle & Hc).
      rewrite Hextra, Hc, <- app_assoc in Herr.
      apply (f_equal (@List.length _)) in Herr.
      rewrite !length_app in Herr. cbn in Herr. lia. }
    destruct Heff as [Herr1 _].
    destruct (dfs_ordered _ _ _ _ _ _ _ Hord Hd)
      as [(r1 & n1 & Hord1 & Hs1 & Hv1 & _) Hfin1].
    destruct (IH _ _ _ _ Hord1 Hrun ltac:(congruence))
      as (r' & n' & Ho & Hs & Hv & Hall).
    exists r', n'. split; [exact Ho|]. split; [congruence|].
    split; [set_solver|].
    intros m [<- | Hm]; [|now apply Hall].
    unfold finished in Hfin1. set_solver.
Qed.

Lemma dfs_all_genuine (ns : list WorkflowNode) :
  forall st st',
    (forall node, In node ns -> In node (nodes w)) ->
    recursionStack st = ∅ ->
    dfs_all w ns st = Some st' ->
    dfs_errors st' <> dfs_errors st ->
    cycle_reachable w.
Proof.
  induction ns as [|node ns IH]; intros st st' Hns Hempty Hrun Herr;
    cbn [dfs_all] in Hrun.
  - injection Hrun as <-. now elim Herr.
  - case_bool_decide as Hvis.
    { apply (IH st st'); auto. intros m Hm. apply Hns. now right. }
    destruct (dfs (dfs_fuel w) w (node_id node) [] st) as [[b st1]|] eqn:Hd;
      [|discriminate].
    destruct b.
    + destruct (dfs_genuine (node_id node) (dfs_fuel w) (node_id node) []
                  st st1) as (y & Hry & Hyy);
        [now rewrite Hempty | | reflexivity | exact Hd |].
      { intros z Hz. now apply elem_of_nil in Hz. }
      exists node, y. split; [apply Hns; now left | split; assumption].
    + apply dfs_effect in Hd as [He Hs].
      apply (IH st1 st'); [| congruence | exact Hrun | congruence].
      intros m Hm. apply Hns. now right.
Qed.

(** X14.  The cycle check returns, and it returns no error exactly when
    no dependency cycle can be reached from a node of the workflow along
    dependencies; it returns at least one error exactly when one can. *)
Theorem cycle_detection_exact :
  (checkCircularDependencies w = Some [] <-> ~ cycle_reachable w)
  /\ ((exists e errs, checkCircularDependencies w = Some (e :: errs))
      <-> cycle_reachable w).
Proof.
  set (st0 := {| dfs_errors := []; visited := ∅; recursionStack := ∅ |}).
  assert (Hnone : checkCircularDependencies w = Some [] ->
                  ~ cycle_reachable w).
  { unfold checkCircularDependencies. fold st0.
    destruct (dfs_all w (nodes w) st0) as [st'|] eqn:Hrun; [|discriminate].
    intros Hres (node & y & Hnode & Hreach & Hcyc).
    injection Hres as Herr.
    destruct (dfs_all_ordered (nodes w) st0 st' (fun _ => 0%nat) 0%nat)
      as (r & n & Hord & Hs & _ & Hall); [ | exact Hrun | exact Herr |].
    { split; intros z; unfold finished; cbn; set_solver. }
    assert (Hfin : node_id node ∈ finished st').
    { unfold finished. rewrite Hs. cbn. specialize (Hall node Hnode).
      set_solver. }
    assert (Hy : y ∈ finished st').
    { apply rtc_tc in Hreach as [<- | Htc]; [exact Hfin|].
      now destruct (finished_closed _ _ _ _ _ Hord Hfin Htc). }
    destruct (finished_closed _ _ _ _ _ Hord Hy Hcyc) as [_ Hlt]. lia. }
  assert (Hsome : forall e errs,
             checkCircularDependencies w = Some (e :: errs) ->
             cycle_reachable w).
  { unfold checkCircularDependencies. fold st0.
    destruct (dfs_all w (nodes w) st0) as [st'|] eqn:Hrun; [|discriminate].
    intros e errs Hres. injection Hres as Herr.
    apply (dfs_all_genuine (nodes w) st0 st'); auto.
    cbn. rewrite Herr. discriminate. }
  destruct (checkCircularDependencies_returns w) as (errs & Hret).
  split; split.
  - exact Hnone.
  - intros Hno. rewrite Hret. destruct errs as [|e errs]; [reflexivity|].
    exfalso. apply Hno. exact (Hsome e errs Hret).
  - intros (e & errs' & Hres). exact (Hsome e errs' Hres).
  - intros Hcyc. destruct errs as [|e errs]; [|eauto].
    exfalso. exact (Hnone Hret Hcyc).
Qed.

End CycleCharacterisation.

(* ------------------------------------------------------------------ *)
(** ** Well-formedness and validation *)
(* ------------------------------------------------------------------ *)

Section WellFormedness.
Import Validation Graph GraphMore WorkflowModel Examples.

Lemma dfs_all_codes (w : Workflow) (ns : list WorkflowNode) :
  forall st st',
    dfs_all w ns st = Some st' ->
    Forall (fun e => code e = CIRCULAR_DEPENDENCY) (dfs_errors st) ->
    Forall (fun e => code e = CIRCULAR_DEPENDENCY) (dfs_errors st').
Proof.
  induction ns as [|node ns IH]; intros st st' Hrun Hst;
    cbn [dfs_all] in Hrun.
  - now injection Hrun as <-.
  - case_bool_decide; [now apply (IH st)|].
    destruct (dfs (dfs_fuel w) w (node_id node) [] st) as [[b st1]|] eqn:Hd;
      [|discriminate].
    apply dfs_effect in Hd. apply (IH st1 st' Hrun).
    destruct b.
    + destruct Hd as (cycle & ->). apply Forall_app. split; [exact Hst|].
      now repeat constructor.
    + destruct Hd as [-> _]. exact Hst.
Qed.

Lemma validators_repeat (w : Workflow) (es : list ValidationError)
    (n : nat) :
  validate CircularDependencyValidator w = Some es ->
  Forall2 (fun v es' => validate v w = Some es')
          (repeat CircularDependencyValidator n) (repeat es n).
Proof. intros H. induction n; cbn; constructor; assumption. Qed.

Lemma concat_repeat_nil {A} (n : nat) : concat (repeat (@nil A) n) = [].
Proof. induction n; cbn; [reflexivity | assumption]. Qed.

(** C3: the validation service has no check for start and end nodes.
    With the cycle validator, the only validator there is, registered
    any number of times, [validateWorkflow] returns the errors of the
    cycle check, once per registration; every one of them has the code
    [circular_dependency], none [missing_start_node] or
    [missing_end_node]; and every workflow whose dependencies are
    acyclic is reported valid, whether or not it has a start node and
    an end node.  The structure check of the model is the one that asks
    for them: it fails exactly when there is no start-typed node or no
    end-typed node. *)
Theorem validateWorkflow_ignores_start_and_end (n : nat) (w : Workflow) :
  (exists es,
      validate CircularDependencyValidator w = Some es
      /\ Forall (fun e => code e = CIRCULAR_DEPENDENCY) es
      /\ validateWorkflow (repeat CircularDependencyValidator n) w
         = Some {| valid := Nat.eqb (List.length (concat (repeat es n))) 0;
                   errors := concat (repeat es n) |})
  /\ (forall rank, acyclic_by rank w ->
        validateWorkflow (repeat CircularDependencyValidator n) w
        = Some {| valid := true; errors := [] |})
  /\ (hasValidStructure w = false <->
      (forall s, In s (nodes w) -> node_type s <> START)
      \/ (forall e, In e (nodes w) -> node_type e <> END)).
Proof.
  assert (Hrun : forall es,
            validate CircularDependencyValidator w = Some es ->
            validateWorkflow (repeat CircularDependencyValidator n) w
            = Some {| valid :=
                        Nat.eqb (List.length (concat (repeat es n))) 0;
                      errors := concat (repeat es n) |}).
  { intros es Hes. unfold validateWorkflow.
    now rewrite (run_validators_app _ w (repeat es n) []
                   (validators_repeat w es n Hes)). }
  split; [|split].
  - destruct (checkCircularDependencies_returns w) as (es & Hes).
    exists es. split; [exact Hes|]. split; [|now apply Hrun].
    unfold checkCircularDependencies in Hes.
    destruct (dfs_all w (nodes w) _) as [st'|] eqn:Hall; [|discriminate].
    injection Hes as <-. apply (dfs_all_codes w _ _ _ Hall). constructor.
  - intros rank Hacyc.
    rewrite (Hrun [] (checkCircularDependencies_acyclic w rank Hacyc)).
    now rewrite concat_repeat_nil.
  - unfold hasValidStructure, getStartNode, getEndNodes. split.
    + destruct (List.find _ _) as [s|] eqn:Hs.
      * destruct (List.filter _ _) as [|e l] eqn:He; [|discriminate].
        intros _. right. intros e Hin Hty.
        assert (In e []) as []. rewrite <- He. apply filter_In.
        split; [exact Hin | now rewrite Hty].
      * intros _. left. intros s Hin Hty.
        apply find_none with (x := s) in Hs; [|exact Hin].
        now rewrite Hty in Hs.
    + intros [Hns | Hne].
      * destruct (List.find _ _) as [s|] eqn:Hs; [|reflexivity].
        apply find_some in Hs as [Hin Hty].
        exfalso. apply (Hns s Hin). now destruct (node_type s).
      * destruct (List.find _ _); [|reflexivity].
        destruct (List.filter _ _) as [|e l] eqn:He; [reflexivity|].
        assert (Hin : In e (e :: l)) by now left.
        rewrite <- He in Hin. apply filter_In in Hin as [Hin Hty].
        exfalso. apply (Hne e Hin). now destruct (node_type e).
Qed.

(** On the workflow of one task, which has no start node: the service
    reports it valid, the structure check does not. *)
Lemma validateWorkflow_ignores_start_and_end_witness :
  nodes w_task_only <> []
  /\ (forall s, In s (nodes w_task_only) -> node_type s <> START)
  /\ validateWorkflow [CircularDependencyValidator] w_task_only
     = Some {| valid := true; errors := [] |}
  /\ hasValidStructure w_task_only = false.
Proof.
  assert (Hns : forall s, In s (nodes w_task_only) -> node_type s <> START).
  { intros s [<- | []]. discriminate. }
  split; [discriminate|]. split; [exact Hns|]. split.
  - apply (proj1 (proj2 (validateWorkflow_ignores_start_and_end
                           1 w_task_only)) (fun _ => 0%nat)).
    intros d [].
  - apply (proj2 (proj2 (validateWorkflow_ignores_start_and_end
                           1 w_task_only))).
    left. exact Hns.
Defined.

End WellFormedness.

(* ------------------------------------------------------------------ *)
(** ** JSON round trip of workflows with repeated ids *)
(* ------------------------------------------------------------------ *)

Section JsonDuplicates.
Import JsonSerializer Examples.





Section Items.
Context {A : Type} (key : A -> string).




Variable f : A -> A.
Hypothesis key_f : forall x, key (f x) = key x.





End Items.



End JsonDuplicates.

(* ------------------------------------------------------------------ *)
(** ** DslGenerator.generateDependencies *)
(* ------------------------------------------------------------------ *)

Section GeneratorNames.
Import DslGenerator GenSpec Examples.
Variable numberToString : number -> string.

Lemma nodeMap_lookup (ns : list WorkflowNode) (m : gmap NodeId string)
    (i : NodeId) :
  fold_left (fun m node => <[ node_id node := node_name node ]> m) ns m !! i
  = match List.find (fun n => String.eqb (node_id n) i) (rev ns) with
    | Some n => Some (node_name n)
    | None => m !! i
    end.
Proof.
  revert m. induction ns as [|n ns IH]; intros m; cbn; [reflexivity|].
  rewrite IH, find_app. destruct (List.find _ (rev ns)); [reflexivity|].
  cbn. destruct (String.eqb (node_id n) i) eqn:He.
  - apply String.eqb_eq in He. subst i. now rewrite lookup_insert_eq.
  - apply String.eqb_neq in He. now rewrite lookup_insert_ne.
Qed.

Lemma append_empty_r (s : string) : s +:+ EmptyString = s.
Proof.
  induction s as [|c s IH]; [reflexivity|].
  change (String c (s +:+ EmptyString) = String c s). now rewrite IH.
Qed.

Lemma append_assoc (a b c : string) : (a +:+ b) +:+ c = a +:+ b +:+ c.
Proof.
  induction a as [|x a IH]; [reflexivity|].
  change (String x ((a +:+ b) +:+ c) = String x (a +:+ b +:+ c)).
  now rewrite IH.
Qed.

Lemma fold_append {A} (f : string -> A -> string) (g : A -> string)
    (l : list A) (acc : string) :
  (forall dsl x, f dsl x = dsl +:+ g x) ->
  fold_left f l acc = acc +:+ String.concat EmptyString (List.map g l).
Proof.
  intros Hf. revert acc. induction l as [|x l IH]; intros acc; cbn.
  - now rewrite append_empty_r.
  - rewrite IH, Hf. destruct l as [|y l]; cbn.
    + now rewrite append_empty_r.
    + now rewrite append_assoc.
Qed.

(** X16.  [generateDependencies] prints one line per dependency, in
    order, between the [dependencies] header and the closing brace; each
    end is shown by the name of the last node that carries the id, or by
    the id itself when no node carries it or that name is empty. *)
Theorem generateDependencies_names (deps : list Dependency)
    (ns : list WorkflowNode) (indent : nat) :
  generateDependencies numberToString deps ns indent
  = repeat_str " " indent +:+ "dependencies {" +:+ NL
    +:+ String.concat EmptyString
          (List.map (dependency_line numberToString ns indent) deps)
    +:+ repeat_str " " indent +:+ "}" +:+ NL.
Proof.
  unfold generateDependencies.
  rewrite (fold_append _ (dependency_line numberToString ns indent)).
  - now rewrite !append_assoc.
  - intros dsl dep. unfold dependency_line, dependency_suffix, name_or_id,
      display_name.
    rewrite !nodeMap_lookup, !lookup_empty.
    destruct (dep_type dep), (condition dep);
      repeat (destruct (List.find _ _)); rewrite ?append_assoc; cbn;
      rewrite ?append_empty_r; reflexivity.
Qed.

End GeneratorNames.

(* ------------------------------------------------------------------ *)
(** ** Conditions: from the generator back through the parser *)
(* ------------------------------------------------------------------ *)

Section ConditionRoundTrip.
Import Grammar Lexer DslParser DslGenerator CondSpec Examples.
Variable numberToString : number -> string.

Lemma list_ascii_of_append (a b : string) :
  list_ascii_of_string (a +:+ b)
  = list_ascii_of_string a ++ list_ascii_of_string b.
Proof.
  induction a as [|c a IH]; [reflexivity|].
  change (c :: list_ascii_of_string (a +:+ b)
          = c :: (list_ascii_of_string a ++ list_ascii_of_string b)).
  now rewrite IH.
Qed.

Lemma split_ws_word (word rest acc : list ascii) (b : bool) :
  forallb (fun c => negb (is_space c)) word = true ->
  split_ws_from acc b (word ++ rest)
  = split_ws_from (rev word ++ acc)
                  (match word with [] => b | _ => false end) rest.
Proof.
  revert acc b. induction word as [|c word IH]; intros acc b Hw;
    [reflexivity|].
  cbn in Hw. apply andb_true_iff in Hw as [Hc Hw].
  apply negb_true_iff in Hc. cbn [app split_ws_from]. rewrite Hc.
  rewrite IH by exact Hw. cbn [rev]. rewrite <- app_assoc. cbn [app].
  now destruct word.
Qed.

Lemma split_ws_three (l o r : string) :
  no_space l = true -> no_space o = true -> no_space r = true ->
  o <> EmptyString ->
  split_ws (l +:+ " " +:+ o +:+ " " +:+ r) = [l; o; r].
Proof.
  unfold no_space, split_ws. intros Hl Ho Hr Hne.
  rewrite !list_ascii_of_append.
  rewrite (split_ws_word _ _ _ _ Hl). cbn [list_ascii_of_string app].
  assert (Hemit : forall acc rest,
             split_ws_from acc false (" "%char :: rest)
             = string_of_list_ascii (rev acc) :: split_ws_from [] true rest)
    by reflexivity.
  replace (match list_ascii_of_string l with [] => false | _ => false end)
    with false by now destruct (list_ascii_of_string l).
  rewrite Hemit, app_nil_r, rev_involutive, string_of_list_ascii_of_string.
  f_equal.
  rewrite (split_ws_word _ _ _ _ Ho).
  destruct (list_ascii_of_string o) as [|c cs] eqn:Hlo.
  { exfalso. apply Hne. rewrite <- (string_of_list_ascii_of_string o).
    now rewrite Hlo. }
  rewrite Hemit, app_nil_r, rev_involutive, <- Hlo,
    string_of_list_ascii_of_string.
  f_equal.
  rewrite <- (app_nil_r (list_ascii_of_string r)).
  rewrite (split_ws_word _ _ _ _ Hr). cbn [split_ws_from].
  now rewrite app_nil_r, rev_involutive, string_of_list_ascii_of_string.
Qed.

Lemma operator_text_plain (op : ConditionOperator) :
  no_space (operator_text op) = true
  /\ operator_text op <> EmptyString
  /\ operator_of (operator_text op) = Some op.
Proof. destruct op; repeat split; try reflexivity; discriminate. Qed.

(** X17.  A condition whose text the generator printed is read back by
    [parseCondition] with the same left operand and operator whenever
    neither the left operand nor the printed right operand contains
    white space; the right operand is what the printed text is typed
    as, which is the same boolean for a boolean and the text with its
    quotes for a string. *)
Theorem condition_text_round_trip (st : PState) (t1 t2 t3 : Token)
    (c : Condition) :
  DslParser.tokens st !! DslParser.current st = Some t1 ->
  Grammar.type t1 = Grammar.STRING ->
  Grammar.value t1 = generateConditionExpression numberToString c ->
  DslParser.tokens st !! S (DslParser.current st) = Some t2 ->
  Grammar.type t2 = Grammar.THEN ->
  DslParser.tokens st !! S (S (DslParser.current st)) = Some t3 ->
  Grammar.type t3 = Grammar.STRING ->
  no_space (leftOperand c) = true ->
  no_space (stringifyValue numberToString (rightOperand c)) = true ->
  parseCondition st
  = Ok ({| leftOperand := leftOperand c;
           operator := operator c;
           rightOperand :=
             sniff (stringifyValue numberToString (rightOperand c));
           cond_metadata := Some [("targetName", VStr (Grammar.value t3))] |},
        moved 3 st)
  /\ (forall b, sniff (stringifyValue numberToString (VBool b)) = VBool b)
  /\ (forall s, sniff (stringifyValue numberToString (VStr s))
                = VStr (DQ +:+ s +:+ DQ)).
Proof.
  intros H1 Hty1 Hval H2 Hty2 H3 Hty3 Hleft Hright.
  split; [|split].
  - unfold parseCondition, bind at 1.
    rewrite (parseString_ok st t1 H1 Hty1).
    unfold bind at 1.
    rewrite (consume_ok (moved 1 st) _ _ t2 H2 Hty2) by discriminate.
    unfold bind at 1.
    rewrite (parseString_ok (moved 1 (moved 1 st)) t3 H3 Hty3).
    rewrite Hval. unfold generateConditionExpression.
    destruct (operator_text_plain (operator c)) as (Hop & Hne & Hof).
    rewrite (split_ws_three _ _ _ Hleft Hop Hright Hne), Hof.
    reflexivity.
  - intros []; reflexivity.
  - intros s. reflexivity.
Qed.

End ConditionRoundTrip.

Section ConditionRoundTripWitness.
Import DslParser Examples.

Lemma condition_text_round_trip_witness :
  parseCondition before_ready_condition
  = Lexer.Ok ({| leftOperand := "ready"; operator := EQUALS;
           rightOperand := VBool true;
           cond_metadata := Some [("targetName", VStr "Done")] |},
        moved 3 before_ready_condition).
Proof.
  exact (proj1 (condition_text_round_trip show_integer
                  before_ready_condition _ _ _ ready_condition
                  eq_refl eq_refl eq_refl eq_refl eq_refl eq_refl eq_refl
                  eq_refl eq_refl)).
Defined.

End ConditionRoundTripWitness.

(* ------------------------------------------------------------------ *)
(** ** The shape of a token list *)
(* ------------------------------------------------------------------ *)

Section LexerShape.
Import Grammar Lexer LexSpec Examples.

Lemma obj_get_value {V} (k : string) (o : object V) (x : V) :
  obj_get k o = Some x -> In x (List.map snd o).
Proof.
  induction o as [|[k' v] o IH]; cbn; [discriminate|].
  destruct (String.eqb k' k); [intros [= ->]; now left | auto].
Qed.

(** The type the lexer gives to a word is a keyword's, or [IDENTIFIER]
    for a word that names nothing [KEYWORDS] has or inherits. *)
Lemma word_type (v : string) :
  let ty := match obj_get v KEYWORDS with
            | Some keyword => keyword
            | None => if inherited v then INHERITED v else IDENTIFIER
            end in
  ty <> EOF /\ (ty = IDENTIFIER -> inherited v = false).
Proof.
  cbn zeta. destruct (obj_get v KEYWORDS) as [ty|] eqn:Hget.
  - apply obj_get_value in Hget. cbn in Hget.
    repeat (destruct Hget as [<- | Hget];
            [split; [discriminate | intros [=]]|]).
    destruct Hget.
  - destruct (inherited v); split; try discriminate; auto.
Qed.

Lemma symbol_type (ch : string) (ty : TokenType) :
  symbol ch = Some ty -> ty <> EOF /\ ty <> IDENTIFIER.
Proof.
  unfold symbol.
  repeat (match goal with
          | |- context [String.eqb ?a ?b] => destruct (String.eqb a b)
          end; [intros [= <-]; split; discriminate|]).
  discriminate.
Qed.

Lemma sorted_snoc (l : list Token) (t : Token) :
  StronglySorted line_le l -> Forall (fun a => line_le a t) l ->
  StronglySorted line_le (l ++ [t]).
Proof.
  induction 1 as [|a l Hs IH Ha]; intros Hall; cbn.
  - repeat constructor.
  - inversion Hall as [|? ? Hat Hall']; subst. constructor.
    + now apply IH.
    + apply Forall_app. split; [exact Ha | now constructor].
Qed.

Lemma lex_ok_push (st : LexState) (ty : TokenType) (v : string)
    (col col' : Z) :
  ty <> EOF -> (ty = IDENTIFIER -> inherited v = false) -> lex_ok st ->
  lex_ok {| lx_tokens := push ty v col st; lx_line := lx_line st;
            lx_column := col' |}.
Proof.
  intros Hty Hid (Hall & Hsorted & Hone). unfold lex_ok, push. cbn.
  split; [|split; [|exact Hone]].
  - apply Forall_app. split; [exact Hall|]. constructor; [|constructor].
    cbn. split; [exact Hty|]. split; [lia | exact Hid].
  - apply sorted_snoc; [exact Hsorted|].
    eapply List.Forall_impl; [|exact Hall]. intros a (_ & Ha & _).
    unfold line_le. cbn. lia.
Qed.

Lemma lex_ok_line (st : LexState) (ln col : Z) :
  lx_line st <= ln -> lex_ok st ->
  lex_ok {| lx_tokens := lx_tokens st; lx_line := ln; lx_column := col |}.
Proof.
  intros Hln (Hall & Hsorted & Hone). unfold lex_ok. cbn.
  split; [|split; [exact Hsorted | lia]].
  eapply List.Forall_impl; [|exact Hall]. cbn. intros a (Hty & Ha & Hid).
  split; [exact Hty|]. split; [lia | exact Hid].
Qed.

Lemma block_comment_end_line (left : nat) (source : string) (c : nat)
    (ln col : Z) :
  ln <= snd (fst (block_comment_end left source c ln col)).
Proof.
  revert c ln col. induction left as [|left IH]; intros c ln col; cbn; [lia|].
  destruct (_ && _); [|cbn; lia].
  destruct (String.eqb _ _).
  - specialize (IH (S c) (ln + 1) 1). lia.
  - specialize (IH (S c) ln (col + 1)). lia.
Qed.

Lemma string_end_line (left : nat) (source : string) (c : nat)
    (ln col : Z) :
  ln <= snd (fst (string_end left source c ln col)).
Proof.
  revert c ln col. induction left as [left IH] using lt_wf_ind.
  intros c ln col. destruct left as [|left]; cbn; [lia|].
  destruct (_ && _); [|cbn; lia].
  destruct (_ && _).
  - specialize (IH (left - 0 - 1)%nat ltac:(lia) (c + 2)%nat ln (col + 2)).
    replace (left - 1)%nat with (left - 0 - 1)%nat by lia. lia.
  - destruct (String.eqb _ _).
    + specialize (IH left ltac:(lia) (S c) (ln + 1) 1). lia.
    + specialize (IH left ltac:(lia) (S c) ln (col + 1)). lia.
Qed.

Lemma tokenize_loop_lexed (fuel : nat) :
  forall source current st,
    lex_ok st -> lexed (tokenize_loop fuel source current st).
Proof.
  induction fuel as [|fuel IH]; intros source current st Hok; [exact I|].
  cbn [tokenize_loop].
  destruct (current <? String.length source)%nat eqn:Hlt; cbn [negb].
  2:{ cbn. destruct Hok as (Hall & Hsorted & Hone).
      eexists (lx_tokens st), _. split; [reflexivity|].
      split; [reflexivity|]. split; [reflexivity|].
      split; [|split; [|split]].
      - eapply List.Forall_impl; [|exact Hall]. now intros a [].
      - apply sorted_snoc; [exact Hsorted|].
        eapply List.Forall_impl; [|exact Hall]. intros a (_ & Ha & _).
        unfold line_le. cbn. lia.
      - apply Forall_app. split.
        + eapply List.Forall_impl; [|exact Hall]. intros a (_ & Ha & _). lia.
        + constructor; [cbn; lia | constructor].
      - apply Forall_app. split.
        + eapply List.Forall_impl; [|exact Hall]. now intros a (_ & _ & Ha).
        + constructor; [cbn; discriminate | constructor]. }
  destruct (test1 is_space _).
  { destruct (String.eqb _ NL); apply IH.
    - apply lex_ok_line; [lia | exact Hok].
    - apply lex_ok_line; [lia | exact Hok]. }
  destruct (_ && _).
  { apply IH. apply lex_ok_push; [discriminate | discriminate | exact Hok]. }
  destruct (_ && _).
  { pose proof (block_comment_end_line (String.length source - current)
                  source (current + 2) (lx_line st) (lx_column st)) as Hge.
    destruct (block_comment_end _ _ _ _ _) as [[c ln] col]. cbn in Hge.
    apply IH.
    apply (lex_ok_push {| lx_tokens := lx_tokens st; lx_line := ln;
                          lx_column := col |});
      [discriminate | discriminate | now apply lex_ok_line]. }
  destruct (symbol _) eqn:Hsym.
  { apply symbol_type in Hsym as [Heof Hid].
    apply IH. apply lex_ok_push; [exact Heof | tauto | exact Hok]. }
  destruct (_ && _).
  { apply IH. apply lex_ok_push; [discriminate | discriminate | exact Hok]. }
  destruct (String.eqb _ DQ).
  { pose proof (string_end_line (String.length source - current) source
                  (S current) (lx_line st) (lx_column st)) as Hge.
    destruct (string_end _ _ _ _ _) as [[c ln] col]. cbn in Hge.
    apply IH.
    apply (lex_ok_push {| lx_tokens := lx_tokens st; lx_line := ln;
                          lx_column := col |});
      [discriminate | discriminate | now apply lex_ok_line]. }
  destruct (test1 is_digit _).
  { apply IH. apply lex_ok_push; [discriminate | discriminate | exact Hok]. }
  destruct (test1 is_ident_start _).
  { apply IH. apply lex_ok_push; [apply word_type | apply word_type | exact Hok]. }
  cbn. unfold unexpected. eauto.
Qed.

Lemma tokenize_lexed (source : string) : lexed (tokenize source).
Proof.
  apply tokenize_loop_lexed.
  split; [constructor | split; [constructor | cbn; lia]].
Qed.


End LexerShape.

(* ------------------------------------------------------------------ *)
(** ** The parser ends, and reads no token that is not there *)
(* ------------------------------------------------------------------ *)

Section ParserSafety.
Import Lexer DslParser ParserSpec.
Import Grammar(Token, TokenType, type, value, line, column).

Variable env : Env.
Variables (pre : list Token) (eof : Token).
Hypothesis Heof : type eof = Grammar.EOF.
Hypothesis Hpre : Forall (fun t => type t <> Grammar.EOF) pre.

Lemma headed_append (m rest : string) :
  headed m = true -> m +:+ rest <> TypeError.
Proof.
  destruct m as [|a [|b [|c [|d [|e m]]]]]; try discriminate.
  cbn. intros H Heq. unfold TypeError in Heq.
  injection Heq as -> -> -> -> -> _. cbn in H. discriminate.
Qed.

Lemma lookup_positioned (st : PState) :
  positioned pre eof st ->
  exists tok, tokens st !! current st = Some tok
              /\ (type tok = Grammar.EOF <-> current st = List.length pre).
Proof.
  intros [Htoks Hle]. rewrite Htoks.
  destruct (decide (current st = List.length pre)) as [He | Hne].
  - exists eof. split; [|tauto].
    rewrite He. rewrite lookup_app_r by reflexivity.
    now rewrite Nat.sub_diag.
  - assert (current st < List.length pre)%nat as Hlt by lia.
    destruct (lookup_lt_is_Some_2 pre (current st) Hlt) as [tok Htok].
    exists tok. split.
    + rewrite lookup_app_l by lia. exact Htok.
    + split; [|tauto]. intros Hty. exfalso.
      rewrite List.Forall_forall in Hpre.
      apply (Hpre tok); [|exact Hty].
      now apply list_elem_of_In, list_elem_of_lookup_2 with (current st).
Qed.

Lemma safe_ret {A} (a : A) (st : PState) (Q : A -> PState -> Prop) :
  positioned pre eof st -> Q a st -> safe pre eof (ret a) st Q.
Proof. intros Hpos HQ. unfold safe, ret. auto. Qed.

Lemma safe_throw {A} (msg : string) (st : PState) (Q : A -> PState -> Prop) :
  msg <> TypeError -> safe pre eof (throw msg) st Q.
Proof. intros H. exact H. Qed.

Lemma safe_bind {A B} (m : P A) (k : A -> P B) (st : PState)
    (Q : A -> PState -> Prop) (Q' : B -> PState -> Prop) :
  safe pre eof m st Q ->
  (forall a st', positioned pre eof st' -> (current st <= current st')%nat ->
                 Q a st' ->
                 safe pre eof (k a) st'
                   (fun b st'' => (current st <= current st'')%nat ->
                                  Q' b st'')) ->
  safe pre eof (bind m k) st Q'.
Proof.
  unfold safe, bind. destruct (m st) as [[a st']| |]; [|auto|auto].
  intros (Hpos & Hle & HQ) Hk. specialize (Hk a st' Hpos Hle HQ).
  destruct (k a st') as [[b st'']| |]; [|auto|auto].
  destruct Hk as (Hpos' & Hle' & HQ').
  split; [exact Hpos'|]. split; [lia|]. apply HQ'. lia.
Qed.

Lemma safe_weaken {A} (m : P A) (st : PState)
    (Q Q' : A -> PState -> Prop) :
  safe pre eof m st Q ->
  (forall a st', positioned pre eof st' -> (current st <= current st')%nat ->
                 Q a st' -> Q' a st') ->
  safe pre eof m st Q'.
Proof.
  unfold safe. destruct (m st) as [[a st']| |]; [|auto|auto].
  intros (Hpos & Hle & HQ) H. auto.
Qed.

Ltac done_ret :=
  apply safe_ret; [assumption | unfold anything; auto].

Lemma isAtEnd_safe (st : PState) :
  positioned pre eof st ->
  safe pre eof isAtEnd st
    (fun b st' => st' = st /\ (b = true <-> current st = List.length pre)).
Proof.
  intros Hpos. destruct (lookup_positioned st Hpos) as (tok & Htok & Hend).
  unfold safe, isAtEnd, bind, peek, deref, ret. rewrite Htok.
  split; [exact Hpos|]. split; [lia|]. split; [reflexivity|].
  rewrite <- Hend. apply bool_decide_eq_true.
Qed.

Lemma check_safe (ty : TokenType) (st : PState) :
  positioned pre eof st ->
  safe pre eof (check ty) st
    (fun b st' => st' = st
                  /\ (b = true -> (current st < List.length pre)%nat)).
Proof.
  intros Hpos. destruct (lookup_positioned st Hpos) as (tok & Htok & Hend).
  pose proof Hpos as [_ Hle].
  unfold safe, check, isAtEnd, bind, peek, deref, ret. rewrite Htok.
  case_bool_decide as Hty; cbn.
  - split; [exact Hpos|]. split; [lia|]. split; [reflexivity | discriminate].
  - rewrite Htok. split; [exact Hpos|]. split; [lia|].
    split; [reflexivity|]. intros _.
    assert (current st <> List.length pre) by tauto. lia.
Qed.

Lemma advance_safe (st : PState) :
  positioned pre eof st ->
  safe pre eof advance st
    (fun t st' =>
       ((current st < List.length pre)%nat ->
        current st' = S (current st) /\ is_Some t)
       /\ ((1 <= current st)%nat -> is_Some t)).
Proof.
  intros Hpos. destruct (lookup_positioned st Hpos) as (tok & Htok & Hend).
  pose proof Hpos as [Htoks Hle].
  unfold safe, advance, isAtEnd, bind, peek, deref, ret, previous.
  rewrite Htok. case_bool_decide as Hty; cbn.
  - split; [exact Hpos|]. split; [lia|].
    assert (current st = List.length pre) as He by tauto.
    split; [lia|]. intros Hone.
    destruct (current st) as [|i] eqn:Hc; [lia|].
    apply lookup_lt_is_Some_2. rewrite Htoks, length_app. cbn. lia.
  - assert (current st <> List.length pre) by tauto.
    split; [split; [exact Htoks | cbn; lia]|]. split; [lia|].
    rewrite Htok. split; eauto.
Qed.

Lemma match_safe (ty : TokenType) (st : PState) :
  positioned pre eof st ->
  safe pre eof (match_ ty) st
    (fun b st' => if b then current st' = S (current st) else st' = st).
Proof.
  intros Hpos. unfold match_.
  eapply safe_bind; [now apply check_safe|].
  intros c st' Hpos' _ [-> Hc]. destruct c.
  - eapply safe_bind; [now apply advance_safe|].
    intros t st' Hpos'' _ [Hadv _]. apply safe_ret; [exact Hpos''|].
    intros _. now destruct (Hadv (Hc eq_refl)).
  - now apply safe_ret.
Qed.

Lemma fail_at_peek_safe {A} (message : string) (st : PState)
    (Q : A -> PState -> Prop) :
  positioned pre eof st -> headed message = true ->
  safe pre eof (fail_at_peek message) st Q.
Proof.
  intros Hpos Hm. destruct (lookup_positioned st Hpos) as (tok & Htok & _).
  unfold safe, fail_at_peek, error, bind, peek, deref, ret, throw.
  rewrite Htok. now apply headed_append.
Qed.

Lemma consume_safe (ty : TokenType) (message : string) (st : PState) :
  positioned pre eof st -> headed message = true ->
  safe pre eof (consume ty message) st
    (fun t st' => current st' = S (current st) /\ is_Some t).
Proof.
  intros Hpos Hm. unfold consume.
  eapply safe_bind; [now apply check_safe|].
  intros c st' Hpos' _ [-> Hc]. destruct c.
  - eapply safe_weaken; [now apply advance_safe|].
    intros t st' _ _ [Hadv _] _. exact (Hadv (Hc eq_refl)).
  - now apply fail_at_peek_safe.
Qed.

Lemma consume_then {A} (ty : TokenType) (message : string)
    (f : Token -> A) (st : PState) :
  positioned pre eof st -> headed message = true ->
  safe pre eof (token <- consume ty message ;; t <- deref token ;; ret (f t))
    st (moved_on st).
Proof.
  intros Hpos Hm. eapply safe_bind; [now apply consume_safe|].
  intros t st' Hpos' _ [Hcur [tok ->]]. cbn.
  split; [exact Hpos'|]. split; [lia|]. intros _. exact Hcur.
Qed.

Lemma parseString_safe (st : PState) :
  positioned pre eof st -> safe pre eof parseString st (moved_on st).
Proof. intros Hpos. now apply consume_then. Qed.

Lemma parseNumber_safe (st : PState) :
  positioned pre eof st -> safe pre eof parseNumber st (moved_on st).
Proof. intros Hpos. now apply consume_then. Qed.

Lemma parseBoolean_safe (st : PState) :
  positioned pre eof st -> safe pre eof parseBoolean st (moved_on st).
Proof. intros Hpos. now apply consume_then. Qed.

Lemma parseIdentifier_safe (st : PState) :
  positioned pre eof st -> safe pre eof parseIdentifier st (moved_on st).
Proof. intros Hpos. now apply consume_then. Qed.

Lemma parseOperator_safe (st : PState) :
  positioned pre eof st -> (1 <= current st)%nat ->
  safe pre eof parseOperator st anything.
Proof.
  intros Hpos Hone. unfold parseOperator.
  eapply safe_bind; [now apply advance_safe|].
  intros t st' Hpos' _ [_ Hsome]. destruct (Hsome Hone) as [tok ->]. cbn.
  unfold bind at 1. cbn.
  destruct (operator_of (value tok)).
  - done_ret.
  - unfold safe, bind, error, deref, ret, throw. cbn.
    now apply headed_append.
Qed.

Lemma in_block_safe (st : PState) :
  positioned pre eof st ->
  safe pre eof in_block st
    (fun b st' => st' = st
                  /\ (b = true -> (current st < List.length pre)%nat)).
Proof.
  intros Hpos. unfold in_block.
  eapply safe_bind; [now apply check_safe|].
  intros c st' Hpos' _ [-> _].
  eapply safe_bind; [now apply isAtEnd_safe|].
  intros e st' Hpos'' _ [-> He].
  apply safe_ret; [exact Hpos|]. intros _. split; [reflexivity|].
  destruct Hpos as [_ Hle].
  destruct e; cbn; [rewrite andb_false_r; discriminate|].
  intros _. assert (current st <> List.length pre).
  { intros Hc. apply He in Hc. discriminate. }
  lia.
Qed.

Lemma skip_comment_or_safe {A} (message : string) (k : P A) (st : PState)
    (Q : A -> PState -> Prop) :
  positioned pre eof st -> headed message = true ->
  (forall st', positioned pre eof st' -> current st' = S (current st) ->
               safe pre eof k st' Q) ->
  safe pre eof (skip_comment_or message k) st Q.
Proof.
  intros Hpos Hm Hk. unfold skip_comment_or.
  eapply safe_bind; [now apply check_safe|].
  intros c st' Hpos' _ [-> Hc]. destruct c.
  - eapply safe_bind; [now apply advance_safe|].
    intros t st' Hpos'' _ [Hadv _]. destruct (Hadv (Hc eq_refl)) as [Hcur _].
    eapply safe_weaken; [now apply Hk|]. auto.
  - now apply fail_at_peek_safe.
Qed.

Lemma parseCondition_safe (st : PState) :
  positioned pre eof st -> safe pre eof parseCondition st anything.
Proof.
  intros Hpos. unfold parseCondition.
  eapply safe_bind; [now apply parseString_safe|].
  intros s st1 Hpos1 _ _.
  eapply safe_bind; [now apply consume_safe|].
  intros t st2 Hpos2 _ _.
  eapply safe_bind; [now apply parseString_safe|].
  intros target st3 Hpos3 _ _.
  destruct (split_ws s) as [|l [|o [|r [|x parts]]]];
    try (apply safe_throw; now apply headed_append).
  destruct (operator_of o).
  - done_ret.
  - apply safe_throw. now apply headed_append.
Qed.

Ltac fuel_arith :=
  unfold remaining, moved_on in *; cbn in *; lia.

Ltac run lemma :=
  eapply safe_bind; [apply lemma; solve [auto] |].

Lemma parseResources_loop_safe (fuel : nat) :
  forall resources st,
    positioned pre eof st -> (remaining pre st < fuel)%nat ->
    safe pre eof (parseResources_loop fuel resources) st anything.
Proof.
  induction fuel as [|fuel IH]; intros resources st Hpos Hfuel; [fuel_arith|].
  cbn [parseResources_loop].
  run in_block_safe. intros go st' _ _ [-> Hgo].
  destruct go; [|done_ret].
  specialize (Hgo eq_refl).
  run check_safe. intros c st' _ _ [-> _]. destruct c.
  - run parseIdentifier_safe. intros name st1 Hpos1 _ Hcur1.
    run consume_safe. intros t st2 Hpos2 _ [Hcur2 _].
    run parseNumber_safe. intros amount st3 Hpos3 _ Hcur3.
    eapply safe_weaken; [apply IH; [exact Hpos3 | fuel_arith]|].
    unfold anything. auto.
  - apply skip_comment_or_safe; [exact Hpos | reflexivity|].
    intros st' Hpos' Hcur. eapply safe_weaken;
      [apply IH; [exact Hpos' | fuel_arith]|].
    unfold anything. auto.
Qed.

Lemma parseResources_safe (fuel : nat) (st : PState) :
  positioned pre eof st -> (remaining pre st <= fuel)%nat ->
  safe pre eof (parseResources fuel) st anything.
Proof.
  intros Hpos Hfuel. unfold parseResources.
  run consume_safe. intros t st1 Hpos1 _ [Hcur1 _].
  eapply safe_bind;
    [apply parseResources_loop_safe; [exact Hpos1 | destruct Hpos1; fuel_arith]|].
  intros r st2 Hpos2 _ _.
  run consume_safe. intros t' st3 Hpos3 _ _.
  apply safe_ret; [exact Hpos3 | unfold anything; auto].
Qed.

Section OverValues.
Variable parseValue : P Js.value.
Variable bound : nat.
Hypothesis parseValue_safe :
  forall st, positioned pre eof st -> (remaining pre st < bound)%nat ->
             safe pre eof parseValue st anything.

Lemma parseObject_loop_safe (fuel : nat) :
  forall obj st,
    positioned pre eof st -> (remaining pre st < fuel)%nat ->
    (remaining pre st <= bound)%nat ->
    safe pre eof (parseObject_loop parseValue fuel obj) st anything.
Proof.
  induction fuel as [|fuel IH]; intros obj st Hpos Hfuel Hb; [fuel_arith|].
  cbn [parseObject_loop].
  run in_block_safe. intros go st' _ _ [-> Hgo].
  destruct go; [|done_ret].
  specialize (Hgo eq_refl).
  run check_safe. intros c st' _ _ [-> _]. destruct c.
  - run parseIdentifier_safe. intros name st1 Hpos1 _ Hcur1.
    run consume_safe. intros t st2 Hpos2 _ [Hcur2 _].
    eapply safe_bind; [apply parseValue_safe; [exact Hpos2 | fuel_arith]|].
    intros v st3 Hpos3 Hle3 _.
    eapply safe_weaken; [apply IH; [exact Hpos3 | fuel_arith | fuel_arith]|].
    unfold anything. auto.
  - apply skip_comment_or_safe; [exact Hpos | reflexivity|].
    intros st' Hpos' Hcur. eapply safe_weaken;
      [apply IH; [exact Hpos' | fuel_arith | fuel_arith]|].
    unfold anything. auto.
Qed.

Lemma parseObject_with_safe (fuel : nat) (st : PState) :
  positioned pre eof st -> (remaining pre st <= fuel)%nat ->
  (remaining pre st <= bound)%nat ->
  safe pre eof (parseObject_with parseValue fuel) st anything.
Proof.
  intros Hpos Hfuel Hb. unfold parseObject_with.
  run consume_safe. intros t st1 Hpos1 _ [Hcur1 _].
  pose proof Hpos1 as [_ Hle1].
  eapply safe_bind;
    [apply parseObject_loop_safe; [exact Hpos1 | fuel_arith | fuel_arith]|].
  intros r st2 Hpos2 _ _.
  run consume_safe. intros t' st3 Hpos3 _ _.
  apply safe_ret; [exact Hpos3 | unfold anything; auto].
Qed.

Lemma parseArray_loop_safe (fuel : nat) :
  forall array st,
    positioned pre eof st -> (remaining pre st < fuel)%nat ->
    (remaining pre st < bound)%nat ->
    safe pre eof (parseArray_loop parseValue fuel array) st anything.
Proof.
  induction fuel as [|fuel IH]; intros array st Hpos Hfuel Hb; [fuel_arith|].
  cbn [parseArray_loop].
  run check_safe. intros c st' _ _ [-> _].
  run isAtEnd_safe. intros e st' _ _ [-> _].
  destruct (negb c && negb e); [|done_ret].
  eapply safe_bind; [apply parseValue_safe; [exact Hpos | exact Hb]|].
  intros v st1 Hpos1 Hle1 _.
  run check_safe. intros comma st' _ _ [-> Hcomma].
  destruct comma; [|apply safe_ret; [exact Hpos1 | unfold anything; auto]].
  run advance_safe. intros t st2 Hpos2 _ [Hadv _].
  destruct (Hadv (Hcomma eq_refl)) as [Hcur2 _].
  eapply safe_weaken; [apply IH; [exact Hpos2 | fuel_arith | fuel_arith]|].
  unfold anything. auto.
Qed.

Lemma parseArray_with_safe (fuel : nat) (st : PState) :
  positioned pre eof st -> (remaining pre st <= fuel)%nat ->
  (remaining pre st <= bound)%nat ->
  safe pre eof (parseArray_with parseValue fuel) st anything.
Proof.
  intros Hpos Hfuel Hb. unfold parseArray_with.
  run consume_safe. intros t st1 Hpos1 _ [Hcur1 _].
  pose proof Hpos1 as [_ Hle1].
  eapply safe_bind;
    [apply parseArray_loop_safe; [exact Hpos1 | fuel_arith | fuel_arith]|].
  intros r st2 Hpos2 _ _.
  run consume_safe. intros t' st3 Hpos3 _ _.
  apply safe_ret; [exact Hpos3 | unfold anything; auto].
Qed.

End OverValues.

Lemma parseValue_safe (fuel : nat) :
  forall st,
    positioned pre eof st -> (remaining pre st < fuel)%nat ->
    safe pre eof (parseValue fuel) st anything.
Proof.
  induction fuel as [|fuel IH]; intros st Hpos Hfuel; [fuel_arith|].
  cbn [parseValue].
  run check_safe. intros c st' _ _ [-> _]. destruct c.
  { run parseString_safe. intros s st1 Hpos1 _ _. done_ret. }
  run check_safe. intros c st' _ _ [-> _]. destruct c.
  { run parseNumber_safe. intros s st1 Hpos1 _ _. done_ret. }
  run check_safe. intros c st' _ _ [-> _]. destruct c.
  { run parseBoolean_safe. intros s st1 Hpos1 _ _. done_ret. }
  run check_safe. intros c st' _ _ [-> _]. destruct c.
  { eapply safe_bind;
      [apply (parseArray_with_safe (parseValue fuel) fuel IH);
       [exact Hpos | fuel_arith | fuel_arith]|].
    intros a st1 Hpos1 _ _. done_ret. }
  run check_safe. intros c st' _ _ [-> _]. destruct c.
  { eapply safe_bind;
      [apply (parseObject_with_safe (parseValue fuel) fuel IH);
       [exact Hpos | fuel_arith | fuel_arith]|].
    intros a st1 Hpos1 _ _. done_ret. }
  now apply fail_at_peek_safe.
Qed.

Lemma parseObject_safe (fuel : nat) (st : PState) :
  positioned pre eof st -> (remaining pre st <= fuel)%nat ->
  safe pre eof (parseObject fuel) st anything.
Proof.
  intros Hpos Hfuel. unfold parseObject.
  apply (parseObject_with_safe (parseValue fuel) fuel (parseValue_safe fuel));
    [exact Hpos | exact Hfuel | exact Hfuel].
Qed.

Lemma parseDependencies_loop_safe (fuel : nat) :
  forall dependencies st,
    positioned pre eof st -> (remaining pre st < fuel)%nat ->
    safe pre eof (parseDependencies_loop fuel dependencies) st anything.
Proof.
  induction fuel as [|fuel IH]; intros deps st Hpos Hfuel; [fuel_arith|].
  cbn [parseDependencies_loop].
  run in_block_safe. intros go st' _ _ [-> Hgo].
  destruct go; [|done_ret].
  specialize (Hgo eq_refl).
  run check_safe. intros c st' _ _ [-> _]. destruct c.
  - run parseString_safe. intros source st1 Hpos1 _ Hcur1.
    run consume_safe. intros t st2 Hpos2 _ [Hcur2 _].
    run parseString_safe. intros target st3 Hpos3 _ Hcur3.
    run match_safe. intros w st4 Hpos4 _ Hw. destruct w.
    + run parseIdentifier_safe. intros l st5 Hpos5 _ Hcur5.
      eapply safe_bind; [apply parseOperator_safe; [exact Hpos5 | fuel_arith]|].
      intros op st6 Hpos6 Hle6 _.
      eapply safe_bind; [apply parseValue_safe; [exact Hpos6 | fuel_arith]|].
      intros r st7 Hpos7 Hle7 _.
      eapply safe_weaken; [apply IH; [exact Hpos7 | fuel_arith]|].
      unfold anything. auto.
    + subst st4.
      run match_safe. intros d st5 Hpos5 _ Hd. destruct d.
      * eapply safe_weaken; [apply IH; [exact Hpos5 | fuel_arith]|].
        unfold anything. auto.
      * subst st5.
        eapply safe_weaken; [apply IH; [exact Hpos3 | fuel_arith]|].
        unfold anything. auto.
  - apply skip_comment_or_safe; [exact Hpos | reflexivity|].
    intros st' Hpos' Hcur. eapply safe_weaken;
      [apply IH; [exact Hpos' | fuel_arith]|].
    unfold anything. auto.
Qed.

Lemma parseDependencies_safe (fuel : nat) (st : PState) :
  positioned pre eof st -> (remaining pre st <= fuel)%nat ->
  safe pre eof (parseDependencies fuel) st anything.
Proof.
  intros Hpos Hfuel. unfold parseDependencies.
  run consume_safe. intros t st1 Hpos1 _ [Hcur1 _].
  pose proof Hpos1 as [_ Hle1].
  eapply safe_bind;
    [apply parseDependencies_loop_safe; [exact Hpos1 | fuel_arith]|].
  intros r st2 Hpos2 _ _.
  run consume_safe. intros t' st3 Hpos3 _ _.
  apply safe_ret; [exact Hpos3 | unfold anything; auto].
Qed.

Lemma read_now_safe (st : PState) :
  positioned pre eof st ->
  safe pre eof (read_now env) st (fun _ st' => current st' = current st).
Proof. intros Hpos. unfold safe, read_now. cbn. auto. Qed.

Lemma fresh_id_safe (prefix : string) (st : PState) :
  positioned pre eof st ->
  safe pre eof (fresh_id env prefix) st
    (fun _ st' => current st' = current st).
Proof. intros Hpos. unfold safe, fresh_id, bind, read_now, read_random, ret. cbn. auto. Qed.

Lemma parseTrack_loop_safe (fuel : nat) :
  forall track st,
    positioned pre eof st -> (remaining pre st < fuel)%nat ->
    safe pre eof (parseTrack_loop fuel track) st anything.
Proof.
  induction fuel as [|fuel IH]; intros track st Hpos Hfuel; [fuel_arith|].
  cbn [parseTrack_loop].
  run in_block_safe. intros go st' _ _ [-> Hgo].
  destruct go; [|done_ret].
  specialize (Hgo eq_refl).
  run match_safe. intros m st1 Hpos1 _ Hm. destruct m.
  - run parseString_safe. intros d st2 Hpos2 _ Hcur2.
    eapply safe_weaken; [apply IH; [exact Hpos2 | fuel_arith]|].
    unfold anything. auto.
  - subst st1. clear Hpos1. apply skip_comment_or_safe; [exact Hpos | reflexivity|].
    intros st' Hpos' Hcur. eapply safe_weaken;
      [apply IH; [exact Hpos' | fuel_arith]|].
    unfold anything. auto.
Qed.

Lemma parseTrack_safe (fuel : nat) (st : PState) :
  positioned pre eof st -> (remaining pre st <= fuel)%nat ->
  safe pre eof (parseTrack env fuel) st anything.
Proof.
  intros Hpos Hfuel. unfold parseTrack.
  run parseString_safe. intros name st1 Hpos1 _ Hcur1.
  run consume_safe. intros t st2 Hpos2 _ [Hcur2 _].
  run fresh_id_safe. intros id st3 Hpos3 _ Hcur3.
  pose proof Hpos3 as [_ Hle3].
  eapply safe_bind; [apply parseTrack_loop_safe; [exact Hpos3 | fuel_arith]|].
  intros r st4 Hpos4 _ _.
  run consume_safe. intros t' st5 Hpos5 _ _.
  apply safe_ret; [exact Hpos5 | unfold anything; auto].
Qed.

Ltac again IH :=
  eapply safe_weaken;
  [apply IH; [eassumption | fuel_arith] | unfold anything; auto].

Lemma parseNode_loop_safe (fuel : nat) (type : NodeType) :
  forall node st,
    positioned pre eof st -> (remaining pre st < fuel)%nat ->
    safe pre eof (parseNode_loop fuel type node) st anything.
Proof.
  induction fuel as [|fuel IH]; intros node st Hpos Hfuel; [fuel_arith|].
  cbn [parseNode_loop].
  run in_block_safe. intros go st' _ _ [-> Hgo].
  destruct go; cbn [negb]; [|done_ret].
  specialize (Hgo eq_refl).
  run match_safe. intros m st1 Hpos1 _ Hm. destruct m.
  { run parseString_safe. intros d st2 Hpos2 _ Hcur2. again IH. }
  subst st1. clear Hpos1.
  run match_safe. intros m st1 Hpos1 _ Hm. destruct m.
  { run parseString_safe. intros d st2 Hpos2 _ Hcur2. again IH. }
  subst st1. clear Hpos1.
  run match_safe. intros m st1 Hpos1 _ Hm. destruct m.
  { destruct type; try (now apply fail_at_peek_safe).
    run parseString_safe. intros d st2 Hpos2 _ Hcur2. again IH. }
  subst st1. clear Hpos1.
  run match_safe. intros m st1 Hpos1 _ Hm. destruct m.
  { eapply safe_bind; [apply parseObject_safe; [exact Hpos1 | fuel_arith]|].
    intros o st2 Hpos2 Hle2 _. again IH. }
  subst st1. clear Hpos1.
  run match_safe. intros m st1 Hpos1 _ Hm. destruct m.
  { eapply safe_bind; [apply parseResources_safe; [exact Hpos1 | fuel_arith]|].
    intros o st2 Hpos2 Hle2 _. again IH. }
  subst st1. clear Hpos1.
  run match_safe. intros m st1 Hpos1 _ Hm. destruct m.
  { destruct type; try (now apply fail_at_peek_safe).
    run parseCondition_safe. intros d st2 Hpos2 Hle2 _. again IH. }
  subst st1. clear Hpos1.
  run match_safe. intros m st1 Hpos1 _ Hm. destruct m.
  { destruct type; try (now apply fail_at_peek_safe).
    run parseString_safe. intros d st2 Hpos2 _ Hcur2. again IH. }
  subst st1. clear Hpos1.
  run match_safe. intros m st1 Hpos1 _ Hm. destruct m.
  { destruct type; try (now apply fail_at_peek_safe).
    run parseBoolean_safe. intros d st2 Hpos2 _ Hcur2. again IH. }
  subst st1. clear Hpos1.
  run match_safe. intros m st1 Hpos1 _ Hm. destruct m.
  { destruct type; try (now apply fail_at_peek_safe).
    - run parseNumber_safe. intros d st2 Hpos2 _ Hcur2. again IH.
    - run parseNumber_safe. intros d st2 Hpos2 _ Hcur2. again IH. }
  subst st1. clear Hpos1.
  apply skip_comment_or_safe; [exact Hpos | now destruct type|].
  intros st' Hpos' Hcur. again IH.
Qed.

Lemma parseNode_safe (fuel : nat) (type : NodeType) (st : PState) :
  positioned pre eof st -> (remaining pre st <= fuel)%nat ->
  safe pre eof (parseNode env fuel type) st anything.
Proof.
  intros Hpos Hfuel. unfold parseNode.
  run parseString_safe. intros name st1 Hpos1 _ Hcur1.
  eapply safe_bind;
    [apply consume_safe; [exact Hpos1 | now destruct type]|].
  intros t st2 Hpos2 _ [Hcur2 _].
  run fresh_id_safe. intros id st3 Hpos3 _ Hcur3.
  pose proof Hpos3 as [_ Hle3].
  eapply safe_bind; [apply parseNode_loop_safe; [exact Hpos3 | fuel_arith]|].
  intros r st4 Hpos4 _ _.
  eapply safe_bind;
    [apply consume_safe; [exact Hpos4 | now destruct type]|].
  intros t' st5 Hpos5 _ _.
  apply safe_ret; [exact Hpos5 | unfold anything; auto].
Qed.

Lemma parseWorkflow_loop_safe (fuel : nat) :
  forall workflow st,
    positioned pre eof st -> (remaining pre st < fuel)%nat ->
    safe pre eof (parseWorkflow_loop env fuel workflow) st anything.
Proof.
  induction fuel as [|fuel IH]; intros workflow st Hpos Hfuel; [fuel_arith|].
  cbn [parseWorkflow_loop].
  run in_block_safe. intros go st' _ _ [-> Hgo].
  destruct go; cbn [negb]; [|done_ret].
  specialize (Hgo eq_refl).
  run match_safe. intros m st1 Hpos1 _ Hm. destruct m.
  { run parseString_safe. intros d st2 Hpos2 _ Hcur2. again IH. }
  subst st1. clear Hpos1.
  run match_safe. intros m st1 Hpos1 _ Hm. destruct m.
  { run parseString_safe. intros d st2 Hpos2 _ Hcur2. again IH. }
  subst st1. clear Hpos1.
  run match_safe. intros m st1 Hpos1 _ Hm. destruct m.
  { eapply safe_bind; [apply parseTrack_safe; [exact Hpos1 | fuel_arith]|].
    intros o st2 Hpos2 Hle2 _. again IH. }
  subst st1. clear Hpos1.
  do 5 (run match_safe; intros m st1 Hpos1 _ Hm; destruct m;
        [ eapply safe_bind;
          [apply parseNode_safe; [exact Hpos1 | fuel_arith]|];
          intros o st2 Hpos2 Hle2 _; again IH
        | subst st1; clear Hpos1 ]).
  run match_safe. intros m st1 Hpos1 _ Hm. destruct m.
  { eapply safe_bind;
      [apply parseDependencies_safe; [exact Hpos1 | fuel_arith]|].
    intros o st2 Hpos2 Hle2 _. again IH. }
  subst st1. clear Hpos1.
  apply skip_comment_or_safe; [exact Hpos | reflexivity|].
  intros st' Hpos' Hcur. again IH.
Qed.

Lemma parseWorkflow_safe (fuel : nat) (st : PState) :
  positioned pre eof st -> (remaining pre st <= fuel)%nat ->
  safe pre eof (parseWorkflow env fuel) st anything.
Proof.
  intros Hpos Hfuel. unfold parseWorkflow.
  run consume_safe. intros t st1 Hpos1 _ [Hcur1 _].
  run parseString_safe. intros name st2 Hpos2 _ Hcur2.
  run consume_safe. intros t2 st3 Hpos3 _ [Hcur3 _].
  run read_now_safe. intros now st4 Hpos4 _ Hcur4.
  pose proof Hpos4 as [_ Hle4].
  eapply safe_bind;
    [apply parseWorkflow_loop_safe; [exact Hpos4 | fuel_arith]|].
  intros r st5 Hpos5 _ _.
  run consume_safe. intros t' st6 Hpos6 _ _.
  apply safe_ret; [exact Hpos6 | unfold anything; auto].
Qed.

End ParserSafety.

Section ParserTotality.
Import Lexer DslParser ParserSpec.
Variable env : Env.

(** X19.  On every source text [parse] ends: it returns a workflow or
    throws an error of the lexer or the parser, and it never fails by
    reading a property of a token that is not there. *)
Theorem parse_terminates_safely (source : string) :
  (exists workflow, parse env source = Ok workflow)
  \/ (exists msg, parse env source = Throw msg /\ msg <> TypeError).
Proof.
  unfold parse.
  pose proof (tokenize_lexed source) as Hlex.
  pose proof (tokenize_loop_returns (S (String.length source)) source 0
                {| lx_tokens := []; lx_line := 1; lx_column := 1 |}
                ltac:(lia)) as Hret.
  unfold tokenize in *.
  destruct (tokenize_loop _ _ _ _) as [toks|msg|]; [| |contradiction].
  - destruct Hlex as (pre & eof & -> & Heof & _ & Hpre & _).
    pose proof (parseWorkflow_safe env pre eof Heof Hpre
                  (parse_fuel (pre ++ [eof]))
                  {| tokens := pre ++ [eof]; current := 0; now_calls := 0;
                     random_calls := 0 |}) as Hsafe.
    unfold safe in Hsafe.
    destruct (parseWorkflow _ _ _) as [[workflow st]|msg|].
    + left. eauto.
    + right. exists msg. split; [reflexivity|]. apply Hsafe.
      * split; [reflexivity | cbn; lia].
      * unfold remaining, parse_fuel. rewrite length_app. cbn. lia.
    + exfalso. apply Hsafe.
      * split; [reflexivity | cbn; lia].
      * unfold remaining, parse_fuel. rewrite length_app. cbn. lia.
  - right. exists msg. split; [reflexivity|].
    destruct Hlex as (ch & ln & col & ->). discriminate.
Qed.

(** X20.  A word that names a property of [Object.prototype] is no
    identifier for the parser: where a resource name is expected, each
    of them is rejected with the error of a missing resource definition,
    at the position the lexer recorded for the word. *)
Theorem inherited_word_rejected (member : string) :
  In member Object_prototype ->
  parse env (Examples.resource_document member)
  = Throw "Expected resource definition at line 1, column 37".
Proof.
  intros H. cbn in H.
  repeat (destruct H as [<- | H]; [vm_compute; reflexivity|]).
  destruct H.
Qed.

End ParserTotality.

Section InheritedWordWitness.
Import Lexer DslParser Examples.

Lemma inherited_word_rejected_witness :
  parse constant_env (resource_document "constructor")
  = Throw "Expected resource definition at line 1, column 37"
  /\ exists workflow,
       parse constant_env (resource_document "custom_thing") = Ok workflow.
Proof.
  split.
  - apply (inherited_word_rejected constant_env "constructor").
    cbn. tauto.
  - eexists. vm_compute. reflexivity.
Defined.

End InheritedWordWitness.
